(** * Corpus processing for word-sense novelty detection (corpus.py)

    A shallow embedding of [corpus.py]: the classes [Word], [Document] and
    [Corpus], with the properties of their methods proved below.

    Conventions of the embedding:
    - Python [int]s are [Z] or [nat] (a [nat] wherever the value is a length,
      an index or a tally that is only ever incremented from zero);
    - Python [float]s are IEEE binary64 numbers, the kernel's primitive
      floats, in the PPMI of a cell and in [Binary64], which is
      [Document.init_partition] as the interpreter runs it; [Document]
      itself takes the CRP priors, and [Word] the novelty scores, over the
      rationals [Q]: the same steps in exact arithmetic;
    - a raised exception is the [Raise] alternative of [result];
    - a [dict] or [collections.Counter], whose key order decides the word
      ids, is an association list in insertion order; the sparse
      [dok_matrix] and the stopword [set] are stdpp finite maps and sets;
    - the list object that [Corpus.preprocess] rewrites lives in an explicit
      store of list objects;
    - the tokenizer, the stopword list, the random generator, the
      logarithm and the file system are collaborators outside the program:
      they are variables. *)

From Stdlib Require Import QArith Lqa Lia Ascii String Permutation Floats.
From stdpp Require Import gmap strings list fin_maps sorting pretty.

Close Scope Q_scope.

(** ** Exceptions *)

Inductive exn : Type :=
  | IndexError | KeyError | ValueError | ZeroDivisionError
  | TypeError | AttributeError | OSError | UnicodeDecodeError.

Inductive result (A : Type) : Type :=
  | Ok (a : A)
  | Raise (e : exn).
Arguments Ok {A} a.
Arguments Raise {A} e.

(** Sequencing stops at the first exception: [x ← r; k] below. *)
#[export] Instance result_bind : MBind result :=
  λ A B (k : A → result B) (r : result A),
    match r with
    | Ok a => k a
    | Raise e => Raise e
    end.

#[export] Instance result_ret : MRet result := λ A a, Ok a.

(** ** Strings: [str.strip] and [str.split(' ')] *)

Module Text.

(** A character of a string is a code point below 256.  White space as
    [str.strip] understands it ([str.isspace]): tab to carriage return,
    the four separators U+001C to U+001F, the blank, U+0085 and U+00A0. *)
Definition is_space (c : ascii) : bool :=
  let n := nat_of_ascii c in
  ((9 <=? n) && (n <=? 13)) || ((28 <=? n) && (n <=? 32))
  || (n =? 133) || (n =? 160).

Fixpoint lstrip (s : string) : string :=
  match s with
  | EmptyString => EmptyString
  | String c r => if is_space c then lstrip r else s
  end.

Fixpoint rstrip (s : string) : string :=
  match s with
  | EmptyString => EmptyString
  | String c r =>
      match rstrip r with
      | EmptyString => if is_space c then EmptyString else String c EmptyString
      | r' => String c r'
      end
  end.

Definition strip (s : string) : string := rstrip (lstrip s).

(** [s.split(sep)] for a one-character separator: empty fields are kept, and
    the empty string splits into one empty field. *)
Fixpoint split (sep : ascii) (s : string) : list string :=
  match s with
  | EmptyString => [EmptyString]
  | String c r =>
      if Ascii.eqb c sep then EmptyString :: split sep r
      else match split sep r with
           | h :: t => String c h :: t
           | [] => [String c EmptyString]
           end
  end.

Definition space : ascii := Ascii.ascii_of_nat 32.

End Text.

(** ** [dict] and [collections.Counter], in insertion order *)

Module Dict.

Abbreviation t V := (list (string * V)).

Definition keys {V} (d : t V) : list string := d.*1.

Fixpoint get {V} (d : t V) (w : string) : option V :=
  match d with
  | [] => None
  | (k, v) :: r => if String.eqb k w then Some v else get r w
  end.

(** [d[w] = x]: an existing key keeps its place, a new key goes last. *)
Fixpoint set {V} (w : string) (x : V) (d : t V) : t V :=
  match d with
  | [] => [(w, x)]
  | (k, v) :: r =>
      if String.eqb k w then (k, x) :: r else (k, v) :: set w x r
  end.

(** [{i: o for o, i in enumerate(ks)}] *)
Definition enumerate (ks : list string) : t nat :=
  foldl (λ d (oi : nat * string), set oi.2 oi.1 d) [] (imap pair ks).

End Dict.

Module Counter.

Abbreviation t := (list (string * Z)).

(** [c[w]]: a missing key counts as 0. *)
Definition get (c : t) (w : string) : Z := default 0%Z (Dict.get c w).

(** [c[w] += n] *)
Definition incr (w : string) (n : Z) (c : t) : t :=
  Dict.set w (get c w + n)%Z c.

(** [Counter(iterable)] *)
Definition of_list (l : list string) : t :=
  foldl (λ c w, incr w 1 c) [] l.

Definition keep_positive (c : t) : t :=
  filter (λ kv : string * Z, (0 < kv.2)%Z) c.

(** [c += other] *)
Definition iadd (c other : t) : t :=
  keep_positive (foldl (λ acc (kv : string * Z), incr kv.1 kv.2 acc) c other).

(** [c.most_common()]: by decreasing count. *)
Definition count_ge (a b : string * Z) : Prop := (b.2 ≤ a.2)%Z.

#[export] Instance count_ge_dec a b : Decision (count_ge a b) :=
  Z_le_dec b.2 a.2.

Definition most_common (c : t) : list (string * Z) :=
  merge_sort count_ge c.

End Counter.

(** ** Rational arithmetic helpers *)

Definition Qltb (x y : Q) : bool := negb (Qle_bool y x).

Definition Qnat (n : nat) : Q := inject_Z (Z.of_nat n).

(** [sum(l)]: Python adds from the left, starting at 0. *)
Definition Qsum (l : list Q) : Q := foldl Qplus 0%Q l.

(** ** class Word *)

Module Word.

(** [senses] has one row per sense: (reference tally, focus tally).  The
    rows start at zero and are only ever incremented by one. *)
Record t : Type := mk {
  word : string;
  idx : nat;
  senses : list (nat * nat)
}.

(** [np.nonzero(m)] for a two-column matrix: the row indices and the column
    indices of the nonzero cells, in row-major order. *)
Definition nonzero_cells (m : list (nat * nat)) : list (nat * nat) :=
  concat (imap (λ r (row : nat * nat),
            (if decide (row.1 = 0) then [] else [(r, 0)]) ++
            (if decide (row.2 = 0) then [] else [(r, 1)])) m).

Definition nonzero (m : list (nat * nat)) : list nat * list nat :=
  ((nonzero_cells m).*1, (nonzero_cells m).*2).

Fixpoint insert_sorted (x : nat) (l : list nat) : list nat :=
  match l with
  | [] => [x]
  | y :: r =>
      if decide (x < y) then x :: l
      else if decide (x = y) then l
      else y :: insert_sorted x r
  end.

(** [np.unique(a)]: the sorted distinct values of the flattened input.  For
    the pair of arrays that [np.nonzero] returns, the flattened input is
    the row indices followed by the column indices. *)
Definition unique (a : list nat * list nat) : list nat :=
  foldr insert_sorted [] (a.1 ++ a.2).

Definition all_zero (row : nat * nat) : Prop := row.1 = 0 ∧ row.2 = 0.

#[export] Instance all_zero_dec row : Decision (all_zero row).
Proof. unfold all_zero. apply _. Defined.

(** One row divided by its own total. *)
Definition normalize (row : nat * nat) : Q * Q :=
  ((Qnat row.1 / Qnat (row.1 + row.2))%Q, (Qnat row.2 / Qnat (row.1 + row.2))%Q).

Definition novelty_of (row : nat * nat) : Q :=
  ((normalize row).2 - (normalize row).1)%Q.

(** [a.max()] and [np.argmax(a)] (first position of the maximum) of a
    non-empty array [x :: r]. *)
Fixpoint max_from (best : Q) (l : list Q) : Q :=
  match l with
  | [] => best
  | y :: r => max_from (if Qltb best y then y else best) r
  end.

Fixpoint argmax_from (best : Q) (besti i : nat) (l : list Q) : nat :=
  match l with
  | [] => besti
  | y :: r =>
      if Qltb best y then argmax_from y i (S i) r
      else argmax_from best besti (S i) r
  end.

Definition indices (self : t) : list nat := unique (nonzero (senses self)).

Definition stripped (self : t) : list (nat * nat) :=
  filter (λ row, ¬ all_zero row) (senses self).

Definition novelty (self : t) : list Q := novelty_of <$> stripped self.

Definition calculate (self : t) : result (Q * nat) :=
  let indices := indices self in
  let novelty := novelty self in
  match novelty with
  | [] => Raise ValueError
  | x :: r =>
      match indices !! argmax_from x 0 1 r with
      | Some s => Ok (max_from x r, s)
      | None => Raise IndexError
      end
  end.

(** The row of [senses] that holds the [k]-th retained row. *)
Definition retained_rows (m : list (nat * nat)) : list nat :=
  (filter (λ ir : nat * (nat * nat), ¬ all_zero ir.2) (imap pair m)).*1.

End Word.

(** ** class Document

    The arithmetic of [init_partition] is exact here: [alpha], the draws
    and the priors are rationals.  [Binary64] below runs the same steps on
    floats. *)

(** The category of a document: the strings ['reference'] and ['focus']. *)
Inductive origin : Type := Reference | Focus.

Module Document.

Record t : Type := mk {
  idx : nat;
  partition : list (list nat);
  topic_to_global_idx : list nat;
  words : list nat;
  category : origin
}.

(** [Document(idx, doc, category)] *)
Definition init (idx : nat) (doc : list nat) (category : origin) : t :=
  {| idx := idx; partition := []; topic_to_global_idx := [];
     words := doc; category := category |}.

Definition set_partition (p : list (list nat)) (d : t) : t :=
  {| idx := idx d; partition := p;
     topic_to_global_idx := topic_to_global_idx d;
     words := words d; category := category d |}.

(** [prior], after [prior.append(new)], for running count [N]. *)
Definition priors (alpha : Q) (N : nat) (p : list (list nat)) : list Q :=
  ((λ c : list nat, (Qnat (length c) / (Qnat N + alpha - 1))%Q) <$> p)
  ++ [(alpha / (Qnat N + alpha - 1))%Q].

(** [prior[:-1]] *)
Definition but_last {A} (l : list A) : list A := take (length l - 1) l.

(** The walk of the else branch:
    [for j, p in enumerate(prior): curr += p; if curr > table: ...; break]. *)
Fixpoint walk (prior : list Q) (j : nat) (curr table : Q) (i : nat)
    (p : list (list nat)) : result (list (list nat)) :=
  match prior with
  | [] => Ok p
  | q :: rest =>
      let curr := (curr + q)%Q in
      if Qltb table curr then
        match p !! j with
        | Some c => Ok (<[j := c ++ [i]]> p)
        | None => Raise IndexError
        end
      else walk rest (S j) curr table i p
  end.

(** The body of the loop over the words, for the word [i], the running
    count [N] (already incremented) and the draw [table]. *)
Definition place (alpha : Q) (N : nat) (table : Q) (i : nat)
    (p : list (list nat)) : result (list (list nat)) :=
  if Qeq_bool (Qnat N + alpha - 1) 0 then Raise ZeroDivisionError
  else
    let prior := priors alpha N p in
    if Qltb (Qsum (but_last prior)) table then Ok (p ++ [[i]])
    else walk prior 0 0%Q table i p.

(** [random n] is what the [n]-th call of [random.random()] returns. *)
Fixpoint place_all (alpha : Q) (random : nat → Q) (ws : list nat) (N : nat)
    (p : list (list nat)) : result (list (list nat)) :=
  match ws with
  | [] => Ok p
  | i :: rest =>
      let N := S N in
      p' ← place alpha N (random (N - 1)) i p;
      place_all alpha random rest N p'
  end.

Definition init_partition (alpha : Q) (random : nat → Q) (self : t)
    : result t :=
  p ← place_all alpha random (words self) 0 (partition self);
  Ok (set_partition p self).

End Document.

(** ** class Corpus *)

(** [foldlM f b l]: a [for] loop over [l] that an exception ends. *)
Fixpoint foldlM {A B} (f : B → A → result B) (b : B) (l : list A) : result B :=
  match l with
  | [] => Ok b
  | x :: r => b' ← f b x; foldlM f b' r
  end.

(** [[f(x) for x in l]], where [f] may raise. *)
Fixpoint mapM {A B} (f : A → result B) (l : list A) : result (list B) :=
  match l with
  | [] => Ok []
  | x :: r => y ← f x; ys ← mapM f r; Ok (y :: ys)
  end.

(** ** [Document.init_partition] in binary64

    The same method with Python's floats as they are, IEEE binary64
    numbers: [alpha] and the draws are floats, the running count and the
    sizes of the clusters are [int]s that the arithmetic converts.  The
    definitions of [Document] above carry out the same steps in exact
    arithmetic. *)

Module Binary64.

Local Open Scope float_scope.

(** An [int] that meets a float in an operation (a count is far below
    2^63). *)
Definition of_nat (n : nat) : float :=
  PrimFloat.of_uint63 (Uint63.of_Z (Z.of_nat n)).

(** [x / y]: Python raises where IEEE gives an infinity or a NaN. *)
Definition truediv (x y : float) : result float :=
  if y =? 0 then Raise ZeroDivisionError else Ok (x / y).

(** [sum(l)]: from the left, starting at 0 (the interpreters before Python
    3.12 add float by float; later ones carry a correction term). *)
Definition sum (l : list float) : float := foldl PrimFloat.add 0 l.

(** [N+alpha-1] *)
Definition denominator (alpha : float) (N : nat) : float :=
  of_nat N + alpha - 1.

(** [prior], after [prior.append(new)], for running count [N]. *)
Definition priors (alpha : float) (N : nat) (p : list (list nat))
    : result (list float) :=
  prior ← mapM (λ c : list nat,
                  truediv (of_nat (length c)) (denominator alpha N)) p;
  new ← truediv alpha (denominator alpha N);
  Ok (prior ++ [new]).

(** The walk of the else branch:
    [for j, p in enumerate(prior): curr += p; if curr > table: ...; break]. *)
Fixpoint walk (prior : list float) (j : nat) (curr table : float) (i : nat)
    (p : list (list nat)) : result (list (list nat)) :=
  match prior with
  | [] => Ok p
  | q :: rest =>
      let curr := curr + q in
      if table <? curr then
        match p !! j with
        | Some c => Ok (<[j := c ++ [i]]> p)
        | None => Raise IndexError
        end
      else walk rest (S j) curr table i p
  end.

(** The body of the loop over the words, for the word [i], the running
    count [N] (already incremented) and the draw [table]. *)
Definition place (alpha : float) (N : nat) (table : float) (i : nat)
    (p : list (list nat)) : result (list (list nat)) :=
  prior ← priors alpha N p;
  if sum (Document.but_last prior) <? table then Ok (p ++ [[i]])
  else walk prior 0 0 table i p.

(** [random n] is what the [n]-th call of [random.random()] returns. *)
Fixpoint place_all (alpha : float) (random : nat → float) (ws : list nat)
    (N : nat) (p : list (list nat)) : result (list (list nat)) :=
  match ws with
  | [] => Ok p
  | i :: rest =>
      let N := S N in
      p' ← place alpha N (random (N - 1)%nat) i p;
      place_all alpha random rest N p'
  end.

Definition init_partition (alpha : float) (random : nat → float)
    (self : Document.t) : result Document.t :=
  p ← place_all alpha random (Document.words self) 0 (Document.partition self);
  Ok (Document.set_partition p self).

End Binary64.

(** [l[start:stop]] with Python's treatment of negative and overlong bounds. *)
Definition slice_bound (len i : Z) : Z :=
  if (i <? 0)%Z then Z.max 0 (len + i) else Z.min len i.

Definition py_slice {A} (l : list A) (start stop : Z) : list A :=
  let len := Z.of_nat (length l) in
  let s := slice_bound len start in
  let e := slice_bound len stop in
  take (Z.to_nat (e - s)) (drop (Z.to_nat s) l).

(** An element of a list of sentences: a line of text before
    [preprocess], a list of tokens after it. *)
Inductive pyval : Type :=
  | VStr (s : string)
  | VList (ts : list string).

(** The store of list objects, by address. *)
Abbreviation store := (gmap nat (list pyval)).

(** The sparse matrix: the stored cells, by (row, column). *)
Abbreviation matrix := (gmap (nat * nat) Z).

Module Corpus.

Record t : Type := mk {
  floor : Z;
  total_words : Z;
  vocab_size : nat;
  output : string;
  word_counts : Counter.t;
  docs : list Document.t;
  word_to_idx : option (Dict.t nat);
  idx_to_word : list string;
  it : nat;
  sentences : list (list string);
  collocations : option matrix;
  shape : option (nat * nat)
}.

Definition with_word_counts (c : Counter.t) (self : t) : t :=
  mk (floor self) (total_words self) (vocab_size self) (output self) c
     (docs self) (word_to_idx self) (idx_to_word self) (it self)
     (sentences self) (collocations self) (shape self).

Definition with_vocabulary (d : Dict.t nat) (l : list string) (self : t) : t :=
  mk (floor self) (total_words self) (vocab_size self) (output self)
     (word_counts self) (docs self) (Some d) l (it self)
     (sentences self) (collocations self) (shape self).

Definition with_docs (ds : list Document.t) (self : t) : t :=
  mk (floor self) (total_words self) (vocab_size self) (output self)
     (word_counts self) ds (word_to_idx self) (idx_to_word self) (it self)
     (sentences self) (collocations self) (shape self).

Definition with_sentences (ss : list (list string)) (self : t) : t :=
  mk (floor self) (total_words self) (vocab_size self) (output self)
     (word_counts self) (docs self) (word_to_idx self) (idx_to_word self)
     (it self) ss (collocations self) (shape self).

Definition with_vocab_size (n : nat) (self : t) : t :=
  mk (floor self) (total_words self) n (output self)
     (word_counts self) (docs self) (word_to_idx self) (idx_to_word self)
     (it self) (sentences self) (collocations self) (shape self).

Definition with_collocations (m : matrix) (sh : nat * nat) (self : t) : t :=
  mk (floor self) (total_words self) (vocab_size self) (output self)
     (word_counts self) (docs self) (word_to_idx self) (idx_to_word self)
     (it self) (sentences self) (Some m) (Some sh).

(** What iterating over an element of the sentence list yields: the tokens
    of a token list, the characters of a string. *)
Definition items (v : pyval) : list string :=
  match v with
  | VList ts => ts
  | VStr s => (λ c, String c EmptyString) <$> list_ascii_of_string s
  end.

Definition as_str (v : pyval) : result string :=
  match v with
  | VStr s => Ok s
  | VList _ => Raise TypeError
  end.

Section Collaborators.

(** [nltk.word_tokenize] and [nltk.corpus.stopwords.words('english')]. *)
Variable word_tokenize : string → list string.
Variable english_stopwords : list string.

(** The file system: what [open(filepath, 'r')] and the iteration over the
    open file come to, for a path.  Either the lines of the file, as the
    iteration yields them, or the exception raised on the way: [OSError]
    when [open] fails, [UnicodeDecodeError] when the file opens and a line
    cannot be decoded. *)
Variable fs : string → result (list string).

(** The loop over [word_counts.most_common()[::-1]] that adds the rare
    tokens to the stopwords. *)
Definition removal_set (floor : Z) (word_counts : Counter.t) : gset string :=
  foldl (λ (stopwords : gset string) (i : string * Z),
           if decide (i.2 < floor)%Z then stopwords ∪ {[ i.1 ]} else stopwords)
        (list_to_set english_stopwords)
        (reverse (Counter.most_common word_counts)).

(** [[i for i in s.split(' ') if i not in stopwords]] *)
Definition keep_tokens (stopwords : gset string) (s : string) : list string :=
  filter (λ i, i ∉ stopwords) (Text.split Text.space s).

(** [for i, s in enumerate(sentences): sentences[i] = ...], on the
    contents [cur] of the list object, from position [i], for at most [n]
    more positions. *)
Fixpoint filter_in_place (stopwords : gset string) (n i : nat)
    (cur : list pyval) : result (list pyval) :=
  match n with
  | 0 => Ok cur
  | S n' =>
      match cur !! i with
      | None => Ok cur
      | Some (VStr s) =>
          filter_in_place stopwords n' (S i)
            (<[i := VList (keep_tokens stopwords s)]> cur)
      | Some (VList _) => Raise AttributeError
      end
  end.

Definition py_len (v : pyval) : nat :=
  match v with
  | VList ts => length ts
  | VStr s => String.length s
  end.

(** [preprocess(self, sentences)]: [sentences] is the address of the list
    object passed in; the result carries the address of the list returned. *)
Definition preprocess (self : t) (h : store) (sentences : nat)
    : result (t * store * nat) :=
  match h !! sentences with
  | None => Raise TypeError
  | Some elems =>
      tokens ← mapM (λ i, s ← as_str i; Ok (word_tokenize s)) elems;
      let words := concat tokens in
      let word_counts := Counter.of_list words in
      let stopwords := removal_set (floor self) word_counts in
      elems' ← filter_in_place stopwords (length elems) 0 elems;
      let h' := <[sentences := elems']> h in
      let self' :=
        with_word_counts
          (Counter.iadd (Corpus.word_counts self)
             (Counter.of_list (concat (items <$> elems')))) self in
      let ret := fresh (dom h') in
      Ok (self', <[ret := filter (λ i, 0 < py_len i) elems']> h', ret)
  end.

(** [get_documents(self, filepath, origin)].  The list built by the
    comprehension is a new object that nothing else refers to: it is the
    only object of the store in which [preprocess] runs. *)
Definition get_documents (self : t) (filepath : string) (origin : origin)
    : result (t * list (list string)) :=
  match fs filepath with
  | Raise e => Raise e
  | Ok f =>
      let h : store := {[ 0 := VStr <$> (Text.strip <$> f) ]} in
      '(self, h', ret) ← preprocess self h 0;
      let sentences := items <$> default [] (h' !! ret) in
      let word_to_idx := Dict.enumerate (Dict.keys (word_counts self)) in
      let self := with_vocabulary word_to_idx (Dict.keys word_to_idx) self in
      docs ← foldlM (λ docs (ns : nat * list string),
                s ← mapM (λ i, match Dict.get word_to_idx i with
                                | Some o => Ok o
                                | None => Raise KeyError
                                end) ns.2;
                Ok (docs ++ [Document.init ns.1 s origin]))
              (docs self) (imap pair sentences);
      Ok (with_docs docs self, sentences)
  end.

(** One increment [cooccurences[a, b] += 1] of a matrix of shape [(n, n)]. *)
Definition bump (n a b : nat) (m : matrix) : result matrix :=
  if decide (a < n ∧ b < n)
  then Ok (<[(a, b) := (default 0 (m !! (a, b)) + 1)%Z]> m)
  else Raise IndexError.

(** The windowing pass of [collocations]: the loop over the window of the
    word [k] (whose id is [b]), the body of the loop over the positions of a
    sentence [i], and the loop over the sentence. *)
Definition count_window (word_to_idx : Dict.t nat) (n : nat) (k : string)
    (b : nat) (cooccurences : matrix) (occurences : list string)
    : result matrix :=
  foldlM (λ m l,
      if decide (l ≠ k) then
        match Dict.get word_to_idx l with
        | Some a => bump n a b m
        | None => Ok m
        end
      else Ok m) cooccurences occurences.

Definition count_position (word_to_idx : Dict.t nat) (n : nat)
    (window_size : Z) (i : list string) (cooccurences : matrix)
    (jk : nat * string) : result matrix :=
  let j := Z.of_nat jk.1 in
  let k := jk.2 in
  match Dict.get word_to_idx k with
  | None => Ok cooccurences
  | Some b =>
      let window_start := Z.max 0 (j - window_size `div` 2) in
      let window_end :=
        Z.min (Z.of_nat (length i) - 1) (j + window_size `div` 2) in
      let occurences := py_slice i window_start window_end in
      count_window word_to_idx n k b cooccurences occurences
  end.

Definition count_sentence (word_to_idx : Dict.t nat) (n : nat)
    (window_size : Z) (cooccurences : matrix) (i : list string)
    : result matrix :=
  foldlM (count_position word_to_idx n window_size i) cooccurences
    (imap pair i).

Definition count_cooccurences (word_to_idx : option (Dict.t nat)) (n : nat)
    (corpus : list (list string)) (window_size : Z) : result matrix :=
  foldlM (λ m i,
      match word_to_idx with
      | Some d => count_sentence d n window_size m i
      | None => if decide (i = []) then Ok m else Raise TypeError
      end) ∅ corpus.

Section PPMI.

(** The value that the PPMI loop stores for a cell, from the cell's
    frequency, the total of the matrix and the counts of the two words;
    [V] is the type of the numbers it computes with. *)
Context {V : Type}.
Variable ppmi_value : Z → Z → Z → Z → V.

(** [np.sum(cooccurences)] *)
Definition matrix_sum (m : matrix) : Z :=
  map_fold (λ _ v acc, (acc + v)%Z) 0%Z m.

(** The cells that [np.nonzero(cooccurences)] lists. *)
Definition nonzero (m : matrix) : list ((nat * nat) * Z) :=
  filter (λ kv : (nat * nat) * Z, kv.2 ≠ 0%Z) (map_to_list m).

Definition compute_ppmi (self : t) (cooccurences : matrix)
    : result (gmap (nat * nat) V) :=
  let total := matrix_sum cooccurences in
  foldlM (λ (ppmi : gmap (nat * nat) V) (c : (nat * nat) * Z),
      let '(i, j) := c.1 in
      match idx_to_word self !! i with
      | None => Raise IndexError
      | Some index_i =>
          match idx_to_word self !! j with
          | None => Raise IndexError
          | Some index_j =>
              let frequency := c.2 in
              Ok (<[(i, j) := ppmi_value frequency total
                                (Counter.get (word_counts self) index_i)
                                (Counter.get (word_counts self) index_j)]> ppmi)
          end
      end) ∅ (nonzero cooccurences).

(** The local variables [cooccurences] and [ppmi] at the end of
    [collocations]. *)
Definition collocations_locals (self : t) (corpus : list (list string))
    (window_size : Z) : result (matrix * gmap (nat * nat) V) :=
  cooccurences ← count_cooccurences (word_to_idx self) (vocab_size self)
                   corpus window_size;
  ppmi ← compute_ppmi self cooccurences;
  Ok (cooccurences, ppmi).

(** [collocations(self, corpus, window_size)]: the method returns nothing;
    its effect is the new state of [self]. *)
Definition run_collocations (self : t) (corpus : list (list string))
    (window_size : Z) : result t :=
  '(cooccurences, ppmi) ← collocations_locals self corpus window_size;
  Ok (with_collocations cooccurences (vocab_size self, vocab_size self) self).

(** [Corpus(reference, output, focus, floor, window_size)] *)
Definition empty (floor : Z) (output : string) : t :=
  {| floor := floor + 1; total_words := 0; vocab_size := 0;
     output := output; word_counts := []; docs := [];
     word_to_idx := None; idx_to_word := []; it := 0; sentences := [];
     collocations := None; shape := None |}.

(** The state of [self] when [__init__] reaches the assignment of
    [vocab_size]: after the reference corpus and, if one is given, the focus
    corpus. *)
Definition load (reference output : string) (focus : option string)
    (floor : Z) : result t :=
  let self := empty floor output in
  '(self, s) ← get_documents self reference Reference;
  let self := with_sentences s self in
  match focus with
  | Some f =>
      if decide (f = EmptyString) then Ok self
      else
        '(self, s') ← get_documents self f Focus;
        Ok (with_sentences (sentences self ++ s') self)
  | None => Ok self
  end.

Definition init (reference output : string) (focus : option string)
    (floor window_size : Z) : result t :=
  self ← load reference output focus floor;
  let self := with_vocab_size (length (word_counts self)) self in
  run_collocations self (sentences self) window_size.

End PPMI.
End Collaborators.

End Corpus.

(** ** The PPMI of one cell, in binary64 *)

Module PPMI.

Local Open Scope float_scope.

(** An [int] as a float; every count below 2^53 is one exactly. *)
Definition of_Z (z : Z) : float :=
  if (z <? 0)%Z then - PrimFloat.of_uint63 (Uint63.of_Z (- z))
  else PrimFloat.of_uint63 (Uint63.of_Z z).

Section Log.

(** [math.log(x, 2)], where it returns: for [x > 0]. *)
Variable log2 : float → float.

Definition joint_probability (frequency total : Z) : float :=
  of_Z frequency / of_Z total.

(** [(frequency * self.word_counts[index]) / total] *)
Definition probability (frequency count total : Z) : float :=
  of_Z frequency * of_Z count / of_Z total.

Definition denominator (frequency total count_i count_j : Z) : float :=
  probability frequency count_i total * probability frequency count_j total.

(** The argument of the logarithm. *)
Definition ratio (frequency total count_i count_j : Z) : float :=
  joint_probability frequency total
  / (probability frequency count_i total * probability frequency count_j total).

Definition pmi (frequency total count_i count_j : Z) : float :=
  log2 (ratio frequency total count_i count_j).

(** [max(0, pmi)]: [pmi] when [pmi > 0], and 0 otherwise, also for a NaN. *)
Definition clip (pmi : float) : float := if 0 <? pmi then pmi else 0.

(** The value stored in [ppmi[i, j]]. *)
Definition value (frequency total count_i count_j : Z) : float :=
  if 0 <? denominator frequency total count_i count_j
  then clip (pmi frequency total count_i count_j)
  else 0.

(** Whether the cell stays clear of the [ValueError] of [math.log]: the
    logarithm is taken only when the denominator is positive, and then its
    argument has to be positive. *)
Definition in_domain (frequency total count_i count_j : Z) : bool :=
  if 0 <? denominator frequency total count_i count_j
  then 0 <? ratio frequency total count_i count_j
  else true.

End Log.

(** [ppmi[i, j]]: a cell that is not stored reads as 0. *)
Definition read (ppmi : gmap (nat * nat) float) (ij : nat * nat) : float :=
  default 0 (ppmi !! ij).

End PPMI.

(** ** Example collaborators

    A tokenizer that cuts a line at blanks and yields no empty token, which
    is what [nltk.word_tokenize] does on lines of lower-case words and
    blanks; a few of NLTK's English stopwords; a file system with four
    files. *)

Module Examples.

Definition word_tokenize (s : string) : list string :=
  filter (λ w, w ≠ EmptyString) (Text.split Text.space s).

Definition english_stopwords : list string :=
  ["i"; "me"; "my"; "the"; "a"; "an"; "and"; "of"; "to"; "in"]%string.

Definition newline : string := String (Ascii.ascii_of_nat 10) EmptyString.

Definition line (s : string) : string := (s ++ newline)%string.

Definition fs (path : string) : result (list string) :=
  if decide (path = "reference.txt"%string)
  then Ok [line "cat sat mat"; line "dog sat log"]
  else if decide (path = "focus.txt"%string)
  then Ok [line "cat sat log"; line "dog sat mat"; line "owl sat"]
  else if decide (path = "empty.txt"%string)
  then Ok []
  else if decide (path = "blank.txt"%string)
  then Ok [line "cat cat"; newline]
  else if decide (path = "latin1.txt"%string)
  then Raise UnicodeDecodeError
  else Raise OSError.

(** A stand-in for the numbers of the PPMI loop, to run [collocations]. *)
Definition ppmi_value (frequency total count_i count_j : Z) : Z * Z * Z * Z :=
  (frequency, total, count_i, count_j).

(** A stand-in for [math.log(x, 2)] that is right on the powers of two,
    where the logarithm is the exponent: [frshiftexp] splits [x] into a
    mantissa in [0.5, 1) and an exponent. *)
Definition log2 (x : float) : float :=
  let (m, e) := frshiftexp x in
  if (m =? 0.5)%float then PPMI.of_Z (Uint63.to_Z e - FloatOps.shift - 1) else nan.

End Examples.

(** * Properties *)

(** ** Rational comparisons *)

Lemma Qltb_lt (x y : Q) : Qltb x y = true ↔ (x < y)%Q.
Proof.
  unfold Qltb. rewrite negb_true_iff, <- not_true_iff_false, Qle_bool_iff.
  split; [apply Qnot_le_lt | apply Qlt_not_le].
Qed.

Lemma Qltb_ge (x y : Q) : Qltb x y = false ↔ (y <= x)%Q.
Proof.
  unfold Qltb. rewrite negb_false_iff. apply Qle_bool_iff.
Qed.

(** ** Word.calculate *)

Section WordCalculate.

Local Open Scope Q_scope.

Lemma max_from_ge (l : list Q) : ∀ best,
  best <= Word.max_from best l ∧ Forall (λ y, y <= Word.max_from best l) l.
Proof.
  induction l as [|y r IH]; intros best; simpl.
  - split; [apply Qle_refl | constructor].
  - destruct (Qltb best y) eqn:E.
    + destruct (IH y) as [H1 H2]. apply Qltb_lt in E.
      split; [| constructor; assumption].
      eapply Qle_trans; [apply Qlt_le_weak, E | exact H1].
    + destruct (IH best) as [H1 H2]. apply Qltb_ge in E.
      split; [exact H1 | constructor; [| exact H2]].
      eapply Qle_trans; [exact E | exact H1].
Qed.

Lemma argmax_from_lookup (l : list Q) : ∀ pre best besti,
  pre !! besti = Some best →
  (pre ++ l) !! Word.argmax_from best besti (length pre) l
  = Some (Word.max_from best l).
Proof.
  induction l as [|y r IH]; intros pre best besti Hb; simpl.
  - rewrite app_nil_r. exact Hb.
  - replace (pre ++ y :: r) with ((pre ++ [y]) ++ r)
      by (rewrite <- app_assoc; reflexivity).
    replace (S (length pre)) with (length (pre ++ [y]))
      by (rewrite length_app; simpl; lia).
    destruct (Qltb best y).
    + apply IH. rewrite lookup_app_r by lia.
      replace (length pre - length pre)%nat with 0%nat by lia. reflexivity.
    + apply IH. rewrite lookup_app_l; [exact Hb |].
      eapply lookup_lt_Some; exact Hb.
Qed.

(** The score that [calculate] reports is the largest novelty of a retained
    row, and it is the novelty of the retained row whose position among the
    retained rows is the [k] at which [calculate] reads [indices]. *)
Lemma calculate_score (self : Word.t) (m : Q) (s : nat) :
  Word.calculate self = Ok (m, s) →
  Forall (λ y, y <= m) (Word.novelty self) ∧
  ∃ k, Word.novelty self !! k = Some m ∧ Word.indices self !! k = Some s.
Proof.
  unfold Word.calculate. intros H.
  destruct (Word.novelty self) as [|x r] eqn:E; [discriminate |].
  destruct (_ !! _) as [s'|] eqn:Hs in H; [| discriminate].
  injection H as <- <-.
  destruct (max_from_ge r x) as [H1 H2].
  split; [constructor; assumption |].
  exists (Word.argmax_from x 0 1 r). split; [| exact Hs].
  apply (argmax_from_lookup r [x] x 0). reflexivity.
Qed.

(** C3 (the code departs from the claim): a word seen only in sense 3.  The
    score is the novelty of row 3, -1/3, but the sense reported with it is
    0, an all-zero row: [indices] mixes the column indices 0 and 1 of the
    nonzero cells with their row indices, so it reads [0; 1; 3] where the
    retained rows are [3]. *)
Theorem C3_calculate_reports_a_sense_that_is_not_the_row :
  Word.calculate (Word.mk "w" 0 [(0, 0); (0, 0); (0, 0); (2, 1)]%nat)
  = Ok (-3 # 9, 0%nat) ∧
  -3 # 9 == -(1 # 3) ∧
  Word.indices (Word.mk "w" 0 [(0, 0); (0, 0); (0, 0); (2, 1)]%nat)
  = [0; 1; 3]%nat ∧
  Word.retained_rows [(0, 0); (0, 0); (0, 0); (2, 1)]%nat = [3%nat].
Proof. repeat split. Qed.

End WordCalculate.

(** ** Document.init_partition

    The lemmas of this section are about the exact arithmetic of
    [Document]: the priors of a step add up to 1 and a draw from [0, 1)
    meets a cluster unless it is the boundary itself.  In binary64 the sums
    are rounded; what survives the rounding is proved on [Binary64]
    below. *)

Section CRP.

Local Open Scope Q_scope.

Lemma Qnat_ge_1 (N : nat) : (1 <= N)%nat → 1 <= Qnat N.
Proof.
  intros H. unfold Qnat. change 1 with (inject_Z 1).
  rewrite <- Zle_Qle. lia.
Qed.

Lemma Qnat_nonneg (n : nat) : 0 <= Qnat n.
Proof.
  unfold Qnat. change 0 with (inject_Z 0). rewrite <- Zle_Qle. lia.
Qed.

Lemma crp_denominator_pos (alpha : Q) (N : nat) :
  0 < alpha → (1 <= N)%nat → 0 < Qnat N + alpha - 1.
Proof. intros Ha HN. pose proof (Qnat_ge_1 N HN). Lqa.lra. Qed.

Lemma foldl_Qplus_ge (l : list Q) : ∀ acc,
  Forall (λ q, 0 <= q) l → acc <= foldl Qplus acc l.
Proof.
  induction l as [|q r IH]; intros acc Hl; simpl; [apply Qle_refl |].
  inversion Hl; subst.
  eapply Qle_trans; [| apply IH; assumption]. Lqa.lra.
Qed.

Lemma but_last_snoc {A} (l : list A) (x : A) : Document.but_last (l ++ [x]) = l.
Proof.
  unfold Document.but_last. rewrite length_app. simpl.
  replace (length l + 1 - 1)%nat with (length l) by lia.
  apply take_app_length.
Qed.

Definition existing_priors (alpha : Q) (N : nat) (p : list (list nat)) : list Q :=
  (λ c : list nat, Qnat (length c) / (Qnat N + alpha - 1)) <$> p.

Lemma existing_priors_nonneg alpha N p :
  0 < alpha → (1 <= N)%nat → Forall (λ q, 0 <= q) (existing_priors alpha N p).
Proof.
  intros Ha HN. unfold existing_priors. apply Forall_fmap, Forall_forall.
  intros c _. simpl. apply Qle_shift_div_l.
  - apply crp_denominator_pos; assumption.
  - pose proof (Qnat_nonneg (length c)). Lqa.lra.
Qed.

Lemma new_prior_pos alpha N :
  0 < alpha → (1 <= N)%nat → 0 < alpha / (Qnat N + alpha - 1).
Proof.
  intros Ha HN. apply Qlt_shift_div_l.
  - apply crp_denominator_pos; assumption.
  - Lqa.lra.
Qed.

(** On the boundary the walk passes every cluster and stops at the entry of
    the new cluster, whose position is no cluster of the partition. *)
Lemma walk_boundary (new table : Q) (i : nat) (p : list (list nat))
    (ex : list Q) : ∀ j curr,
  Forall (λ q, 0 <= q) ex → 0 < new →
  table == foldl Qplus curr ex →
  (j + length ex)%nat = length p →
  Document.walk (ex ++ [new]) j curr table i p = Raise IndexError.
Proof.
  induction ex as [|q r IH]; intros j curr Hex Hnew Ht Hlen; simpl in *.
  - assert (E : Qltb table (curr + new) = true) by (apply Qltb_lt; Lqa.lra).
    rewrite E. rewrite lookup_ge_None_2; [reflexivity | lia].
  - inversion Hex; subst.
    assert (E : Qltb table (curr + q) = false).
    { apply Qltb_ge. rewrite Ht. apply foldl_Qplus_ge. assumption. }
    rewrite E. apply IH; [assumption | assumption | exact Ht | lia].
Qed.

(** Below the boundary the walk stops at a cluster of the partition. *)
Lemma walk_below (table : Q) (i : nat) (p : list (list nat))
    (ex rest : list Q) : ∀ j curr,
  curr <= table → table < foldl Qplus curr ex →
  (j + length ex)%nat = length p →
  ∃ k c, p !! k = Some c ∧
    Document.walk (ex ++ rest) j curr table i p = Ok (<[k := c ++ [i]]> p).
Proof.
  induction ex as [|q r IH]; intros j curr Hc Ht Hlen; simpl in *.
  - Lqa.lra.
  - destruct (Qltb table (curr + q)) eqn:E.
    + destruct (lookup_lt_is_Some_2 p j) as [c Hc']; [lia |].
      exists j, c. rewrite Hc'. auto.
    + apply Qltb_ge in E. apply IH; [exact E | exact Ht | lia].
Qed.

(** Whenever the walk returns, it has put the word into a cluster. *)
Lemma walk_ok (new table : Q) (i : nat) (p p' : list (list nat))
    (ex : list Q) : ∀ j curr,
  0 < new → table <= foldl Qplus curr ex →
  Document.walk (ex ++ [new]) j curr table i p = Ok p' →
  ∃ k c, p !! k = Some c ∧ p' = <[k := c ++ [i]]> p.
Proof.
  induction ex as [|q r IH]; intros j curr Hnew Ht H; simpl in *.
  - assert (E : Qltb table (curr + new) = true) by (apply Qltb_lt; Lqa.lra).
    rewrite E in H. destruct (p !! j) as [c|] eqn:Hc; [| discriminate].
    injection H as <-. eauto.
  - destruct (Qltb table (curr + q)) eqn:E.
    + destruct (p !! j) as [c|] eqn:Hc; [| discriminate].
      injection H as <-. eauto.
    + eapply IH; eauto.
Qed.

Lemma concat_insert_snoc (p : list (list nat)) (k : nat) (c : list nat) (i : nat) :
  p !! k = Some c → concat (<[k := c ++ [i]]> p) ≡ₚ concat p ++ [i].
Proof.
  intros Hk.
  rewrite insert_take_drop by (eapply lookup_lt_Some; exact Hk).
  rewrite <- (take_drop_middle p k c Hk) at 3.
  rewrite !concat_app, !concat_cons.
  generalize (concat (take k p)) (concat (drop (S k) p)). intros u v.
  rewrite <- !app_assoc. apply Permutation_app_head, Permutation_app_head.
  apply Permutation_app_comm.
Qed.

Lemma place_unfold alpha N table i p :
  0 < alpha → (1 <= N)%nat →
  Document.place alpha N table i p =
  if Qltb (Qsum (existing_priors alpha N p)) table then Ok (p ++ [[i]])
  else Document.walk (existing_priors alpha N p ++ [alpha / (Qnat N + alpha - 1)])
         0 0 table i p.
Proof.
  intros Ha HN. unfold Document.place.
  assert (E : Qeq_bool (Qnat N + alpha - 1) 0 = false).
  { apply not_true_iff_false. intros E. apply Qeq_bool_iff in E.
    pose proof (crp_denominator_pos alpha N Ha HN). Lqa.lra. }
  rewrite E. unfold Document.priors. fold (existing_priors alpha N p).
  rewrite but_last_snoc. reflexivity.
Qed.

(** A draw equal to the sum of the priors of the existing clusters makes
    the step raise [IndexError]. *)
Lemma place_raises_on_boundary alpha N table i p :
  0 < alpha → (1 <= N)%nat →
  table == Qsum (existing_priors alpha N p) →
  Document.place alpha N table i p = Raise IndexError.
Proof.
  intros Ha HN Ht. rewrite place_unfold by assumption.
  assert (E : Qltb (Qsum (existing_priors alpha N p)) table = false).
  { apply Qltb_ge. rewrite Ht. apply Qle_refl. }
  rewrite E. apply walk_boundary.
  - apply existing_priors_nonneg; assumption.
  - apply new_prior_pos; assumption.
  - exact Ht.
  - unfold existing_priors. rewrite length_fmap. reflexivity.
Qed.

(** In exact arithmetic any other draw from [0, 1) places the word. *)
Lemma place_ok_off_boundary alpha N table i p :
  0 < alpha → (1 <= N)%nat → 0 <= table →
  ¬ table == Qsum (existing_priors alpha N p) →
  ∃ p', Document.place alpha N table i p = Ok p'.
Proof.
  intros Ha HN H0 Hne. rewrite place_unfold by assumption.
  destruct (Qltb _ table) eqn:E; [eauto |].
  apply Qltb_ge in E.
  destruct (walk_below table i p (existing_priors alpha N p)
              [alpha / (Qnat N + alpha - 1)] 0%nat 0) as (k & c & _ & ->).
  - exact H0.
  - apply Qle_lt_or_eq in E. destruct E as [E|E]; [exact E | contradiction].
  - unfold existing_priors. rewrite length_fmap. reflexivity.
  - eauto.
Qed.

(** A step that returns has added the word to exactly one cluster, new or
    existing, and has left the other occurrences where they were. *)
Lemma place_ok alpha N table i p p' :
  0 < alpha → (1 <= N)%nat →
  Document.place alpha N table i p = Ok p' →
  concat p' ≡ₚ concat p ++ [i] ∧
  (Forall (λ c, c ≠ []) p → Forall (λ c, c ≠ []) p').
Proof.
  intros Ha HN. rewrite place_unfold by assumption.
  destruct (Qltb _ table) eqn:E.
  - intros H. injection H as <-. split.
    + rewrite concat_app. simpl. reflexivity.
    + intros Hp. apply Forall_app. split; [exact Hp |].
      constructor; [discriminate | constructor].
  - intros H. apply Qltb_ge in E.
    apply walk_ok in H as (k & c & Hk & ->).
    + split; [apply concat_insert_snoc; exact Hk |].
      intros Hp. apply Forall_insert; [exact Hp |].
      intros Hnil. apply app_eq_nil in Hnil as [_ Hnil]. discriminate.
    + apply new_prior_pos; assumption.
    + exact E.
Qed.

Lemma place_all_ok alpha random : ∀ ws N p p',
  0 < alpha →
  Document.place_all alpha random ws N p = Ok p' →
  concat p' ≡ₚ concat p ++ ws ∧
  (Forall (λ c, c ≠ []) p → Forall (λ c, c ≠ []) p').
Proof.
  induction ws as [|i rest IH]; intros N p p' Ha H; simpl in H.
  - injection H as <-. rewrite app_nil_r. auto.
  - destruct (Document.place alpha (S N) _ i p) as [p1|e] eqn:E;
      [| discriminate].
    simpl in H. apply place_ok in E as [E1 E2]; [| assumption | lia].
    apply IH in H as [H1 H2]; [| assumption]. split.
    + rewrite H1, E1, <- app_assoc. reflexivity.
    + auto.
Qed.

(** In exact arithmetic, when [init_partition] returns, the clusters hold
    every occurrence of the document exactly once, and no cluster is
    empty. *)
Lemma init_partition_ok alpha random idx doc category d :
  0 < alpha →
  Document.init_partition alpha random (Document.init idx doc category) = Ok d →
  Document.words d = doc ∧
  concat (Document.partition d) ≡ₚ doc ∧
  Forall (λ c, c ≠ []) (Document.partition d).
Proof.
  intros Ha. unfold Document.init_partition. simpl.
  destruct (Document.place_all _ _ _ _ _) as [p|e] eqn:E; [| discriminate].
  simpl. intros H. injection H as <-. simpl.
  apply place_all_ok in E as [E1 E2]; [| assumption].
  split; [reflexivity |]. split; [exact E1 | apply E2; constructor].
Qed.

(** C1 (the code departs from the claim): the first word of a document and
    the draw 0.0, a value of [random.random()], reach the otherwise branch
    with no cluster to receive the word; [init_partition] raises
    [IndexError] and places nothing, in exact arithmetic and in binary64
    alike.  In exact arithmetic the same holds at every step for a draw
    equal to the summed priors ([place_raises_on_boundary]). *)
Theorem C1_init_partition_raises_at_boundary_draw :
  Document.init_partition 1 (λ _, 0) (Document.init 0 [7%nat] Reference)
  = Raise IndexError ∧
  Binary64.init_partition 1%float (λ _, 0%float)
    (Document.init 0 [7%nat] Reference)
  = Raise IndexError.
Proof. split; [reflexivity | vm_compute; reflexivity]. Qed.

End CRP.

(** ** Dictionaries and counters *)

Section DictFacts.

Context {V : Type}.
Implicit Types (d : Dict.t V) (w : string) (x : V).

Lemma dict_get_None d w : Dict.get d w = None ↔ w ∉ Dict.keys d.
Proof.
  induction d as [|[k v] r IH]; simpl.
  - split; [intros _; apply not_elem_of_nil | reflexivity].
  - rewrite not_elem_of_cons. destruct (String.eqb_spec k w) as [->|Hne].
    + split; [discriminate | intros [H _]; contradiction].
    + rewrite IH. split; [intros H; split; [congruence | exact H] | tauto].
Qed.

Lemma dict_get_Some_elem d w x : Dict.get d w = Some x → (w, x) ∈ d.
Proof.
  induction d as [|[k v] r IH]; simpl; [discriminate |].
  destruct (String.eqb_spec k w) as [->|Hne].
  - intros [= ->]. apply elem_of_cons. left. reflexivity.
  - intros H. apply elem_of_cons. right. auto.
Qed.

Lemma dict_elem_get d w x :
  NoDup (Dict.keys d) → (w, x) ∈ d → Dict.get d w = Some x.
Proof.
  induction d as [|[k v] r IH]; simpl; intros Hnd Hin.
  - apply elem_of_nil in Hin. contradiction.
  - apply NoDup_cons in Hnd as [Hk Hnd].
    apply elem_of_cons in Hin as [[= -> ->]|Hin].
    + rewrite String.eqb_refl. reflexivity.
    + destruct (String.eqb_spec k w) as [->|Hne]; [| auto].
      exfalso. apply Hk. unfold Dict.keys.
      apply list_elem_of_fmap. exists (w, x). auto.
Qed.

Lemma dict_get_is_Some d w : w ∈ Dict.keys d → is_Some (Dict.get d w).
Proof.
  intros H. destruct (Dict.get d w) eqn:E; [eauto |].
  apply dict_get_None in E. contradiction.
Qed.

Lemma dict_set_fresh d w x : w ∉ Dict.keys d → Dict.set w x d = d ++ [(w, x)].
Proof.
  induction d as [|[k v] r IH]; simpl; [reflexivity |].
  rewrite not_elem_of_cons. intros [Hne Hr].
  destruct (String.eqb_spec k w) as [->|_]; [contradiction |].
  rewrite IH by exact Hr. reflexivity.
Qed.

Lemma dict_set_keys_old d w x : w ∈ Dict.keys d → Dict.keys (Dict.set w x d) = Dict.keys d.
Proof.
  induction d as [|[k v] r IH]; simpl; intros H.
  - apply elem_of_nil in H. contradiction.
  - destruct (String.eqb_spec k w) as [->|Hne]; [reflexivity |].
    apply elem_of_cons in H as [->|H]; [contradiction |].
    simpl. f_equal. apply IH. exact H.
Qed.

Lemma dict_set_keys d w x :
  Dict.keys (Dict.set w x d) =
  if decide (w ∈ Dict.keys d) then Dict.keys d else Dict.keys d ++ [w].
Proof.
  destruct (decide _) as [H|H].
  - apply dict_set_keys_old. exact H.
  - rewrite dict_set_fresh by exact H. unfold Dict.keys.
    rewrite fmap_app. reflexivity.
Qed.

Lemma dict_set_values (P : V → Prop) d w x :
  Forall (λ kv, P kv.2) d → P x → Forall (λ kv, P kv.2) (Dict.set w x d).
Proof.
  intros Hd Hx. induction d as [|[k v] r IH]; simpl.
  - constructor; [exact Hx | constructor].
  - inversion Hd; subst. destruct (String.eqb k w); constructor; auto.
Qed.

Lemma dict_get_set_eq d w x : Dict.get (Dict.set w x d) w = Some x.
Proof.
  induction d as [|[k v] r IH]; simpl.
  - rewrite String.eqb_refl. reflexivity.
  - destruct (String.eqb k w) eqn:E; simpl; rewrite E; auto.
Qed.

Lemma dict_get_set_ne d w w' x :
  w ≠ w' → Dict.get (Dict.set w x d) w' = Dict.get d w'.
Proof.
  intros Hne. induction d as [|[k v] r IH]; simpl.
  - destruct (String.eqb_spec w w'); [contradiction | reflexivity].
  - destruct (String.eqb_spec k w) as [->|Hkw]; simpl.
    + destruct (String.eqb_spec w w'); [contradiction | reflexivity].
    + destruct (String.eqb k w'); auto.
Qed.

End DictFacts.

Lemma keys_imap_enumerate (ks : list string) :
  Dict.keys (imap (λ o i, (i, o)) ks) = ks.
Proof.
  unfold Dict.keys. induction ks as [|k ks IH] using rev_ind; [reflexivity |].
  rewrite imap_app, fmap_app, IH. reflexivity.
Qed.

(** The dictionary of a comprehension over distinct keys, in closed form. *)
Lemma dict_enumerate_imap (ks : list string) :
  NoDup ks → Dict.enumerate ks = imap (λ o i, (i, o)) ks.
Proof.
  unfold Dict.enumerate. induction ks as [|k ks IH] using rev_ind; intros Hnd.
  - reflexivity.
  - apply NoDup_app in Hnd as (Hks & Hk & _).
    rewrite !imap_app, foldl_app. simpl. rewrite IH by exact Hks.
    rewrite Nat.add_0_r. apply dict_set_fresh.
    rewrite keys_imap_enumerate.
    intros Hin. apply (Hk k Hin). apply list_elem_of_singleton. reflexivity.
Qed.

Lemma dict_enumerate_keys (ks : list string) :
  NoDup ks → Dict.keys (Dict.enumerate ks) = ks.
Proof.
  intros H. rewrite dict_enumerate_imap by exact H. apply keys_imap_enumerate.
Qed.

(** A word has the id [k] exactly when it is the [k]-th key. *)
Lemma dict_enumerate_get (ks : list string) (w : string) (k : nat) :
  NoDup ks → Dict.get (Dict.enumerate ks) w = Some k ↔ ks !! k = Some w.
Proof.
  intros Hnd. rewrite dict_enumerate_imap by exact Hnd. split.
  - intros H. apply dict_get_Some_elem in H.
    apply elem_of_lookup_imap in H as (i & y & [= -> ->] & Hy). exact Hy.
  - intros H. apply dict_elem_get.
    + rewrite keys_imap_enumerate. exact Hnd.
    + apply elem_of_lookup_imap. eauto.
Qed.

Section CounterFacts.

Local Open Scope Z_scope.

(** A counter as the program builds it: distinct keys, positive tallies. *)
Definition counter_wf (c : Counter.t) : Prop :=
  NoDup (Dict.keys c) ∧ Forall (λ kv : string * Z, 0 < kv.2) c.

(** How often [w] occurs in [l]. *)
Definition occurrences (w : string) (l : list string) : Z :=
  Z.of_nat (length (filter (λ x, x = w) l)).

Lemma counter_wf_nil : counter_wf [].
Proof. split; constructor. Qed.

Lemma counter_get_nonneg (c : Counter.t) (w : string) :
  Forall (λ kv : string * Z, 0 < kv.2) c → 0 <= Counter.get c w.
Proof.
  intros Hc. unfold Counter.get. destruct (Dict.get c w) as [v|] eqn:E; simpl.
  - apply dict_get_Some_elem in E. rewrite Forall_forall in Hc.
    specialize (Hc _ E). simpl in Hc. lia.
  - lia.
Qed.

Lemma counter_incr_keys (w : string) (n : Z) (c : Counter.t) :
  Dict.keys (Counter.incr w n c) =
  if decide (w ∈ Dict.keys c) then Dict.keys c else Dict.keys c ++ [w].
Proof. apply dict_set_keys. Qed.

Lemma counter_incr_wf (w : string) (n : Z) (c : Counter.t) :
  counter_wf c → 0 < n → counter_wf (Counter.incr w n c).
Proof.
  intros [Hnd Hpos] Hn. split.
  - rewrite counter_incr_keys. destruct (decide _) as [H|H]; [exact Hnd |].
    apply NoDup_app. split; [exact Hnd |]. split; [| apply NoDup_singleton].
    intros x Hx Hx'. apply list_elem_of_singleton in Hx'. subst. contradiction.
  - unfold Counter.incr. apply (dict_set_values (λ v, 0 < v)); [exact Hpos |].
    pose proof (counter_get_nonneg c w Hpos). lia.
Qed.

Lemma counter_get_incr (w w' : string) (n : Z) (c : Counter.t) :
  Counter.get (Counter.incr w n c) w' =
  if decide (w = w') then Counter.get c w' + n else Counter.get c w'.
Proof.
  unfold Counter.incr. destruct (decide (w = w')) as [<-|Hne].
  - unfold Counter.get at 1. rewrite dict_get_set_eq. reflexivity.
  - unfold Counter.get at 1. rewrite dict_get_set_ne by exact Hne. reflexivity.
Qed.

Lemma counter_keep_positive_id (c : Counter.t) :
  Forall (λ kv : string * Z, 0 < kv.2) c → Counter.keep_positive c = c.
Proof.
  intros H. unfold Counter.keep_positive.
  induction H as [|kv r Hkv Hr IH]; [reflexivity |].
  rewrite filter_cons_True by exact Hkv. rewrite IH. reflexivity.
Qed.

(** Adding tallies keeps the keys that are there, in place, and appends the
    new ones. *)
Lemma counter_add_all (other : list (string * Z)) : ∀ c : Counter.t,
  counter_wf c → Forall (λ kv : string * Z, 0 < kv.2) other →
  let r := foldl (λ acc (kv : string * Z), Counter.incr kv.1 kv.2 acc) c other in
  counter_wf r ∧
  Dict.keys c `prefix_of` Dict.keys r ∧
  ∀ w, w ∈ Dict.keys r ↔ w ∈ Dict.keys c ∨ w ∈ other.*1.
Proof.
  induction other as [|[k n] other IH]; intros c Hc Ho; simpl.
  - split; [exact Hc |]. split; [reflexivity |].
    intros w. rewrite elem_of_nil. tauto.
  - apply Forall_cons in Ho as [Hn Ho]. simpl in Hn.
    destruct (IH (Counter.incr k n c)) as (H1 & H2 & H3);
      [apply counter_incr_wf; assumption | assumption |].
    split; [exact H1 |]. split.
    + etrans; [| exact H2]. rewrite counter_incr_keys.
      destruct (decide _); [reflexivity | apply prefix_app_r; reflexivity].
    + intros w. rewrite H3, counter_incr_keys, elem_of_cons.
      destruct (decide (k ∈ Dict.keys c)) as [Hk|Hk].
      * split; [tauto |]. intros [?|[->|?]]; tauto.
      * rewrite elem_of_app, list_elem_of_singleton. tauto.
Qed.

Lemma counter_of_list_as_pairs (l : list string) (c : Counter.t) :
  foldl (λ c w, Counter.incr w 1 c) c l =
  foldl (λ acc (kv : string * Z), Counter.incr kv.1 kv.2 acc) c ((λ w, (w, 1)) <$> l).
Proof. rewrite foldl_fmap. reflexivity. Qed.

Lemma counter_of_list_wf (l : list string) :
  counter_wf (Counter.of_list l) ∧
  ∀ w, w ∈ Dict.keys (Counter.of_list l) ↔ w ∈ l.
Proof.
  unfold Counter.of_list. rewrite counter_of_list_as_pairs.
  destruct (counter_add_all ((λ w, (w, 1)) <$> l) [] counter_wf_nil)
    as (H1 & _ & H3).
  - apply Forall_fmap, Forall_forall. intros w _. simpl. lia.
  - split; [exact H1 |]. intros w. rewrite H3.
    rewrite <- list_fmap_compose, list_fmap_id.
    simpl. rewrite elem_of_nil. tauto.
Qed.

Lemma counter_count_from (l : list string) (w : string) : ∀ c : Counter.t,
  Counter.get (foldl (λ c w, Counter.incr w 1 c) c l) w =
  Counter.get c w + occurrences w l.
Proof.
  unfold occurrences. induction l as [|x l IH]; intros c; simpl.
  - lia.
  - rewrite IH, counter_get_incr. destruct (decide (x = w)) as [->|Hne].
    + rewrite filter_cons_True by reflexivity. simpl length. lia.
    + rewrite filter_cons_False by exact Hne. lia.
Qed.

(** [Counter(l)[w]] is the number of occurrences of [w] in [l]. *)
Lemma counter_of_list_get (l : list string) (w : string) :
  Counter.get (Counter.of_list l) w = occurrences w l.
Proof. unfold Counter.of_list. rewrite counter_count_from. reflexivity. Qed.

(** [c += other] on counters that the program builds. *)
Lemma counter_iadd_wf (c other : Counter.t) :
  counter_wf c → counter_wf other →
  counter_wf (Counter.iadd c other) ∧
  Dict.keys c `prefix_of` Dict.keys (Counter.iadd c other) ∧
  ∀ w, w ∈ Dict.keys (Counter.iadd c other)
       ↔ w ∈ Dict.keys c ∨ w ∈ Dict.keys other.
Proof.
  intros Hc [_ Ho]. unfold Counter.iadd.
  destruct (counter_add_all other c Hc Ho) as (H1 & H2 & H3).
  rewrite counter_keep_positive_id by apply H1. auto.
Qed.

End CounterFacts.

(** ** Corpus.preprocess *)

Section Preprocess.

Variable word_tokenize : string → list string.
Variable english_stopwords : list string.

(** The stopwords of a call of [preprocess] on the lines [strs], and the
    token lists that the lines become. *)
Definition stopwords_of (floor : Z) (strs : list string) : gset string :=
  Corpus.removal_set english_stopwords floor
    (Counter.of_list (concat (word_tokenize <$> strs))).

Definition filtered_lines (floor : Z) (strs : list string) : list (list string) :=
  Corpus.keep_tokens (stopwords_of floor strs) <$> strs.

Lemma mapM_tokenize (strs : list string) :
  mapM (λ i, s ← Corpus.as_str i; Ok (word_tokenize s)) (VStr <$> strs)
  = Ok (word_tokenize <$> strs).
Proof.
  induction strs as [|s r IH]; csimpl; [reflexivity |].
  rewrite IH. reflexivity.
Qed.

Lemma insert_at_length {A} (l1 l2 : list A) (x y : A) :
  <[length l1 := x]> (l1 ++ y :: l2) = l1 ++ x :: l2.
Proof.
  pose proof (insert_app_r l1 (y :: l2) 0 x) as H.
  rewrite Nat.add_0_r in H. exact H.
Qed.

(** The loop replaces the lines one by one, each at its own position. *)
Lemma filter_in_place_strings (stopwords : gset string) (rest : list string) :
  ∀ (done : list pyval) (n : nat),
  length rest ≤ n →
  Corpus.filter_in_place stopwords n (length done) (done ++ (VStr <$> rest))
  = Ok (done ++ (VList <$> (Corpus.keep_tokens stopwords <$> rest))).
Proof.
  induction rest as [|s rest IH]; intros done n Hn; simpl.
  - destruct n as [|n]; simpl; [reflexivity |].
    rewrite lookup_ge_None_2; [reflexivity |]. rewrite app_nil_r. lia.
  - destruct n as [|n]; simpl in *; [lia |].
    rewrite list_lookup_middle by reflexivity.
    rewrite insert_at_length.
    specialize (IH (done ++ [VList (Corpus.keep_tokens stopwords s)]) n).
    rewrite length_app in IH. simpl in IH.
    rewrite Nat.add_1_r, <- !app_assoc in IH. simpl in IH.
    apply IH. lia.
Qed.

Lemma items_VList (l : list (list string)) : Corpus.items <$> (VList <$> l) = l.
Proof.
  induction l as [|x l IH]; csimpl; [reflexivity |]. rewrite IH. reflexivity.
Qed.

Lemma filter_nonempty_VList (l : list (list string)) :
  filter (λ i, 0 < Corpus.py_len i) (VList <$> l)
  = VList <$> filter (λ ts, ts ≠ []) l.
Proof.
  induction l as [|x l IH]; [reflexivity |].
  rewrite fmap_cons. destruct x as [|a x].
  - rewrite filter_cons_False by (simpl; lia).
    rewrite filter_cons_False by (intros H; apply H; reflexivity). exact IH.
  - rewrite filter_cons_True by (simpl; lia).
    rewrite filter_cons_True by discriminate.
    rewrite fmap_cons, IH. reflexivity.
Qed.

(** What a call of [preprocess] on a list of lines does. *)
Lemma preprocess_strings (self : Corpus.t) (h : store) (l : nat)
    (strs : list string) :
  h !! l = Some (VStr <$> strs) →
  let filtered := filtered_lines (Corpus.floor self) strs in
  let h' := <[l := VList <$> filtered]> h in
  Corpus.preprocess word_tokenize english_stopwords self h l
  = Ok (Corpus.with_word_counts
          (Counter.iadd (Corpus.word_counts self)
             (Counter.of_list (concat filtered))) self,
        <[fresh (dom h') := VList <$> filter (λ ts, ts ≠ []) filtered]> h',
        fresh (dom h')).
Proof.
  intros Hl filtered h'. unfold Corpus.preprocess. rewrite Hl.
  rewrite mapM_tokenize. csimpl.
  rewrite length_fmap.
  rewrite (filter_in_place_strings _ strs [] (length strs)) by lia.
  csimpl. rewrite items_VList, filter_nonempty_VList. reflexivity.
Qed.

(** C10: [preprocess] rewrites the list object it is given.  Called on the
    list at address [l] that holds the lines [strs], it leaves at [l] a list
    of the same length in which every line has become its filtered token
    list, and it returns a list at a new address [ret] that holds the
    non-empty token lists only; no other list object changes. *)
Theorem C10_preprocess_rewrites_the_list_it_receives
    (self : Corpus.t) (h : store) (l : nat) (strs : list string) :
  h !! l = Some (VStr <$> strs) →
  ∃ self' h' ret,
    Corpus.preprocess word_tokenize english_stopwords self h l
    = Ok (self', h', ret) ∧
    h' !! l = Some (VList <$> filtered_lines (Corpus.floor self) strs) ∧
    ret ≠ l ∧ h !! ret = None ∧
    h' !! ret = Some (VList <$> filter (λ ts, ts ≠ [])
                                  (filtered_lines (Corpus.floor self) strs)) ∧
    ∀ l', l' ≠ l → l' ≠ ret → h' !! l' = h !! l'.
Proof.
  intros Hl. eexists _, _, _.
  split; [apply preprocess_strings; exact Hl |].
  set (h' := <[l := VList <$> filtered_lines (Corpus.floor self) strs]> h).
  pose proof (is_fresh (dom h')) as Hfresh.
  assert (Hne : fresh (dom h') ≠ l).
  { intros E. apply Hfresh. rewrite E. unfold h'.
    rewrite dom_insert_L. set_solver. }
  split; [| split; [exact Hne | split; [| split]]].
  - rewrite lookup_insert_ne by exact Hne.
    unfold h'. apply lookup_insert_eq.
  - apply not_elem_of_dom. intros Hin. apply Hfresh. unfold h'.
    rewrite dom_insert_L. set_solver.
  - apply lookup_insert_eq.
  - intros l' H1 H2. rewrite lookup_insert_ne by congruence.
    unfold h'. rewrite lookup_insert_ne by congruence. reflexivity.
Qed.

End Preprocess.

(** C10 at work: three lines in the list at address 5. *)
Lemma C10_preprocess_witness :
  ∃ self' h' ret,
    Corpus.preprocess Examples.word_tokenize Examples.english_stopwords
      (Corpus.empty 1 "out") {[ 5 := VStr <$> ["the cat cat"; ""; "owl"]%string ]} 5
    = Ok (self', h', ret) ∧
    h' !! 5 = Some (VList <$> filtered_lines Examples.word_tokenize
                     Examples.english_stopwords
                     (Corpus.floor (Corpus.empty 1 "out"))
                     ["the cat cat"; ""; "owl"]%string) ∧
    ret ≠ 5 ∧
    ({[ 5 := VStr <$> ["the cat cat"; ""; "owl"]%string ]} : store) !! ret = None ∧
    h' !! ret = Some (VList <$> filter (λ ts, ts ≠ [])
                       (filtered_lines Examples.word_tokenize
                          Examples.english_stopwords
                          (Corpus.floor (Corpus.empty 1 "out"))
                          ["the cat cat"; ""; "owl"]%string)) ∧
    ∀ l', l' ≠ 5 → l' ≠ ret →
      h' !! l' = ({[ 5 := VStr <$> ["the cat cat"; ""; "owl"]%string ]} : store) !! l'.
Proof.
  apply (C10_preprocess_rewrites_the_list_it_receives
           Examples.word_tokenize Examples.english_stopwords
           (Corpus.empty 1 "out")
           {[ 5 := VStr <$> ["the cat cat"; ""; "owl"]%string ]} 5
           ["the cat cat"; ""; "owl"]%string).
  reflexivity.
Defined.

(** On those three lines, with floor 1: the list passed in ends as three
    token lists, the list returned holds the two that are not empty. *)
Example preprocess_example :
  filtered_lines Examples.word_tokenize Examples.english_stopwords 2
    ["the cat cat"; ""; "owl"]%string
  = [["cat"; "cat"]; [""]; []]%string.
Proof. vm_compute. reflexivity. Qed.

(** ** Corpus.get_documents *)

Section GetDocuments.

Variable word_tokenize : string → list string.
Variable english_stopwords : list string.
Variable fs : string → result (list string).

Abbreviation get_documents :=
  (Corpus.get_documents word_tokenize english_stopwords fs).
Abbreviation filtered_of self f :=
  (filtered_lines word_tokenize english_stopwords (Corpus.floor self)
     (Text.strip <$> f)).

(** The ids of the tokens of a sentence. *)
Definition ids_in (d : Dict.t nat) (s : list string) : list nat :=
  (λ w, default 0 (Dict.get d w)) <$> s.

(** The state of the corpus after [get_documents] has read the lines [f]. *)
Definition counts_after (self : Corpus.t) (f : list string) : Counter.t :=
  Counter.iadd (Corpus.word_counts self)
    (Counter.of_list (concat (filtered_of self f))).

Definition sentences_of (self : Corpus.t) (f : list string) : list (list string) :=
  filter (λ ts, ts ≠ []) (filtered_of self f).

Definition after_get_documents (self : Corpus.t) (f : list string)
    (origin : origin) : Corpus.t :=
  let word_to_idx := Dict.enumerate (Dict.keys (counts_after self f)) in
  Corpus.with_docs
    (Corpus.docs self ++
     imap (λ i s, Document.init i (ids_in word_to_idx s) origin)
       (sentences_of self f))
    (Corpus.with_vocabulary word_to_idx (Dict.keys word_to_idx)
       (Corpus.with_word_counts (counts_after self f) self)).

Lemma elem_of_concat {A} (x : A) (ls : list (list A)) :
  x ∈ concat ls ↔ ∃ l, l ∈ ls ∧ x ∈ l.
Proof.
  rewrite list_elem_of_In, in_concat. split; intros (l & H1 & H2); exists l.
  - rewrite !list_elem_of_In. auto.
  - rewrite <- !list_elem_of_In. auto.
Qed.

Lemma mapM_lookup_ids (d : Dict.t nat) (s : list string) :
  Forall (λ w, w ∈ Dict.keys d) s →
  mapM (λ i, match Dict.get d i with
             | Some o => Ok o
             | None => Raise KeyError
             end) s = Ok (ids_in d s).
Proof.
  unfold ids_in. induction 1 as [|w s Hw Hs IH]; csimpl; [reflexivity |].
  destruct (dict_get_is_Some d w Hw) as [o Ho]. rewrite Ho. csimpl.
  rewrite IH. reflexivity.
Qed.

Lemma append_documents (d : Dict.t nat) (origin : origin)
    (sentences : list (list string)) : ∀ (n : nat) (docs : list Document.t),
  Forall (Forall (λ w, w ∈ Dict.keys d)) sentences →
  foldlM (λ docs (ns : nat * list string),
      s ← mapM (λ i, match Dict.get d i with
                      | Some o => Ok o
                      | None => Raise KeyError
                      end) ns.2;
      Ok (docs ++ [Document.init ns.1 s origin]))
    docs (imap (λ i, pair (n + i)) sentences)
  = Ok (docs ++ imap (λ i s, Document.init (n + i) (ids_in d s) origin) sentences).
Proof.
  induction sentences as [|s r IH]; intros n docs Hall; csimpl.
  - rewrite app_nil_r. reflexivity.
  - apply Forall_cons in Hall as [Hs Hr].
    rewrite mapM_lookup_ids by exact Hs. csimpl.
    rewrite (imap_ext _ (λ i, pair (S n + i)))
      by (intros; unfold compose; f_equal; lia).
    rewrite IH by exact Hr. rewrite <- app_assoc. simpl.
    do 3 f_equal. apply imap_ext. intros. unfold compose. f_equal. lia.
Qed.

(** The tokens of the sentences returned are keys of the updated counter. *)
Lemma sentences_in_counts (self : Corpus.t) (f : list string) :
  counter_wf (Corpus.word_counts self) →
  Forall (Forall (λ w, w ∈ Dict.keys (counts_after self f))) (sentences_of self f).
Proof.
  intros Hwf. unfold sentences_of, counts_after.
  destruct (counter_of_list_wf (concat (filtered_of self f))) as [Ho Hin].
  destruct (counter_iadd_wf _ _ Hwf Ho) as (_ & _ & Hk).
  apply Forall_forall. intros s Hs. apply Forall_forall. intros w Hw.
  apply Hk. right. apply Hin.
  apply list_elem_of_filter in Hs as [_ Hs].
  apply elem_of_concat. eauto.
Qed.

Lemma counts_after_wf (self : Corpus.t) (f : list string) :
  counter_wf (Corpus.word_counts self) →
  counter_wf (counts_after self f) ∧
  Dict.keys (Corpus.word_counts self) `prefix_of` Dict.keys (counts_after self f).
Proof.
  intros Hwf. unfold counts_after.
  destruct (counter_of_list_wf (concat (filtered_of self f))) as [Ho _].
  destruct (counter_iadd_wf _ _ Hwf Ho) as (H1 & H2 & _). auto.
Qed.

(** A readable file never makes [get_documents] raise. *)
Lemma get_documents_readable (self : Corpus.t) (path : string)
    (origin : origin) (f : list string) :
  fs path = Ok f →
  counter_wf (Corpus.word_counts self) →
  get_documents self path origin
  = Ok (after_get_documents self f origin, sentences_of self f).
Proof.
  intros Hf Hwf. unfold Corpus.get_documents. rewrite Hf.
  rewrite (preprocess_strings _ _ _ _ _ (Text.strip <$> f))
    by apply lookup_singleton_eq.
  csimpl. rewrite lookup_insert_eq. csimpl. rewrite items_VList.
  fold (sentences_of self f). fold (counts_after self f).
  destruct (counts_after_wf self f Hwf) as [[Hnd _] _].
  change (imap pair (sentences_of self f))
    with (imap (λ i, pair (0 + i)) (sentences_of self f)).
  rewrite append_documents; [reflexivity |].
  rewrite dict_enumerate_keys by exact Hnd.
  apply sentences_in_counts. exact Hwf.
Qed.

Lemma get_documents_unreadable (self : Corpus.t) (path : string)
    (origin : origin) (e : exn) :
  fs path = Raise e → get_documents self path origin = Raise e.
Proof. intros Hf. unfold Corpus.get_documents. rewrite Hf. reflexivity. Qed.

End GetDocuments.

(** ** The vocabulary of a corpus *)

(** The state of the vocabulary between two calls of [get_documents]: the
    counter is well formed, the two mappings are read off its keys, and the
    documents hold ids below the number of keys. *)
Definition docs_within (n : nat) (docs : list Document.t) : Prop :=
  Forall (λ d, Forall (λ id, id < n) (Document.words d)) docs.

Definition vocabulary_ok (c : Corpus.t) : Prop :=
  counter_wf (Corpus.word_counts c) ∧
  Corpus.word_to_idx c = Some (Dict.enumerate (Dict.keys (Corpus.word_counts c))) ∧
  Corpus.idx_to_word c = Dict.keys (Corpus.word_counts c) ∧
  docs_within (length (Corpus.word_counts c)) (Corpus.docs c).

Section Vocabulary.

Variable word_tokenize : string → list string.
Variable english_stopwords : list string.
Variable fs : string → result (list string).

Abbreviation after_docs := (after_get_documents word_tokenize english_stopwords).
Abbreviation counts_after' := (counts_after word_tokenize english_stopwords).
Abbreviation sentences_of' := (sentences_of word_tokenize english_stopwords).
Abbreviation load := (Corpus.load word_tokenize english_stopwords fs).

Lemma keys_length {V} (d : Dict.t V) : length (Dict.keys d) = length d.
Proof. unfold Dict.keys. apply length_fmap. Qed.

Lemma after_get_documents_ok (self : Corpus.t) (f : list string) (o : origin) :
  counter_wf (Corpus.word_counts self) →
  docs_within (length (Corpus.word_counts self)) (Corpus.docs self) →
  vocabulary_ok (after_docs self f o) ∧
  Dict.keys (Corpus.word_counts self)
    `prefix_of` Dict.keys (Corpus.word_counts (after_docs self f o)).
Proof.
  intros Hwf Hdocs.
  destruct (counts_after_wf word_tokenize english_stopwords self f Hwf)
    as [Hwf' Hpre].
  split; [| exact Hpre]. split; [exact Hwf' |]. split; [reflexivity |].
  split; [apply dict_enumerate_keys, Hwf' |].
  simpl. apply Forall_app. split.
  - apply prefix_length in Hpre. rewrite !keys_length in Hpre.
    eapply Forall_impl; [exact Hdocs |]. intros d Hd.
    eapply Forall_impl; [exact Hd |]. intros id Hid. simpl in *. lia.
  - apply Forall_forall. intros d Hd.
    apply elem_of_lookup_imap in Hd as (i & s & -> & Hs). simpl.
    pose proof (sentences_in_counts word_tokenize english_stopwords self f Hwf)
      as Hin.
    rewrite Forall_forall in Hin.
    specialize (Hin s (list_elem_of_lookup_2 _ _ _ Hs)).
    unfold ids_in. apply Forall_fmap. eapply Forall_impl; [exact Hin |].
    intros w Hw. simpl.
    destruct (dict_get_is_Some (Dict.enumerate (Dict.keys (counts_after' self f))) w)
      as [k Hk].
    { rewrite dict_enumerate_keys by apply Hwf'. exact Hw. }
    rewrite Hk. simpl. apply dict_enumerate_get in Hk; [| apply Hwf'].
    apply lookup_lt_Some in Hk. rewrite keys_length in Hk. exact Hk.
Qed.

Lemma with_sentences_ok (ss : list (list string)) (c : Corpus.t) :
  vocabulary_ok c → vocabulary_ok (Corpus.with_sentences ss c).
Proof. intros H. exact H. Qed.

Lemma empty_ok (floor : Z) (output : string) :
  counter_wf (Corpus.word_counts (Corpus.empty floor output)) ∧
  docs_within (length (Corpus.word_counts (Corpus.empty floor output)))
    (Corpus.docs (Corpus.empty floor output)).
Proof. split; [apply counter_wf_nil | constructor]. Qed.

(** The two stages of [load], made explicit. *)
Lemma load_reference (reference output : string) (floor : Z) (c : Corpus.t) :
  load reference output None floor = Ok c →
  ∃ f, fs reference = Ok f ∧
    c = Corpus.with_sentences (sentences_of' (Corpus.empty floor output) f)
          (after_docs (Corpus.empty floor output) f Reference).
Proof.
  unfold Corpus.load. destruct (fs reference) as [f|] eqn:Hf.
  - rewrite (get_documents_readable _ _ _ _ _ _ f Hf) by apply counter_wf_nil.
    csimpl. intros [= <-]. eauto.
  - rewrite (get_documents_unreadable _ _ _ _ _ _ _ Hf). discriminate.
Qed.

Lemma load_focus (reference output focus : string) (floor : Z)
    (c1 c2 : Corpus.t) :
  focus ≠ EmptyString →
  load reference output None floor = Ok c1 →
  load reference output (Some focus) floor = Ok c2 →
  ∃ g, fs focus = Ok g ∧
    c2 = Corpus.with_sentences (Corpus.sentences c1 ++ sentences_of' c1 g)
           (after_docs c1 g Focus).
Proof.
  intros Hne H1. destruct (load_reference _ _ _ _ H1) as (f & Hf & ->).
  unfold Corpus.load.
  rewrite (get_documents_readable _ _ _ _ _ _ f Hf) by apply counter_wf_nil.
  csimpl. destruct (decide (focus = EmptyString)) as [|_]; [contradiction |].
  destruct (fs focus) as [g|] eqn:Hg.
  - rewrite (get_documents_readable _ _ _ _ _ _ g Hg).
    + csimpl. intros [= <-]. eauto.
    + apply (after_get_documents_ok (Corpus.empty floor output) f Reference);
        apply empty_ok.
  - rewrite (get_documents_unreadable _ _ _ _ _ _ _ Hg). discriminate.
Qed.

Lemma load_ok (reference output : string) (focus : option string)
    (floor : Z) (c : Corpus.t) :
  load reference output focus floor = Ok c → vocabulary_ok c.
Proof.
  assert (Hone : ∀ c1, load reference output None floor = Ok c1 →
                       vocabulary_ok c1).
  { intros c1 H1. destruct (load_reference _ _ _ _ H1) as (f & _ & ->).
    apply with_sentences_ok.
    apply (after_get_documents_ok (Corpus.empty floor output) f Reference);
      apply empty_ok. }
  destruct focus as [focus|]; [| apply Hone].
  destruct (decide (focus = EmptyString)) as [->|Hne].
  - intros H. apply Hone. rewrite <- H. unfold Corpus.load.
    destruct (Corpus.get_documents _ _ _ _ _ _) as [[? ?]|]; reflexivity.
  - intros H2.
    destruct (load reference output None floor) as [c1|e] eqn:H1.
    + destruct (load_focus _ _ _ _ _ _ Hne H1 H2) as (g & _ & ->).
      apply with_sentences_ok. specialize (Hone c1 eq_refl).
      apply after_get_documents_ok; apply Hone.
    + exfalso. revert H1 H2. unfold Corpus.load.
      destruct (Corpus.get_documents _ _ _ _ _ _) as [[? ?]|];
        csimpl; discriminate.
Qed.

End Vocabulary.

(** ** Corpus.collocations *)

Section Collocations.

Context {V : Type}.
Variable ppmi_value : Z → Z → Z → Z → V.

(** Whether the PPMI loop raises does not depend on the numbers it stores. *)
Lemma ppmi_loop_independent {V' : Type} (ppmi_value' : Z → Z → Z → Z → V')
    (self : Corpus.t) (total : Z) (cells : list ((nat * nat) * Z)) :
  ∀ (acc : gmap (nat * nat) V) (acc' : gmap (nat * nat) V') (ppmi : gmap (nat * nat) V),
  foldlM (λ (ppmi : gmap (nat * nat) V) (c : (nat * nat) * Z),
      let '(i, j) := c.1 in
      match Corpus.idx_to_word self !! i with
      | None => Raise IndexError
      | Some index_i =>
          match Corpus.idx_to_word self !! j with
          | None => Raise IndexError
          | Some index_j =>
              Ok (<[(i, j) := ppmi_value c.2 total
                                (Counter.get (Corpus.word_counts self) index_i)
                                (Counter.get (Corpus.word_counts self) index_j)]> ppmi)
          end
      end) acc cells = Ok ppmi →
  ∃ ppmi',
  foldlM (λ (ppmi : gmap (nat * nat) V') (c : (nat * nat) * Z),
      let '(i, j) := c.1 in
      match Corpus.idx_to_word self !! i with
      | None => Raise IndexError
      | Some index_i =>
          match Corpus.idx_to_word self !! j with
          | None => Raise IndexError
          | Some index_j =>
              Ok (<[(i, j) := ppmi_value' c.2 total
                                (Counter.get (Corpus.word_counts self) index_i)
                                (Counter.get (Corpus.word_counts self) index_j)]> ppmi)
          end
      end) acc' cells = Ok ppmi'.
Proof.
  induction cells as [|[[i j] v] cells IH]; intros acc acc' ppmi; csimpl.
  - eauto.
  - destruct (Corpus.idx_to_word self !! i); [| discriminate].
    destruct (Corpus.idx_to_word self !! j); [| discriminate].
    csimpl. apply IH.
Qed.

Lemma compute_ppmi_independent {V' : Type} (ppmi_value' : Z → Z → Z → Z → V')
    (self : Corpus.t) (m : matrix) (ppmi : gmap (nat * nat) V) :
  Corpus.compute_ppmi ppmi_value self m = Ok ppmi →
  ∃ ppmi', Corpus.compute_ppmi ppmi_value' self m = Ok ppmi'.
Proof. unfold Corpus.compute_ppmi. apply ppmi_loop_independent. Qed.

Lemma run_collocations_inv (self : Corpus.t) (corpus : list (list string))
    (window_size : Z) (c : Corpus.t) :
  Corpus.run_collocations ppmi_value self corpus window_size = Ok c →
  ∃ cooccurences ppmi,
    Corpus.count_cooccurences (Corpus.word_to_idx self) (Corpus.vocab_size self)
      corpus window_size = Ok cooccurences ∧
    Corpus.compute_ppmi ppmi_value self cooccurences = Ok ppmi ∧
    c = Corpus.with_collocations cooccurences
          (Corpus.vocab_size self, Corpus.vocab_size self) self.
Proof.
  unfold Corpus.run_collocations, Corpus.collocations_locals.
  destruct (Corpus.count_cooccurences _ _ _ _) as [m|]; [| discriminate].
  csimpl. destruct (Corpus.compute_ppmi _ _ _) as [p|] eqn:Hp; [| discriminate].
  csimpl. intros [= <-]. exists m, p. auto.
Qed.

(** C2: when [collocations] returns, the attribute [collocations] of the
    corpus is the matrix of raw counts of the windowing pass, [shape] is its
    shape and nothing else of the corpus has changed; the PPMI matrix is in
    no attribute, and whatever numbers the PPMI loop computes, the corpus
    ends in this same state. *)
Theorem C2_collocations_stores_the_raw_counts (self : Corpus.t)
    (corpus : list (list string)) (window_size : Z) (c : Corpus.t) :
  Corpus.run_collocations ppmi_value self corpus window_size = Ok c →
  ∃ cooccurences ppmi,
    Corpus.collocations_locals ppmi_value self corpus window_size
    = Ok (cooccurences, ppmi) ∧
    Corpus.count_cooccurences (Corpus.word_to_idx self) (Corpus.vocab_size self)
      corpus window_size = Ok cooccurences ∧
    Corpus.collocations c = Some cooccurences ∧
    c = Corpus.with_collocations cooccurences
          (Corpus.vocab_size self, Corpus.vocab_size self) self ∧
    ∀ (V' : Type) (ppmi_value' : Z → Z → Z → Z → V'),
      Corpus.run_collocations ppmi_value' self corpus window_size = Ok c.
Proof.
  intros H. destruct (run_collocations_inv _ _ _ _ H) as (m & p & Hm & Hp & ->).
  exists m, p. split.
  { unfold Corpus.collocations_locals. rewrite Hm. csimpl. rewrite Hp.
    reflexivity. }
  split; [exact Hm |]. split; [reflexivity |]. split; [reflexivity |].
  intros V' ppmi_value'.
  destruct (compute_ppmi_independent ppmi_value' _ _ _ Hp) as [p' Hp'].
  unfold Corpus.run_collocations, Corpus.collocations_locals.
  rewrite Hm. csimpl. rewrite Hp'. reflexivity.
Qed.

End Collocations.

(** A corpus of one sentence of three words, ready for [collocations]. *)
Definition abc_corpus : Corpus.t :=
  Corpus.with_sentences [["a"; "b"; "c"]%string]
    (Corpus.with_vocab_size 3
       (Corpus.with_vocabulary (Dict.enumerate ["a"; "b"; "c"]%string)
          ["a"; "b"; "c"]%string
          (Corpus.with_word_counts [("a", 1); ("b", 1); ("c", 1)]%string%Z
             (Corpus.empty 0 "out")))).

Definition abc_counts : matrix :=
  <[(0, 2) := 1%Z]> (<[(1, 2) := 1%Z]> (<[(0, 1) := 1%Z]> (<[(1, 0) := 1%Z]> ∅))).

(** C2 at work: the three-word corpus, window size 4. *)
Lemma C2_collocations_witness :
  ∃ cooccurences ppmi,
    Corpus.collocations_locals Examples.ppmi_value abc_corpus
      (Corpus.sentences abc_corpus) 4 = Ok (cooccurences, ppmi) ∧
    Corpus.count_cooccurences (Corpus.word_to_idx abc_corpus)
      (Corpus.vocab_size abc_corpus) (Corpus.sentences abc_corpus) 4
    = Ok cooccurences ∧
    Corpus.collocations (Corpus.with_collocations abc_counts (3, 3) abc_corpus)
    = Some cooccurences ∧
    Corpus.with_collocations abc_counts (3, 3) abc_corpus
    = Corpus.with_collocations cooccurences
        (Corpus.vocab_size abc_corpus, Corpus.vocab_size abc_corpus) abc_corpus ∧
    ∀ (V' : Type) (ppmi_value' : Z → Z → Z → Z → V'),
      Corpus.run_collocations ppmi_value' abc_corpus
        (Corpus.sentences abc_corpus) 4
      = Ok (Corpus.with_collocations abc_counts (3, 3) abc_corpus).
Proof.
  apply (C2_collocations_stores_the_raw_counts Examples.ppmi_value abc_corpus
           (Corpus.sentences abc_corpus) 4
           (Corpus.with_collocations abc_counts (3, 3) abc_corpus)).
  vm_compute. reflexivity.
Defined.

(** ** The corpus after construction *)

Section Construction.

Variable word_tokenize : string → list string.
Variable english_stopwords : list string.
Variable fs : string → result (list string).
Context {V : Type}.
Variable ppmi_value : Z → Z → Z → Z → V.

(** C6: when the construction of a corpus completes, [word_to_idx] and
    [idx_to_word] have [vocab_size] entries each and are inverse to each
    other, the ids are exactly the numbers below [vocab_size], and every id
    in the words of a document is such an id, with its word in both
    mappings. *)
Theorem C6_vocabulary_is_a_dense_bijection (reference output : string)
    (focus : option string) (floor window_size : Z) (c : Corpus.t) :
  Corpus.init word_tokenize english_stopwords fs ppmi_value
    reference output focus floor window_size = Ok c →
  ∃ word_to_idx,
    Corpus.word_to_idx c = Some word_to_idx ∧
    length word_to_idx = Corpus.vocab_size c ∧
    length (Corpus.idx_to_word c) = Corpus.vocab_size c ∧
    (∀ w k, Dict.get word_to_idx w = Some k ↔ Corpus.idx_to_word c !! k = Some w) ∧
    (∀ k, k < Corpus.vocab_size c ↔ ∃ w, Dict.get word_to_idx w = Some k) ∧
    (∀ d id, d ∈ Corpus.docs c → id ∈ Document.words d →
       id < Corpus.vocab_size c ∧
       ∃ w, Corpus.idx_to_word c !! id = Some w ∧
            Dict.get word_to_idx w = Some id).
Proof.
  unfold Corpus.init.
  destruct (Corpus.load _ _ _ _ _ _ _) as [self|] eqn:Hload; [| discriminate].
  csimpl. intros H.
  apply run_collocations_inv in H as (m & _ & _ & _ & ->).
  apply load_ok in Hload as ((Hnd & _) & Hwti & Hitw & Hdocs).
  exists (Dict.enumerate (Dict.keys (Corpus.word_counts self))). simpl.
  assert (Hget : ∀ w k,
    Dict.get (Dict.enumerate (Dict.keys (Corpus.word_counts self))) w = Some k
    ↔ Corpus.idx_to_word self !! k = Some w).
  { intros w k. rewrite Hitw. apply dict_enumerate_get. exact Hnd. }
  split; [exact Hwti |]. split.
  { rewrite <- (keys_length (Dict.enumerate _)), dict_enumerate_keys by exact Hnd.
    apply keys_length. }
  split; [rewrite Hitw; apply keys_length |]. split; [exact Hget |]. split.
  - intros k. split.
    + intros Hk. rewrite <- keys_length, <- Hitw in Hk.
      apply lookup_lt_is_Some_2 in Hk as [w Hw]. exists w. apply Hget. exact Hw.
    + intros [w Hw]. apply Hget in Hw. apply lookup_lt_Some in Hw.
      rewrite Hitw, keys_length in Hw. exact Hw.
  - intros d id Hd Hid. unfold docs_within in Hdocs.
    rewrite Forall_forall in Hdocs. specialize (Hdocs d Hd).
    rewrite Forall_forall in Hdocs. specialize (Hdocs id Hid).
    split; [exact Hdocs |].
    rewrite <- keys_length, <- Hitw in Hdocs.
    apply lookup_lt_is_Some_2 in Hdocs as [w Hw]. exists w.
    split; [exact Hw | apply Hget; exact Hw].
Qed.

(** C7: the focus corpus only extends the vocabulary.  With [c1] the
    corpus after the reference corpus alone and [c2] the corpus after the
    focus corpus as well, a word that has the id [k] in [c1] has the id [k]
    in [c2]; every word that survives in a sentence of the focus corpus has
    an id in [c2], which is at or above the number of ids of [c1] when the
    word has none in [c1]; a word that has an id in [c2] only has an id
    above every id of [c1]; and no id of [c2] is given to two words. *)
Theorem C7_focus_corpus_extends_the_vocabulary (reference output focus : string)
    (floor : Z) (c1 c2 : Corpus.t) :
  focus ≠ EmptyString →
  Corpus.load word_tokenize english_stopwords fs reference output None floor
  = Ok c1 →
  Corpus.load word_tokenize english_stopwords fs reference output (Some focus) floor
  = Ok c2 →
  ∃ d1 d2 g,
    Corpus.word_to_idx c1 = Some d1 ∧ Corpus.word_to_idx c2 = Some d2 ∧
    fs focus = Ok g ∧
    Corpus.sentences c2
    = Corpus.sentences c1 ++ sentences_of word_tokenize english_stopwords c1 g ∧
    (∀ w k, Dict.get d1 w = Some k → Dict.get d2 w = Some k) ∧
    (∀ w, w ∈ concat (sentences_of word_tokenize english_stopwords c1 g) →
       ∃ k, Dict.get d2 w = Some k ∧ (Dict.get d1 w = None → length d1 ≤ k)) ∧
    (∀ w k, Dict.get d2 w = Some k → Dict.get d1 w = None →
       ∀ w' k', Dict.get d1 w' = Some k' → k' < k) ∧
    (∀ w w' k, Dict.get d2 w = Some k → Dict.get d2 w' = Some k → w = w').
Proof.
  intros Hne H1 H2.
  destruct (load_focus _ _ _ _ _ _ _ _ _ Hne H1 H2) as (g & Hg & ->).
  apply load_ok in H1 as (Hwf1 & Hwti1 & _ & Hdocs1).
  destruct (after_get_documents_ok word_tokenize english_stopwords c1 g Focus
              Hwf1 Hdocs1) as [(Hwf2 & Hwti2 & _) [rest Hpre]].
  pose proof (sentences_in_counts word_tokenize english_stopwords c1 g Hwf1)
    as Hin.
  exists (Dict.enumerate (Dict.keys (Corpus.word_counts c1))),
         (Dict.enumerate (Dict.keys (Corpus.word_counts
            (after_get_documents word_tokenize english_stopwords c1 g Focus)))),
         g.
  split; [exact Hwti1 |]. split; [exact Hwti2 |]. split; [exact Hg |].
  split; [reflexivity |].
  destruct Hwf1 as [Hnd1 _]. destruct Hwf2 as [Hnd2 _].
  assert (Hnew : ∀ w k,
    Dict.get (Dict.enumerate (Dict.keys (Corpus.word_counts
       (after_get_documents word_tokenize english_stopwords c1 g Focus)))) w
    = Some k →
    Dict.get (Dict.enumerate (Dict.keys (Corpus.word_counts c1))) w = None →
    length (Dict.keys (Corpus.word_counts c1)) ≤ k).
  { intros w k Hk Hnone. apply dict_enumerate_get in Hk; [| exact Hnd2].
    destruct (decide (k < length (Dict.keys (Corpus.word_counts c1))))
      as [Hlt|Hge]; [| lia].
    exfalso. rewrite Hpre, lookup_app_l in Hk by exact Hlt.
    apply (dict_enumerate_get _ _ _ Hnd1) in Hk. congruence. }
  split; [| split; [| split]].
  - intros w k Hk. apply dict_enumerate_get in Hk; [| exact Hnd1].
    apply dict_enumerate_get; [exact Hnd2 |].
    rewrite Hpre. apply lookup_app_l_Some. exact Hk.
  - intros w Hw. apply elem_of_concat in Hw as (s & Hs & Hw).
    rewrite Forall_forall in Hin. specialize (Hin s Hs).
    rewrite Forall_forall in Hin. specialize (Hin w Hw).
    destruct (dict_get_is_Some
                (Dict.enumerate (Dict.keys (Corpus.word_counts
                   (after_get_documents word_tokenize english_stopwords
                      c1 g Focus)))) w) as [k Hk].
    { rewrite dict_enumerate_keys by exact Hnd2. exact Hin. }
    exists k. split; [exact Hk |]. intros Hnone.
    rewrite <- (keys_length (Dict.enumerate _)),
      dict_enumerate_keys by exact Hnd1.
    apply (Hnew w k Hk Hnone).
  - intros w k Hk Hnone w' k' Hk'.
    specialize (Hnew w k Hk Hnone).
    apply dict_enumerate_get in Hk'; [| exact Hnd1].
    apply lookup_lt_Some in Hk'. lia.
  - intros w w' k Hk Hk'.
    apply dict_enumerate_get in Hk; [| exact Hnd2].
    apply dict_enumerate_get in Hk'; [| exact Hnd2]. congruence.
Qed.

(** C8 (as amended): a file that cannot be opened makes [get_documents]
    raise the I/O error; an empty file does not: [get_documents] returns
    an empty list of sentences, adds no document and no word. *)
Theorem C8_unreadable_file_raises_empty_file_loads (self : Corpus.t)
    (unreadable empty : string) (origin : origin) :
  fs unreadable = Raise OSError →
  fs empty = Ok [] →
  Corpus.get_documents word_tokenize english_stopwords fs self unreadable origin
  = Raise OSError ∧
  ∃ self',
    Corpus.get_documents word_tokenize english_stopwords fs self empty origin
    = Ok (self', []) ∧
    Corpus.docs self' = Corpus.docs self ∧
    Corpus.word_counts self' = Counter.keep_positive (Corpus.word_counts self) ∧
    Corpus.word_to_idx self'
    = Some (Dict.enumerate (Dict.keys (Counter.keep_positive (Corpus.word_counts self)))).
Proof.
  intros Hu He. split; [apply get_documents_unreadable; exact Hu |].
  unfold Corpus.get_documents. rewrite He. eexists. split; [reflexivity |].
  simpl. auto.
Qed.

End Construction.

(** The example corpus: a reference file and a focus file, floor 0,
    window 4. *)
Definition example_reference : Corpus.t :=
  match Corpus.load Examples.word_tokenize Examples.english_stopwords
          Examples.fs "reference.txt" "out" None 0 with
  | Ok c => c
  | Raise _ => Corpus.empty 0 "out"
  end.

Definition example_both : Corpus.t :=
  match Corpus.load Examples.word_tokenize Examples.english_stopwords
          Examples.fs "reference.txt" "out" (Some "focus.txt"%string) 0 with
  | Ok c => c
  | Raise _ => Corpus.empty 0 "out"
  end.

Definition example_corpus : Corpus.t :=
  match Corpus.init Examples.word_tokenize Examples.english_stopwords
          Examples.fs Examples.ppmi_value
          "reference.txt" "out" (Some "focus.txt"%string) 0 4 with
  | Ok c => c
  | Raise _ => Corpus.empty 0 "out"
  end.

Example example_vocabulary :
  Corpus.word_to_idx example_reference
  = Some [("cat", 0); ("sat", 1); ("mat", 2); ("dog", 3); ("log", 4)]%string ∧
  Corpus.word_to_idx example_corpus
  = Some [("cat", 0); ("sat", 1); ("mat", 2); ("dog", 3); ("log", 4);
          ("owl", 5)]%string ∧
  Document.words <$> Corpus.docs example_corpus
  = [[0; 1; 2]; [3; 1; 4]; [0; 1; 4]; [3; 1; 2]; [5; 1]].
Proof. vm_compute. auto. Qed.

(** C6 at work: the example corpus. *)
Lemma C6_vocabulary_witness :
  ∃ word_to_idx,
    Corpus.word_to_idx example_corpus = Some word_to_idx ∧
    length word_to_idx = Corpus.vocab_size example_corpus ∧
    length (Corpus.idx_to_word example_corpus) = Corpus.vocab_size example_corpus ∧
    (∀ w k, Dict.get word_to_idx w = Some k
            ↔ Corpus.idx_to_word example_corpus !! k = Some w) ∧
    (∀ k, k < Corpus.vocab_size example_corpus
          ↔ ∃ w, Dict.get word_to_idx w = Some k) ∧
    (∀ d id, d ∈ Corpus.docs example_corpus → id ∈ Document.words d →
       id < Corpus.vocab_size example_corpus ∧
       ∃ w, Corpus.idx_to_word example_corpus !! id = Some w ∧
            Dict.get word_to_idx w = Some id).
Proof.
  apply (C6_vocabulary_is_a_dense_bijection
           Examples.word_tokenize Examples.english_stopwords Examples.fs
           Examples.ppmi_value "reference.txt" "out" (Some "focus.txt"%string)
           0 4 example_corpus).
  vm_compute. reflexivity.
Defined.

(** C7 at work: the example corpus before and after its focus file, in
    which the word [owl] is new. *)
Lemma C7_focus_witness :
  ∃ d1 d2 g,
    Corpus.word_to_idx example_reference = Some d1 ∧
    Corpus.word_to_idx example_both = Some d2 ∧
    Examples.fs "focus.txt" = Ok g ∧
    Corpus.sentences example_both
    = Corpus.sentences example_reference
      ++ sentences_of Examples.word_tokenize Examples.english_stopwords
           example_reference g ∧
    (∀ w k, Dict.get d1 w = Some k → Dict.get d2 w = Some k) ∧
    (∀ w, w ∈ concat (sentences_of Examples.word_tokenize
                        Examples.english_stopwords example_reference g) →
       ∃ k, Dict.get d2 w = Some k ∧ (Dict.get d1 w = None → length d1 ≤ k)) ∧
    (∀ w k, Dict.get d2 w = Some k → Dict.get d1 w = None →
       ∀ w' k', Dict.get d1 w' = Some k' → k' < k) ∧
    (∀ w w' k, Dict.get d2 w = Some k → Dict.get d2 w' = Some k → w = w').
Proof.
  apply (C7_focus_corpus_extends_the_vocabulary
           Examples.word_tokenize Examples.english_stopwords Examples.fs
           "reference.txt" "out" "focus.txt" 0 example_reference example_both).
  - discriminate.
  - vm_compute. reflexivity.
  - vm_compute. reflexivity.
Defined.

(** In the example the new word [owl] of the focus file receives the id 5,
    after the five ids of the reference file. *)
Example example_new_focus_word :
  "owl"%string ∈ concat (sentences_of Examples.word_tokenize
                           Examples.english_stopwords example_reference
                           [Examples.line "cat sat log";
                            Examples.line "dog sat mat";
                            Examples.line "owl sat"]) ∧
  (∀ d1, Corpus.word_to_idx example_reference = Some d1 →
         Dict.get d1 "owl" = None ∧ length d1 = 5) ∧
  (∀ d2, Corpus.word_to_idx example_both = Some d2 →
         Dict.get d2 "owl" = Some 5).
Proof.
  split; [| split].
  - apply (bool_decide_unpack _). vm_compute. reflexivity.
  - intros d1 [= <-]. vm_compute. auto.
  - intros d2 [= <-]. vm_compute. reflexivity.
Qed.

(** C8 at work: a missing file and an empty file, as focus corpus of the
    example. *)
Lemma C8_files_witness :
  Corpus.get_documents Examples.word_tokenize Examples.english_stopwords
    Examples.fs example_reference "missing.txt" Focus = Raise OSError ∧
  ∃ self',
    Corpus.get_documents Examples.word_tokenize Examples.english_stopwords
      Examples.fs example_reference "empty.txt" Focus = Ok (self', []) ∧
    Corpus.docs self' = Corpus.docs example_reference ∧
    Corpus.word_counts self'
    = Counter.keep_positive (Corpus.word_counts example_reference) ∧
    Corpus.word_to_idx self'
    = Some (Dict.enumerate (Dict.keys
              (Counter.keep_positive (Corpus.word_counts example_reference)))).
Proof.
  apply (C8_unreadable_file_raises_empty_file_loads
           Examples.word_tokenize Examples.english_stopwords Examples.fs
           example_reference "missing.txt" "empty.txt" Focus).
  - reflexivity.
  - reflexivity.
Defined.

(** C8 (the claim as stated fails): the file [empty.txt] has no line;
    [get_documents] returns normally on it, with no sentence, no document
    and an empty vocabulary, and so does the construction of the corpus. *)
Lemma C8_empty_file_raises_nothing :
  Examples.fs "empty.txt" = Ok [] ∧
  (∃ c, Corpus.get_documents Examples.word_tokenize Examples.english_stopwords
          Examples.fs (Corpus.empty 1 "out") "empty.txt" Reference = Ok (c, []) ∧
        Corpus.docs c = [] ∧ Corpus.word_to_idx c = Some [] ∧
        Corpus.word_counts c = []) ∧
  ¬ ∃ e, Corpus.get_documents Examples.word_tokenize Examples.english_stopwords
          Examples.fs (Corpus.empty 1 "out") "empty.txt" Reference = Raise e.
Proof.
  split; [reflexivity |]. split.
  - eexists. split; [reflexivity |]. auto.
  - intros [e He]. discriminate He.
Qed.

(** ** The frequency floor *)

Section Floor.

Variable word_tokenize : string → list string.
Variable english_stopwords : list string.

Local Open Scope Z_scope.

Lemma add_rare_spec (floor : Z) (w : string) (l : list (string * Z)) :
  ∀ stopwords : gset string,
  w ∈ foldl (λ (stopwords : gset string) (i : string * Z),
               if decide (i.2 < floor) then stopwords ∪ {[ i.1 ]} else stopwords)
            stopwords l
  ↔ w ∈ stopwords ∨ ∃ n, (w, n) ∈ l ∧ n < floor.
Proof.
  induction l as [|[k n] l IH]; intros stopwords; simpl.
  - split; [auto |]. intros [H|(n & H & _)]; [exact H |].
    apply elem_of_nil in H. contradiction.
  - rewrite IH. split.
    + intros [H|(m & H & Hm)].
      * destruct (decide (n < floor)) as [Hn|Hn]; [| auto].
        apply elem_of_union in H as [H|H]; [auto |].
        apply elem_of_singleton in H as ->. right. exists n.
        split; [apply elem_of_cons; auto | exact Hn].
      * right. exists m. split; [apply elem_of_cons; auto | exact Hm].
    + intros [H|(m & H & Hm)].
      * left. destruct (decide (n < floor)); [apply elem_of_union |]; auto.
      * apply elem_of_cons in H as [[= -> ->]|H].
        -- left. rewrite decide_True by exact Hm.
           apply elem_of_union. right. apply elem_of_singleton. reflexivity.
        -- right. eauto.
Qed.

(** The removal set: the stopwords and the tokens counted at least once
    and fewer than [floor] times. *)
Lemma removal_set_spec (floor : Z) (word_counts : Counter.t) (w : string) :
  w ∈ Corpus.removal_set english_stopwords floor word_counts
  ↔ w ∈ english_stopwords ∨ ∃ n, (w, n) ∈ word_counts ∧ n < floor.
Proof.
  unfold Corpus.removal_set. rewrite add_rare_spec, elem_of_list_to_set.
  apply or_iff_compat_l. split; intros (n & H & Hn); exists n; (split; [| exact Hn]).
  - rewrite elem_of_reverse in H. unfold Counter.most_common in H.
    rewrite merge_sort_Permutation in H. exact H.
  - rewrite elem_of_reverse. unfold Counter.most_common.
    rewrite merge_sort_Permutation. exact H.
Qed.

Lemma occurrences_pos_elem (w : string) (l : list string) :
  0 < occurrences w l → w ∈ l.
Proof.
  unfold occurrences. intros H.
  destruct (filter (λ x, x = w) l) as [|x r] eqn:E; [simpl in H; lia |].
  assert (Hx : x ∈ filter (λ x, x = w) l) by (rewrite E; apply elem_of_cons; auto).
  apply list_elem_of_filter in Hx as [-> Hx]. exact Hx.
Qed.

(** A token that the tokenizer yields at least once and fewer than [floor]
    times is in the removal set and in no filtered sentence. *)
Lemma rare_token_is_removed (floor : Z) (strs : list string) (w : string) :
  0 < occurrences w (concat (word_tokenize <$> strs)) < floor →
  w ∈ stopwords_of word_tokenize english_stopwords floor strs ∧
  Forall (λ s, w ∉ s) (filtered_lines word_tokenize english_stopwords floor strs).
Proof.
  intros [Hpos Hlt].
  assert (Hin : w ∈ stopwords_of word_tokenize english_stopwords floor strs).
  { unfold stopwords_of. apply removal_set_spec. right.
    exists (occurrences w (concat (word_tokenize <$> strs))).
    split; [| exact Hlt].
    destruct (counter_of_list_wf (concat (word_tokenize <$> strs))) as [_ Hk].
    apply occurrences_pos_elem, Hk, dict_get_is_Some in Hpos as [n Hn].
    pose proof (counter_of_list_get (concat (word_tokenize <$> strs)) w) as Hc.
    unfold Counter.get in Hc. rewrite Hn in Hc. simpl in Hc. subst n.
    apply dict_get_Some_elem. exact Hn. }
  split; [exact Hin |].
  unfold filtered_lines. apply Forall_fmap, Forall_forall. intros s _. simpl.
  unfold Corpus.keep_tokens. intros Hw.
  apply list_elem_of_filter in Hw as [Hw _]. contradiction.
Qed.

End Floor.

(** A token that the tokenizer never yields is outside the removal set,
    unless it is a stopword: the floor does not reach it. *)
Lemma uncounted_token_is_kept (word_tokenize : string → list string)
    (english_stopwords : list string) (floor : Z) (strs : list string)
    (w : string) :
  w ∉ concat (word_tokenize <$> strs) → w ∉ english_stopwords →
  w ∉ stopwords_of word_tokenize english_stopwords floor strs.
Proof.
  intros Hw Hs Hin. unfold stopwords_of in Hin.
  apply removal_set_spec in Hin as [Hin|(n & Hin & _)]; [contradiction |].
  apply Hw. destruct (counter_of_list_wf (concat (word_tokenize <$> strs))) as [_ Hk].
  apply Hk. unfold Dict.keys. apply list_elem_of_fmap. exists (w, n). auto.
Qed.

(** C5 (the code departs from the claim): the file [blank.txt] holds the
    line [cat cat] and a blank line, and the floor parameter is 1.  The
    blank line splits into one empty token, which the tokenizer never
    yields, so the floor does not remove it: the empty token, with one
    occurrence where two are required, is a key of [word_to_idx]. *)
Theorem C5_token_below_the_floor_enters_the_vocabulary :
  Examples.fs "blank.txt" = Ok [Examples.line "cat cat"; Examples.newline] ∧
  occurrences "" (concat (Examples.word_tokenize <$> ["cat cat"; ""]%string)) = 0%Z ∧
  ∃ c word_to_idx,
    Corpus.init Examples.word_tokenize Examples.english_stopwords Examples.fs
      Examples.ppmi_value "blank.txt" "out" None 1 10 = Ok c ∧
    Corpus.floor c = 2%Z ∧
    Corpus.word_to_idx c = Some word_to_idx ∧
    Dict.get word_to_idx "" = Some 1 ∧
    Counter.get (Corpus.word_counts c) "" = 1%Z ∧
    Corpus.sentences c = [["cat"; "cat"]; [""]]%string.
Proof.
  split; [reflexivity |]. split; [reflexivity |].
  eexists _, _. split; [vm_compute; reflexivity |].
  repeat split.
Qed.

(** ** The windowing pass on a sentence of three words *)

Section ThreeWords.

(** The vocabulary as the program builds it: the ids of distinct keys. *)
Variable ks : list string.
Hypothesis ks_distinct : NoDup ks.

Variables (A B C : string) (a b c : nat).
Hypothesis id_A : Dict.get (Dict.enumerate ks) A = Some a.
Hypothesis id_B : Dict.get (Dict.enumerate ks) B = Some b.
Hypothesis id_C : Dict.get (Dict.enumerate ks) C = Some c.
Hypothesis A_B : A ≠ B.
Hypothesis A_C : A ≠ C.
Hypothesis B_C : B ≠ C.

Lemma id_in_range (w : string) (k : nat) :
  Dict.get (Dict.enumerate ks) w = Some k → k < length ks.
Proof.
  intros H. apply dict_enumerate_get in H; [| exact ks_distinct].
  eapply lookup_lt_Some. exact H.
Qed.

Lemma ids_differ (w w' : string) (k k' : nat) :
  Dict.get (Dict.enumerate ks) w = Some k →
  Dict.get (Dict.enumerate ks) w' = Some k' →
  w ≠ w' → k ≠ k'.
Proof.
  intros H H' Hne ->.
  apply dict_enumerate_get in H; [| exact ks_distinct].
  apply dict_enumerate_get in H'; [| exact ks_distinct]. congruence.
Qed.

Lemma bump_in_range (x y : nat) (m : matrix) :
  x < length ks → y < length ks →
  Corpus.bump (length ks) x y m
  = Ok (<[(x, y) := (default 0 (m !! (x, y)) + 1)%Z]> m).
Proof.
  intros Hx Hy. unfold Corpus.bump. rewrite decide_True by auto. reflexivity.
Qed.

(** The three windows, for a half width [h] of 1 and of 2 or more. *)
Lemma windows_narrow :
  py_slice [A; B; C] (0 `max` (Z.of_nat 0 - 1)) ((Z.of_nat 3 - 1) `min` (Z.of_nat 0 + 1)) = [A] ∧
  py_slice [A; B; C] (0 `max` (Z.of_nat 1 - 1)) ((Z.of_nat 3 - 1) `min` (Z.of_nat 1 + 1)) = [A; B] ∧
  py_slice [A; B; C] (0 `max` (Z.of_nat 2 - 1)) ((Z.of_nat 3 - 1) `min` (Z.of_nat 2 + 1)) = [B].
Proof. repeat split. Qed.

Lemma windows_wide (h : Z) (j : nat) :
  (2 ≤ h)%Z → j < 3 →
  py_slice [A; B; C] (0 `max` (Z.of_nat j - h)) ((Z.of_nat 3 - 1) `min` (Z.of_nat j + h))
  = [A; B].
Proof.
  intros Hh Hj.
  replace (0 `max` (Z.of_nat j - h))%Z with 0%Z by lia.
  replace ((Z.of_nat 3 - 1) `min` (Z.of_nat j + h))%Z with 2%Z by lia.
  reflexivity.
Qed.

(** The loop over a window, on the windows that occur. *)
Lemma window_of_one (k w : string) (i : nat) (m : matrix) :
  Corpus.count_window (Dict.enumerate ks) (length ks) k i m [w]
  = if decide (w ≠ k)
    then match Dict.get (Dict.enumerate ks) w with
         | Some x => Corpus.bump (length ks) x i m
         | None => Ok m
         end
    else Ok m.
Proof.
  unfold Corpus.count_window. csimpl.
  destruct (decide (w ≠ k)); [| reflexivity].
  destruct (Dict.get _ w); [| reflexivity].
  destruct (Corpus.bump _ _ _ _); reflexivity.
Qed.

Lemma window_of_two (k w w' : string) (i : nat) (m : matrix) :
  Corpus.count_window (Dict.enumerate ks) (length ks) k i m [w; w']
  = m' ← Corpus.count_window (Dict.enumerate ks) (length ks) k i m [w];
    Corpus.count_window (Dict.enumerate ks) (length ks) k i m' [w'].
Proof.
  unfold Corpus.count_window. csimpl.
  destruct (decide (w ≠ k)); [| reflexivity].
  destruct (Dict.get _ w); [| reflexivity].
  destruct (Corpus.bump _ _ _ _); reflexivity.
Qed.

Ltac decide_tokens :=
  repeat match goal with
  | |- context [decide (?x ≠ ?x)] =>
      rewrite (decide_False (P := x ≠ x)) by (intros H; apply H; reflexivity)
  | |- context [decide (?x ≠ ?y)] =>
      rewrite (decide_True (P := x ≠ y)) by congruence
  end.

Ltac run_windows id_A id_B id_C :=
  repeat first
    [ rewrite window_of_two | rewrite window_of_one | progress decide_tokens
    | rewrite id_A | rewrite id_B | rewrite id_C
    | rewrite bump_in_range by assumption | progress csimpl ].

(** With a half width of 2 or more every window is [A; B]: the last word
    of the sentence is in no window. *)
Lemma three_words_wide (window_size : Z) :
  (4 ≤ window_size)%Z →
  Corpus.count_cooccurences (Some (Dict.enumerate ks)) (length ks)
    [[A; B; C]] window_size
  = Ok (<[(b, c) := 1%Z]> (<[(a, c) := 1%Z]> (<[(a, b) := 1%Z]>
         (<[(b, a) := 1%Z]> ∅)))).
Proof.
  intros HW.
  pose proof (id_in_range _ _ id_A) as Ha.
  pose proof (id_in_range _ _ id_B) as Hb.
  pose proof (id_in_range _ _ id_C) as Hc.
  pose proof (ids_differ _ _ _ _ id_A id_B A_B) as Hab.
  pose proof (ids_differ _ _ _ _ id_A id_C A_C) as Hac.
  pose proof (ids_differ _ _ _ _ id_B id_C B_C) as Hbc.
  assert (Hh : (2 ≤ window_size `div` 2)%Z)
    by (apply Z.div_le_lower_bound; lia).
  unfold Corpus.count_cooccurences, Corpus.count_sentence. csimpl.
  unfold Corpus.count_position. csimpl. rewrite id_A, id_B, id_C.
  rewrite !windows_wide by (exact Hh || lia).
  run_windows id_A id_B id_C.
  rewrite ?lookup_insert_ne, ?lookup_empty by congruence. reflexivity.
Qed.

(** With a half width of 1 the windows are [A], [A; B] and [B]. *)
Lemma three_words_narrow (window_size : Z) :
  (2 ≤ window_size < 4)%Z →
  Corpus.count_cooccurences (Some (Dict.enumerate ks)) (length ks)
    [[A; B; C]] window_size
  = Ok (<[(b, c) := 1%Z]> (<[(a, b) := 1%Z]> ∅)).
Proof.
  intros HW.
  pose proof (id_in_range _ _ id_A) as Ha.
  pose proof (id_in_range _ _ id_B) as Hb.
  pose proof (id_in_range _ _ id_C) as Hc.
  pose proof (ids_differ _ _ _ _ id_A id_B A_B) as Hab.
  pose proof (ids_differ _ _ _ _ id_B id_C B_C) as Hbc.
  assert (Hh : (window_size `div` 2 = 1)%Z).
  { apply Z.le_antisymm;
      [apply Z.lt_succ_r, Z.div_lt_upper_bound; lia
      | apply Z.div_le_lower_bound; lia]. }
  unfold Corpus.count_cooccurences, Corpus.count_sentence. csimpl.
  unfold Corpus.count_position. csimpl. rewrite id_A, id_B, id_C, Hh.
  destruct windows_narrow as (-> & -> & ->).
  run_windows id_A id_B id_C.
  rewrite ?lookup_insert_ne, ?lookup_empty by congruence. reflexivity.
Qed.

(** C4 (as amended): for the sentence [A; B; C] of three distinct words of
    the vocabulary and a window size of 2 or more, the pass increments the
    cell (id(A), id(B)) exactly once and no cell of the diagonal; it
    increments the cell (id(B), id(A)) exactly once when the window size is
    4 or more, and never when it is 2 or 3. *)
Theorem C4_three_word_sentence_counts (window_size : Z) :
  (2 ≤ window_size)%Z →
  ∃ m : matrix,
    Corpus.count_cooccurences (Some (Dict.enumerate ks)) (length ks)
      [[A; B; C]] window_size = Ok m ∧
    m !! (a, b) = Some 1%Z ∧
    (∀ k, m !! (k, k) = None) ∧
    ((4 ≤ window_size)%Z → m !! (b, a) = Some 1%Z) ∧
    ((window_size < 4)%Z → m !! (b, a) = None).
Proof.
  intros HW.
  pose proof (ids_differ _ _ _ _ id_A id_B A_B) as Hab.
  pose proof (ids_differ _ _ _ _ id_A id_C A_C) as Hac.
  pose proof (ids_differ _ _ _ _ id_B id_C B_C) as Hbc.
  destruct (decide (4 ≤ window_size)%Z) as [Hw|Hw].
  - eexists. split; [apply three_words_wide; exact Hw |].
    split; [| split; [| split]].
    + rewrite lookup_insert_ne, lookup_insert_ne by congruence.
      apply lookup_insert_eq.
    + intros k. rewrite !lookup_insert_ne by congruence. apply lookup_empty.
    + intros _. rewrite !lookup_insert_ne by congruence.
      apply lookup_insert_eq.
    + lia.
  - eexists. split; [apply three_words_narrow; lia |].
    split; [| split; [| split]].
    + rewrite lookup_insert_ne by congruence. apply lookup_insert_eq.
    + intros k. rewrite !lookup_insert_ne by congruence. apply lookup_empty.
    + lia.
    + intros _. rewrite !lookup_insert_ne by congruence. apply lookup_empty.
Qed.

End ThreeWords.

(** C4 at work: the sentence [sat mat cat], window size 5. *)
Lemma C4_three_word_witness :
  ∃ m : matrix,
    Corpus.count_cooccurences (Some (Dict.enumerate ["cat"; "sat"; "mat"]%string))
      (length ["cat"; "sat"; "mat"]%string) [["sat"; "mat"; "cat"]%string] 5
    = Ok m ∧
    m !! (1, 2) = Some 1%Z ∧
    (∀ k, m !! (k, k) = None) ∧
    ((4 ≤ 5)%Z → m !! (2, 1) = Some 1%Z) ∧
    ((5 < 4)%Z → m !! (2, 1) = None).
Proof.
  refine (C4_three_word_sentence_counts ["cat"; "sat"; "mat"]%string _
            "sat" "mat" "cat" 1 2 0 _ _ _ _ _ _ 5 _).
  - apply (bool_decide_unpack _). reflexivity.
  - reflexivity.
  - reflexivity.
  - reflexivity.
  - discriminate.
  - discriminate.
  - discriminate.
  - lia.
Defined.

(** C4 (the claim as stated fails): with a window size of 2 the window of
    the first word ends before its right neighbour, and the cell
    (id(B), id(A)) is never incremented. *)
Lemma C4_window_of_two_skips_the_right_neighbour :
  Dict.get (Dict.enumerate ["a"; "b"; "c"]%string) "a" = Some 0 ∧
  Dict.get (Dict.enumerate ["a"; "b"; "c"]%string) "b" = Some 1 ∧
  ∃ m : matrix,
    Corpus.count_cooccurences (Some (Dict.enumerate ["a"; "b"; "c"]%string)) 3
      [["a"; "b"; "c"]%string] 2 = Ok m ∧
    m !! (1, 0) = None ∧
    m !! (0, 1) = Some 1%Z.
Proof.
  split; [reflexivity |]. split; [reflexivity |].
  eexists. split; [vm_compute; reflexivity |].
  split; reflexivity.
Qed.

(** ** The PPMI of a cell *)

Section PPMILoop.

Context {V : Type}.
Variable ppmi_value : Z → Z → Z → Z → V.

(** The cells that the PPMI loop fills are nonzero cells of the count
    matrix, each with the value computed from its own frequency, the total
    of the matrix and the counts of its two words. *)
Lemma compute_ppmi_cells (self : Corpus.t) (m : matrix)
    (ppmi : gmap (nat * nat) V) (i j : nat) (v : V) :
  Corpus.compute_ppmi ppmi_value self m = Ok ppmi →
  ppmi !! (i, j) = Some v →
  ∃ frequency index_i index_j,
    m !! (i, j) = Some frequency ∧ frequency ≠ 0%Z ∧
    Corpus.idx_to_word self !! i = Some index_i ∧
    Corpus.idx_to_word self !! j = Some index_j ∧
    v = ppmi_value frequency (Corpus.matrix_sum m)
          (Counter.get (Corpus.word_counts self) index_i)
          (Counter.get (Corpus.word_counts self) index_j).
Proof.
  unfold Corpus.compute_ppmi.
  set (P := λ (ij : nat * nat) (v : V),
    ∃ frequency index_i index_j,
      m !! ij = Some frequency ∧ frequency ≠ 0%Z ∧
      Corpus.idx_to_word self !! ij.1 = Some index_i ∧
      Corpus.idx_to_word self !! ij.2 = Some index_j ∧
      v = ppmi_value frequency (Corpus.matrix_sum m)
            (Counter.get (Corpus.word_counts self) index_i)
            (Counter.get (Corpus.word_counts self) index_j)).
  assert (Hcells : Forall (λ c : (nat * nat) * Z, m !! c.1 = Some c.2 ∧ c.2 ≠ 0%Z)
                     (Corpus.nonzero m)).
  { apply Forall_forall. intros [ij f] Hin. unfold Corpus.nonzero in Hin.
    apply list_elem_of_filter in Hin as [Hf Hin].
    apply elem_of_map_to_list in Hin. auto. }
  assert (Hacc : ∀ ij v, (∅ : gmap (nat * nat) V) !! ij = Some v → P ij v).
  { intros ij w Hw. rewrite lookup_empty in Hw. discriminate. }
  revert Hacc Hcells. generalize (∅ : gmap (nat * nat) V) as acc.
  generalize (Corpus.nonzero m) as cells.
  induction cells as [|[[i' j'] f] cells IH]; intros acc Hacc Hcells; csimpl.
  - intros [= <-] Hv. apply (Hacc (i, j) v Hv).
  - apply Forall_cons in Hcells as [[Hf Hnz] Hcells]. simpl in Hf, Hnz.
    destruct (Corpus.idx_to_word self !! i') as [wi|] eqn:Hi; [| discriminate].
    destruct (Corpus.idx_to_word self !! j') as [wj|] eqn:Hj; [| discriminate].
    csimpl. apply IH; [| exact Hcells].
    intros ij w Hw. destruct (decide ((i', j') = ij)) as [<-|Hne].
    + rewrite lookup_insert_eq in Hw. injection Hw as <-.
      exists f, wi, wj. auto.
    + rewrite lookup_insert_ne in Hw by exact Hne. apply Hacc. exact Hw.
Qed.

(** [np.nonzero] lists no cell twice. *)
Lemma nonzero_cells_NoDup (m : matrix) : NoDup (Corpus.nonzero m).*1.
Proof.
  unfold Corpus.nonzero.
  eapply sublist_NoDup; [apply (NoDup_fst_map_to_list m) |].
  apply fmap_sublist, sublist_filter.
Qed.

(** The body of the PPMI loop. *)
Abbreviation ppmi_step self total :=
  (λ (ppmi : gmap (nat * nat) V) (c : (nat * nat) * Z),
     let '(i, j) := c.1 in
     match Corpus.idx_to_word self !! i with
     | None => Raise IndexError
     | Some index_i =>
         match Corpus.idx_to_word self !! j with
         | None => Raise IndexError
         | Some index_j =>
             Ok (<[(i, j) := ppmi_value c.2 total
                               (Counter.get (Corpus.word_counts self) index_i)
                               (Counter.get (Corpus.word_counts self) index_j)]>
                   ppmi)
         end
     end).

Lemma ppmi_loop_other (self : Corpus.t) (total : Z) (ij : nat * nat)
    (cells : list ((nat * nat) * Z)) : ∀ acc ppmi,
  foldlM (ppmi_step self total) acc cells = Ok ppmi →
  ij ∉ cells.*1 → ppmi !! ij = acc !! ij.
Proof.
  induction cells as [|[[i' j'] f] cells IH]; intros acc ppmi; csimpl.
  - intros [= <-] _. reflexivity.
  - destruct (Corpus.idx_to_word self !! i') as [wi|]; [| discriminate].
    destruct (Corpus.idx_to_word self !! j') as [wj|]; [| discriminate].
    csimpl. intros H Hno. apply not_elem_of_cons in Hno as [Hne Hno].
    rewrite (IH _ _ H Hno). apply lookup_insert_ne. congruence.
Qed.

Lemma ppmi_loop_cell (self : Corpus.t) (total : Z) (i j : nat) (f : Z)
    (cells : list ((nat * nat) * Z)) : ∀ acc ppmi,
  NoDup cells.*1 →
  foldlM (ppmi_step self total) acc cells = Ok ppmi →
  ((i, j), f) ∈ cells →
  ∃ index_i index_j,
    Corpus.idx_to_word self !! i = Some index_i ∧
    Corpus.idx_to_word self !! j = Some index_j ∧
    ppmi !! (i, j)
    = Some (ppmi_value f total
              (Counter.get (Corpus.word_counts self) index_i)
              (Counter.get (Corpus.word_counts self) index_j)).
Proof.
  induction cells as [|[[i' j'] f'] cells IH]; intros acc ppmi Hnd; csimpl.
  - intros _ Hin. apply elem_of_nil in Hin. contradiction.
  - apply NoDup_cons in Hnd as [Hfresh Hnd].
    destruct (Corpus.idx_to_word self !! i') as [wi|] eqn:Hi; [| discriminate].
    destruct (Corpus.idx_to_word self !! j') as [wj|] eqn:Hj; [| discriminate].
    csimpl. intros H Hin. apply elem_of_cons in Hin as [[= <- <- <-]|Hin].
    + exists wi, wj. split; [exact Hi |]. split; [exact Hj |].
      simpl in Hfresh.
      rewrite (ppmi_loop_other self total (i, j) cells _ _ H Hfresh).
      apply lookup_insert_eq.
    + apply (IH _ _ Hnd H Hin).
Qed.

(** Every nonzero cell of the count matrix gets its value. *)
Lemma compute_ppmi_lookup (self : Corpus.t) (m : matrix)
    (ppmi : gmap (nat * nat) V) (i j : nat) (frequency : Z) :
  Corpus.compute_ppmi ppmi_value self m = Ok ppmi →
  m !! (i, j) = Some frequency → frequency ≠ 0%Z →
  ∃ index_i index_j,
    Corpus.idx_to_word self !! i = Some index_i ∧
    Corpus.idx_to_word self !! j = Some index_j ∧
    ppmi !! (i, j)
    = Some (ppmi_value frequency (Corpus.matrix_sum m)
              (Counter.get (Corpus.word_counts self) index_i)
              (Counter.get (Corpus.word_counts self) index_j)).
Proof.
  unfold Corpus.compute_ppmi. intros H Hf Hnz.
  apply (ppmi_loop_cell _ _ _ _ _ _ _ _ (nonzero_cells_NoDup m) H).
  unfold Corpus.nonzero. apply list_elem_of_filter. split; [exact Hnz |].
  apply elem_of_map_to_list. exact Hf.
Qed.

End PPMILoop.

Section PPMIFacts.

Local Open Scope float_scope.

Variable log2 : float → float.

Lemma clip_cases (pmi : float) :
  (PPMI.clip pmi = 0 ∨ (0 <? PPMI.clip pmi) = true) ∧
  (PPMI.clip pmi = 0 ↔ (0 <? pmi) = false).
Proof.
  unfold PPMI.clip. destruct (0 <? pmi) eqn:E.
  - split; [right; exact E |]. split; [| discriminate].
    intros ->. vm_compute in E. discriminate.
  - split; [left; reflexivity |]. split; reflexivity.
Qed.

Lemma ppmi_value_cases (frequency total count_i count_j : Z) :
  ((0 <? PPMI.denominator frequency total count_i count_j) = true →
   PPMI.value log2 frequency total count_i count_j
   = PPMI.clip (PPMI.pmi log2 frequency total count_i count_j)) ∧
  ((0 <? PPMI.denominator frequency total count_i count_j) = false →
   PPMI.value log2 frequency total count_i count_j = 0).
Proof.
  unfold PPMI.value. destruct (0 <? PPMI.denominator _ _ _ _);
    split; intros H; try reflexivity; discriminate.
Qed.

(** The value of a cell is 0 or above 0. *)
Lemma ppmi_value_nonneg (frequency total count_i count_j : Z) :
  PPMI.value log2 frequency total count_i count_j = 0
  ∨ (0 <? PPMI.value log2 frequency total count_i count_j) = true.
Proof.
  unfold PPMI.value. destruct (0 <? PPMI.denominator _ _ _ _).
  - apply clip_cases.
  - left. reflexivity.
Qed.

Lemma ppmi_value_zero (frequency total count_i count_j : Z) :
  PPMI.value log2 frequency total count_i count_j = 0
  ↔ (0 <? PPMI.pmi log2 frequency total count_i count_j) = false
    ∨ (0 <? PPMI.denominator frequency total count_i count_j) = false.
Proof.
  unfold PPMI.value. destruct (0 <? PPMI.denominator _ _ _ _).
  - rewrite (proj2 (clip_cases _)). split; [auto |].
    intros [H|H]; [exact H | discriminate].
  - split; [auto | reflexivity].
Qed.

(** C9 (as amended): when [collocations] has built the count matrix and
    run the PPMI loop, and no cell takes [math.log] out of its domain,
    then for every nonzero cell (i, j) of the count matrix the value read
    at [ppmi[i, j]] is 0 or above 0; it is max(0, log2(joint / (p_i * p_j)))
    when p_i * p_j > 0 and 0 otherwise, all in binary64; hence it is 0
    exactly when the computed log ratio is not above 0 (it is negative,
    zero or no number) or the denominator is not positive.  No other cell
    of [ppmi] is stored. *)
Theorem C9_ppmi_values_are_clipped (self : Corpus.t)
    (corpus : list (list string)) (window_size : Z) (cooccurences : matrix)
    (ppmi : gmap (nat * nat) float) :
  Corpus.collocations_locals (PPMI.value log2) self corpus window_size
  = Ok (cooccurences, ppmi) →
  (∀ i j frequency index_i index_j,
     cooccurences !! (i, j) = Some frequency → frequency ≠ 0%Z →
     Corpus.idx_to_word self !! i = Some index_i →
     Corpus.idx_to_word self !! j = Some index_j →
     PPMI.in_domain frequency (Corpus.matrix_sum cooccurences)
       (Counter.get (Corpus.word_counts self) index_i)
       (Counter.get (Corpus.word_counts self) index_j) = true) →
  (∀ i j frequency,
     cooccurences !! (i, j) = Some frequency → frequency ≠ 0%Z →
     ∃ index_i index_j v,
       Corpus.idx_to_word self !! i = Some index_i ∧
       Corpus.idx_to_word self !! j = Some index_j ∧
       PPMI.read ppmi (i, j) = v ∧
       (v = 0 ∨ (0 <? v) = true) ∧
       ((0 <? PPMI.denominator frequency (Corpus.matrix_sum cooccurences)
                (Counter.get (Corpus.word_counts self) index_i)
                (Counter.get (Corpus.word_counts self) index_j)) = true →
        v = PPMI.clip
              (PPMI.pmi log2 frequency (Corpus.matrix_sum cooccurences)
                 (Counter.get (Corpus.word_counts self) index_i)
                 (Counter.get (Corpus.word_counts self) index_j))) ∧
       ((0 <? PPMI.denominator frequency (Corpus.matrix_sum cooccurences)
                (Counter.get (Corpus.word_counts self) index_i)
                (Counter.get (Corpus.word_counts self) index_j)) = false →
        v = 0) ∧
       (v = 0 ↔
        (0 <? PPMI.pmi log2 frequency (Corpus.matrix_sum cooccurences)
                (Counter.get (Corpus.word_counts self) index_i)
                (Counter.get (Corpus.word_counts self) index_j)) = false
        ∨ (0 <? PPMI.denominator frequency (Corpus.matrix_sum cooccurences)
                  (Counter.get (Corpus.word_counts self) index_i)
                  (Counter.get (Corpus.word_counts self) index_j)) = false)) ∧
  (∀ i j v, ppmi !! (i, j) = Some v →
     ∃ frequency, cooccurences !! (i, j) = Some frequency ∧ frequency ≠ 0%Z).
Proof.
  unfold Corpus.collocations_locals. intros H _.
  destruct (Corpus.count_cooccurences _ _ _ _) as [m|]; [| discriminate].
  csimpl in H.
  destruct (Corpus.compute_ppmi _ _ _) as [p|] eqn:Hp; [| discriminate].
  csimpl in H. injection H as <- <-. split.
  - intros i j f Hf Hnz.
    destruct (compute_ppmi_lookup _ _ _ _ _ _ _ Hp Hf Hnz)
      as (wi & wj & Hi & Hj & Hv).
    exists wi, wj, (PPMI.value log2 f (Corpus.matrix_sum m)
                      (Counter.get (Corpus.word_counts self) wi)
                      (Counter.get (Corpus.word_counts self) wj)).
    split; [exact Hi |]. split; [exact Hj |].
    split; [unfold PPMI.read; rewrite Hv; reflexivity |].
    split; [apply ppmi_value_nonneg |].
    split; [apply ppmi_value_cases |].
    split; [apply ppmi_value_cases | apply ppmi_value_zero].
  - intros i j v Hv.
    destruct (compute_ppmi_cells _ _ _ _ _ _ _ Hp Hv) as (f & _ & _ & Hf & Hnz & _).
    eauto.
Qed.

(** Rounding decides the sign of a log ratio: for a cell of frequency 1 in
    a matrix of total 45, between words counted 3 and 15 times, the exact
    ratio is 1, the ratio in binary64 is the next number above 1, and the
    value of the cell is the logarithm of that number where it is above 0. *)
Lemma ppmi_rounded_ratio :
  PPMI.ratio 1 45 3 15 = 0x1.0000000000001p+0 ∧
  ((0 <? log2 0x1.0000000000001p+0) = true →
   PPMI.value log2 1 45 3 15 = log2 0x1.0000000000001p+0).
Proof.
  assert (E : PPMI.ratio 1 45 3 15 = 0x1.0000000000001p+0)
    by (vm_compute; reflexivity).
  split; [exact E |]. intros Hpos.
  destruct (ppmi_value_cases 1 45 3 15) as [Hv _].
  rewrite Hv by (vm_compute; reflexivity).
  unfold PPMI.clip, PPMI.pmi. rewrite E, Hpos. reflexivity.
Qed.

End PPMIFacts.

(** A corpus of the single sentence [a b], ready for [collocations]: the
    pass counts one co-occurrence, in the cell (0, 1). *)
Definition ab_corpus : Corpus.t :=
  Corpus.with_sentences [["a"; "b"]%string]
    (Corpus.with_vocab_size 2
       (Corpus.with_vocabulary (Dict.enumerate ["a"; "b"]%string)
          ["a"; "b"]%string
          (Corpus.with_word_counts [("a", 1); ("b", 1)]%string%Z
             (Corpus.empty 0 "out")))).

Definition ab_counts : matrix := {[ (0, 1) := 1%Z ]}.

Lemma ab_collocations {V : Type} (ppmi_value : Z → Z → Z → Z → V) :
  Corpus.collocations_locals ppmi_value ab_corpus (Corpus.sentences ab_corpus) 10
  = Ok (ab_counts, {[ (0, 1) := ppmi_value 1%Z 1%Z 1%Z 1%Z ]}).
Proof. vm_compute. reflexivity. Qed.

(** The only cell of [ab_counts], and the words of its indices. *)
Lemma ab_cell (i j : nat) (frequency : Z) (index_i index_j : string) :
  ab_counts !! (i, j) = Some frequency →
  Corpus.idx_to_word ab_corpus !! i = Some index_i →
  Corpus.idx_to_word ab_corpus !! j = Some index_j →
  i = 0 ∧ j = 1 ∧ frequency = 1%Z ∧ index_i = "a"%string ∧ index_j = "b"%string.
Proof.
  unfold ab_counts. intros H Hi Hj.
  apply lookup_singleton_Some in H as [[= <- <-] <-].
  vm_compute in Hi, Hj. injection Hi as <-. injection Hj as <-. auto.
Qed.

(** The cell of one co-occurrence between two words that occur once:
    every quotient is 1, the logarithm is taken of 1 and is 0. *)
Lemma ppmi_unit_cell :
  PPMI.denominator 1 1 1 1 = 1%float ∧ PPMI.ratio 1 1 1 1 = 1%float ∧
  PPMI.pmi Examples.log2 1 1 1 1 = 0%float ∧
  PPMI.value Examples.log2 1 1 1 1 = 0%float ∧
  PPMI.in_domain 1 1 1 1 = true.
Proof. vm_compute. auto. Qed.

(** C9 at work: the only cell of the corpus of the sentence [a b]. *)
Lemma C9_ppmi_witness :
  (∀ i j frequency,
     ab_counts !! (i, j) = Some frequency → frequency ≠ 0%Z →
     ∃ index_i index_j v,
       Corpus.idx_to_word ab_corpus !! i = Some index_i ∧
       Corpus.idx_to_word ab_corpus !! j = Some index_j ∧
       PPMI.read {[ (0, 1) := PPMI.value Examples.log2 1 1 1 1 ]} (i, j) = v ∧
       (v = 0%float ∨ (0 <? v)%float = true) ∧
       ((0 <? PPMI.denominator frequency (Corpus.matrix_sum ab_counts)
                (Counter.get (Corpus.word_counts ab_corpus) index_i)
                (Counter.get (Corpus.word_counts ab_corpus) index_j))%float
        = true →
        v = PPMI.clip
              (PPMI.pmi Examples.log2 frequency (Corpus.matrix_sum ab_counts)
                 (Counter.get (Corpus.word_counts ab_corpus) index_i)
                 (Counter.get (Corpus.word_counts ab_corpus) index_j))) ∧
       ((0 <? PPMI.denominator frequency (Corpus.matrix_sum ab_counts)
                (Counter.get (Corpus.word_counts ab_corpus) index_i)
                (Counter.get (Corpus.word_counts ab_corpus) index_j))%float
        = false →
        v = 0%float) ∧
       (v = 0%float ↔
        (0 <? PPMI.pmi Examples.log2 frequency (Corpus.matrix_sum ab_counts)
                (Counter.get (Corpus.word_counts ab_corpus) index_i)
                (Counter.get (Corpus.word_counts ab_corpus) index_j))%float
        = false
        ∨ (0 <? PPMI.denominator frequency (Corpus.matrix_sum ab_counts)
                  (Counter.get (Corpus.word_counts ab_corpus) index_i)
                  (Counter.get (Corpus.word_counts ab_corpus) index_j))%float
          = false)) ∧
  (∀ i j v,
     ({[ (0, 1) := PPMI.value Examples.log2 1 1 1 1 ]}
        : gmap (nat * nat) float) !! (i, j) = Some v →
     ∃ frequency, ab_counts !! (i, j) = Some frequency ∧ frequency ≠ 0%Z).
Proof.
  apply (C9_ppmi_values_are_clipped Examples.log2 ab_corpus
           (Corpus.sentences ab_corpus) 10 ab_counts
           {[ (0, 1) := PPMI.value Examples.log2 1 1 1 1 ]}).
  - apply (ab_collocations (PPMI.value Examples.log2)).
  - intros i j frequency index_i index_j H _ Hi Hj.
    destruct (ab_cell i j frequency index_i index_j H Hi Hj)
      as (-> & -> & -> & -> & ->).
    vm_compute. reflexivity.
Defined.

(** C9 (the claim as stated fails): in the corpus of the single sentence
    [a b] the only nonzero cell has frequency 1, total 1 and counts 1 and 1.
    Its log ratio is log2(1) = 0, which is not negative, its denominator is
    1, which is positive, and its PPMI value is 0. *)
Lemma C9_zero_log_ratio_is_clipped_to_zero :
  Corpus.collocations_locals (PPMI.value Examples.log2) ab_corpus
    (Corpus.sentences ab_corpus) 10
  = Ok (ab_counts, {[ (0, 1) := PPMI.value Examples.log2 1 1 1 1 ]}) ∧
  PPMI.in_domain 1 1 1 1 = true ∧
  ¬ (PPMI.value Examples.log2 1 1 1 1 = 0%float
     ↔ (PPMI.pmi Examples.log2 1 1 1 1 <? 0)%float = true
       ∨ (0 <? PPMI.denominator 1 1 1 1)%float = false).
Proof.
  split; [apply (ab_collocations (PPMI.value Examples.log2)) |].
  destruct ppmi_unit_cell as (Hd & _ & Hp & Hv & Hdom).
  split; [exact Hdom |].
  intros [H _]. destruct (H Hv) as [H'|H'].
  - rewrite Hp in H'. vm_compute in H'. discriminate.
  - rewrite Hd in H'. vm_compute in H'. discriminate.
Qed.

(** ** The construction completes on readable files *)

Lemma foldlM_invariant {A B} (f : B → A → result B) (P : B → Prop)
    (l : list A) : ∀ b,
  (∀ b x, P b → ∃ b', f b x = Ok b' ∧ P b') →
  P b → ∃ b', foldlM f b l = Ok b' ∧ P b'.
Proof.
  induction l as [|x l IH]; intros b Hf Hb; csimpl; [eauto |].
  destruct (Hf b x Hb) as (b1 & -> & Hb1). csimpl. apply IH; assumption.
Qed.

(** The cells of a matrix of shape [(n, n)]. *)
Definition cells_within (n : nat) (m : matrix) : Prop :=
  ∀ i j v, m !! (i, j) = Some v → i < n ∧ j < n.

Section Completes.

Variable word_to_idx : Dict.t nat.
Variable n : nat.
Hypothesis ids_below : ∀ w x, Dict.get word_to_idx w = Some x → x < n.

Lemma bump_within (x y : nat) (m : matrix) :
  x < n → y < n → cells_within n m →
  ∃ m', Corpus.bump n x y m = Ok m' ∧ cells_within n m'.
Proof.
  intros Hx Hy Hm. unfold Corpus.bump. rewrite decide_True by auto.
  eexists. split; [reflexivity |]. intros i j v Hv.
  destruct (decide ((x, y) = (i, j))) as [[= <- <-]|Hne]; [auto |].
  rewrite lookup_insert_ne in Hv by exact Hne. eapply Hm. exact Hv.
Qed.

Lemma count_window_within (k : string) (y : nat) (m : matrix)
    (occurences : list string) :
  y < n → cells_within n m →
  ∃ m', Corpus.count_window word_to_idx n k y m occurences = Ok m' ∧
        cells_within n m'.
Proof.
  intros Hy Hm. unfold Corpus.count_window.
  apply (foldlM_invariant _ (cells_within n)); [| exact Hm].
  intros m0 l Hm0. destruct (decide (l ≠ k)); [| eauto].
  destruct (Dict.get word_to_idx l) as [x|] eqn:Hx; [| eauto].
  apply bump_within; eauto.
Qed.

Lemma count_sentence_within (window_size : Z) (m : matrix) (i : list string) :
  cells_within n m →
  ∃ m', Corpus.count_sentence word_to_idx n window_size m i = Ok m' ∧
        cells_within n m'.
Proof.
  intros Hm. unfold Corpus.count_sentence.
  apply (foldlM_invariant _ (cells_within n)); [| exact Hm].
  intros m0 [j k] Hm0. unfold Corpus.count_position. simpl.
  destruct (Dict.get word_to_idx k) as [y|] eqn:Hy; [| eauto].
  apply count_window_within; eauto.
Qed.

(** The windowing pass never raises when the ids fit the shape. *)
Lemma count_cooccurences_within (corpus : list (list string)) (window_size : Z) :
  ∃ m, Corpus.count_cooccurences (Some word_to_idx) n corpus window_size = Ok m ∧
       cells_within n m.
Proof.
  unfold Corpus.count_cooccurences.
  apply (foldlM_invariant _ (cells_within n)).
  - intros m i Hm. apply count_sentence_within. exact Hm.
  - intros i j v Hv. rewrite lookup_empty in Hv. discriminate.
Qed.

End Completes.

(** The PPMI loop never raises when [idx_to_word] covers the shape. *)
Lemma compute_ppmi_within {V : Type} (ppmi_value : Z → Z → Z → Z → V)
    (self : Corpus.t) (m : matrix) :
  cells_within (length (Corpus.idx_to_word self)) m →
  ∃ ppmi, Corpus.compute_ppmi ppmi_value self m = Ok ppmi.
Proof.
  intros Hm. unfold Corpus.compute_ppmi.
  assert (Hcells : Forall (λ c : (nat * nat) * Z,
                      c.1.1 < length (Corpus.idx_to_word self) ∧
                      c.1.2 < length (Corpus.idx_to_word self))
                     (Corpus.nonzero m)).
  { apply Forall_forall. intros [[i j] f] Hin. unfold Corpus.nonzero in Hin.
    apply list_elem_of_filter in Hin as [_ Hin].
    apply elem_of_map_to_list in Hin. simpl. eapply Hm. exact Hin. }
  revert Hcells. generalize (∅ : gmap (nat * nat) V) as acc.
  generalize (Corpus.nonzero m) as cells.
  induction cells as [|[[i j] f] cells IH]; intros acc Hcells; csimpl; [eauto |].
  apply Forall_cons in Hcells as [[Hi Hj] Hcells]. simpl in Hi, Hj.
  apply lookup_lt_is_Some_2 in Hi as [wi ->].
  apply lookup_lt_is_Some_2 in Hj as [wj ->].
  csimpl. apply IH. exact Hcells.
Qed.

(** The construction of a corpus raises only when a file cannot be
    opened. *)
Lemma init_completes (word_tokenize : string → list string)
    (english_stopwords : list string) (fs : string → result (list string))
    {V : Type} (ppmi_value : Z → Z → Z → Z → V)
    (reference output : string) (focus : option string)
    (floor window_size : Z) (self : Corpus.t) :
  Corpus.load word_tokenize english_stopwords fs reference output focus floor
  = Ok self →
  ∃ c, Corpus.init word_tokenize english_stopwords fs ppmi_value
         reference output focus floor window_size = Ok c.
Proof.
  intros Hload. unfold Corpus.init. rewrite Hload. csimpl.
  apply load_ok in Hload as ((Hnd & _) & Hwti & Hitw & _).
  unfold Corpus.run_collocations, Corpus.collocations_locals. simpl.
  rewrite Hwti.
  destruct (count_cooccurences_within
              (Dict.enumerate (Dict.keys (Corpus.word_counts self)))
              (length (Corpus.word_counts self))) with
    (corpus := Corpus.sentences self) (window_size := window_size)
    as (m & -> & Hm).
  { intros w x Hx. apply dict_enumerate_get in Hx; [| exact Hnd].
    apply lookup_lt_Some in Hx. rewrite keys_length in Hx. exact Hx. }
  csimpl.
  destruct (compute_ppmi_within ppmi_value
              (Corpus.with_vocab_size (length (Corpus.word_counts self)) self) m)
    as [p Hp].
  { simpl. rewrite Hitw, keys_length. exact Hm. }
  rewrite Hp. csimpl. eauto.
Qed.

Lemma load_completes (word_tokenize : string → list string)
    (english_stopwords : list string) (fs : string → result (list string))
    (reference output focus : string) (floor : Z) (f g : list string) :
  fs reference = Ok f → fs focus = Ok g →
  (∃ c, Corpus.load word_tokenize english_stopwords fs reference output None floor
        = Ok c) ∧
  (∃ c, Corpus.load word_tokenize english_stopwords fs reference output
          (Some focus) floor = Ok c).
Proof.
  intros Hf Hg. unfold Corpus.load.
  rewrite (get_documents_readable _ _ _ _ _ _ f Hf) by apply counter_wf_nil.
  csimpl. split; [eauto |].
  destruct (decide (focus = EmptyString)); [eauto |].
  rewrite (get_documents_readable _ _ _ _ _ _ g Hg).
  - csimpl. eauto.
  - apply (after_get_documents_ok word_tokenize english_stopwords
             (Corpus.empty floor output) f Reference); apply empty_ok.
Qed.

(** * Further properties *)

(** ** Document.init_partition in exact arithmetic: the number of clusters *)

Section CRPShapes.

Local Open Scope Q_scope.

Lemma nonempty_clusters_length (p : list (list nat)) :
  Forall (λ c, c ≠ []) p → (length p <= length (concat p))%nat.
Proof.
  induction 1 as [|c p Hc _ IH]; simpl; [lia |].
  rewrite length_app. destruct c; [contradiction | simpl; lia].
Qed.

(** The number of clusters of a new document is at most the number of its
    words, and at least one when there is a word. *)
Theorem init_partition_cluster_count (alpha : Q) (random : nat → Q)
    (idx : nat) (doc : list nat) (category : origin) (d : Document.t) :
  0 < alpha →
  Document.init_partition alpha random (Document.init idx doc category) = Ok d →
  (length (Document.partition d) <= length doc)%nat ∧
  (doc ≠ [] → (1 <= length (Document.partition d))%nat).
Proof.
  intros Ha H. apply init_partition_ok in H as (_ & Hperm & Hne); [| exact Ha].
  split.
  - rewrite <- Hperm. apply nonempty_clusters_length. exact Hne.
  - intros Hdoc. destruct (Document.partition d) as [|c p]; [| simpl; lia].
    simpl in Hperm. apply Permutation_nil in Hperm. congruence.
Qed.

(** With [alpha = 0] the first word of a document divides by zero, whatever
    the draw and whatever the partition so far. *)
Theorem init_partition_alpha_zero (alpha : Q) (random : nat → Q)
    (self : Document.t) :
  alpha == 0 → Document.words self ≠ [] →
  Document.init_partition alpha random self = Raise ZeroDivisionError.
Proof.
  intros Ha Hw. unfold Document.init_partition.
  destruct (Document.words self) as [|w ws]; [contradiction |]. simpl.
  unfold Document.place.
  assert (E : Qeq_bool (Qnat 1 + alpha - 1) 0 = true).
  { apply Qeq_bool_iff. rewrite Ha. reflexivity. }
  rewrite E. reflexivity.
Qed.

End CRPShapes.

(** ** Document.init_partition in binary64: what a call can do *)

Section Binary64Facts.

Local Open Scope float_scope.

Implicit Types (alpha table : float) (p : list (list nat)).

Lemma binary64_existing_priors alpha (N : nat) p :
  (Binary64.denominator alpha N =? 0) = false →
  mapM (λ c : list nat,
          Binary64.truediv (Binary64.of_nat (length c))
            (Binary64.denominator alpha N)) p
  = Ok ((λ c : list nat,
           Binary64.of_nat (length c) / Binary64.denominator alpha N) <$> p).
Proof.
  intros Hd. induction p as [|c p IH]; [reflexivity |].
  cbn [mapM]. rewrite IH. unfold Binary64.truediv. rewrite Hd. reflexivity.
Qed.

(** The priors are computed unless [N+alpha-1] is a zero; then the first
    division raises, that of the first cluster or that of the new one. *)
Lemma binary64_priors alpha (N : nat) p :
  ((Binary64.denominator alpha N =? 0) = true ∧
   Binary64.priors alpha N p = Raise ZeroDivisionError) ∨
  ((Binary64.denominator alpha N =? 0) = false ∧
   ∃ prior, length prior = S (length p) ∧
            Binary64.priors alpha N p = Ok prior).
Proof.
  unfold Binary64.priors.
  destruct (Binary64.denominator alpha N =? 0) eqn:Hd; [left | right].
  - split; [reflexivity |].
    destruct p as [|c p]; cbn [mapM]; unfold Binary64.truediv; rewrite Hd;
      reflexivity.
  - split; [reflexivity |]. rewrite binary64_existing_priors by exact Hd.
    unfold Binary64.truediv. rewrite Hd.
    eexists. split; [| reflexivity].
    rewrite length_app, length_fmap. simpl. lia.
Qed.

(** The walk appends the word to a cluster that is there, or raises
    [IndexError] past the last cluster, or ends without a [break] and
    leaves the partition as it is. *)
Lemma binary64_walk (prior : list float) table (i : nat) p :
  ∀ (j : nat) (curr : float),
    Binary64.walk prior j curr table i p = Raise IndexError ∨
    Binary64.walk prior j curr table i p = Ok p ∨
    ∃ k c, p !! k = Some c ∧
           Binary64.walk prior j curr table i p = Ok (<[k := c ++ [i]]> p).
Proof.
  induction prior as [|q prior IH]; intros j curr; simpl; [auto |].
  destruct (table <? curr + q); [| apply IH].
  destruct (p !! j) as [c|] eqn:Hj; [| auto]. right. right. eauto.
Qed.

(** What a step does to the partition. *)
Inductive step (i : nat) p : list (list nat) → list nat → Prop :=
  | step_new : step i p (p ++ [[i]]) [i]
  | step_join k c : p !! k = Some c → step i p (<[k := c ++ [i]]> p) [i]
  | step_skip : step i p p [].

Lemma binary64_place alpha (N : nat) table (i : nat) p :
  ((Binary64.denominator alpha N =? 0) = true ∧
   Binary64.place alpha N table i p = Raise ZeroDivisionError) ∨
  ((Binary64.denominator alpha N =? 0) = false ∧
   (Binary64.place alpha N table i p = Raise IndexError ∨
    ∃ p' placed, Binary64.place alpha N table i p = Ok p' ∧
                 step i p p' placed)).
Proof.
  unfold Binary64.place.
  destruct (binary64_priors alpha N p) as [[Hd ->]|(Hd & prior & _ & ->)];
    [left; auto | right].
  split; [exact Hd |]. csimpl.
  destruct (Binary64.sum (Document.but_last prior) <? table).
  - right. exists (p ++ [[i]]), [i]. split; [reflexivity | constructor].
  - destruct (binary64_walk prior table i p 0%nat 0)
      as [->|[->|(k & c & Hk & ->)]]; [auto | right.. ].
    + exists p, []. split; [reflexivity | constructor].
    + exists (<[k := c ++ [i]]> p), [i]. split; [reflexivity |].
      constructor. exact Hk.
Qed.

Lemma step_facts (i : nat) p p' (placed : list nat) :
  step i p p' placed →
  placed `sublist_of` [i] ∧
  concat p' ≡ₚ concat p ++ placed ∧
  (length p ≤ length p')%nat ∧
  (length p' ≤ length p + length placed)%nat ∧
  (Forall (λ c, c ≠ []) p → Forall (λ c, c ≠ []) p').
Proof.
  intros [|k c Hk|].
  - split; [reflexivity |]. split; [rewrite concat_app; simpl; reflexivity |].
    rewrite length_app. simpl. split; [lia |]. split; [lia |].
    intros Hp. apply Forall_app. split; [exact Hp |].
    constructor; [discriminate | constructor].
  - split; [reflexivity |]. split; [apply concat_insert_snoc; exact Hk |].
    rewrite length_insert. split; [lia |]. split; [simpl; lia |].
    intros Hp. apply Forall_insert; [exact Hp |].
    intros E. apply app_eq_nil in E as [_ E]. discriminate.
  - split; [apply sublist_nil_l |]. rewrite app_nil_r. auto with lia.
Qed.

Lemma binary64_place_all alpha (random : nat → float) (ws : list nat) :
  ∀ (N : nat) p p',
    Binary64.place_all alpha random ws N p = Ok p' →
    ∃ placed,
      placed `sublist_of` ws ∧
      concat p' ≡ₚ concat p ++ placed ∧
      (length p ≤ length p')%nat ∧
      (length p' ≤ length p + length placed)%nat ∧
      (Forall (λ c, c ≠ []) p → Forall (λ c, c ≠ []) p').
Proof.
  induction ws as [|i ws IH]; intros N p p'; cbn [Binary64.place_all].
  - intros [= <-]. exists []. rewrite app_nil_r. auto with lia.
  - destruct (binary64_place alpha (S N) (random (S N - 1)%nat) i p)
      as [[_ ->]|[_ [->|(p1 & placed1 & -> & Hstep)]]];
      [discriminate.. |].
    csimpl. intros H. apply IH in H as (placed & Hsub & Hperm & H1 & H2 & Hne).
    apply step_facts in Hstep as (Hsub1 & Hperm1 & H3 & H4 & Hne1).
    exists (placed1 ++ placed). split.
    { change (i :: ws) with ([i] ++ ws). apply sublist_app; assumption. }
    split; [rewrite Hperm, Hperm1, <- app_assoc; reflexivity |].
    rewrite length_app. split; [lia |]. split; [lia | auto].
Qed.

Lemma binary64_place_all_raises alpha (random : nat → float) (ws : list nat) :
  ∀ (N : nat) p e,
    Binary64.place_all alpha random ws N p = Raise e →
    e = IndexError ∨
    e = ZeroDivisionError ∧
    ∃ M, (N < M ≤ N + length ws)%nat ∧
         (Binary64.denominator alpha M =? 0) = true.
Proof.
  induction ws as [|i ws IH]; intros N p e; cbn [Binary64.place_all];
    [discriminate |].
  destruct (binary64_place alpha (S N) (random (S N - 1)%nat) i p)
    as [[Hd ->]|[_ [->|(p1 & placed1 & -> & _)]]]; csimpl.
  - intros [= <-]. right. split; [reflexivity |]. exists (S N). split; [lia | exact Hd].
  - intros [= <-]. left. reflexivity.
  - intros H. apply IH in H as [->|[-> (M & HM & Hd)]]; [auto |].
    right. split; [reflexivity |]. exists M. split; [lia | exact Hd].
Qed.

Lemma init_partition_extends_aux alpha (random : nat → float)
    (self d : Document.t) :
  Binary64.init_partition alpha random self = Ok d →
  ∃ placed,
    placed `sublist_of` Document.words self ∧
    concat (Document.partition d)
      ≡ₚ concat (Document.partition self) ++ placed ∧
    (length (Document.partition self) ≤ length (Document.partition d))%nat ∧
    (length (Document.partition d)
     ≤ length (Document.partition self) + length placed)%nat ∧
    (Forall (λ c, c ≠ []) (Document.partition self) →
     Forall (λ c, c ≠ []) (Document.partition d)) ∧
    Document.words d = Document.words self ∧
    Document.idx d = Document.idx self ∧
    Document.category d = Document.category self ∧
    Document.topic_to_global_idx d = Document.topic_to_global_idx self.
Proof.
  unfold Binary64.init_partition.
  destruct (Binary64.place_all _ _ _ _ _) as [p|e] eqn:E; [| discriminate].
  csimpl. intros [= <-]. simpl.
  apply binary64_place_all in E as (placed & H1 & H2 & H3 & H4 & H5).
  exists placed. auto 10.
Qed.


(** A call of [init_partition] raises nothing but [IndexError] and
    [ZeroDivisionError].  It raises [ZeroDivisionError] only when
    [N+alpha-1] is a zero for some count [N] of the document, and it does
    raise it at the first word when [1+alpha-1] is a zero, whatever the
    draws and the partition. *)
Theorem init_partition_outcome alpha (random : nat → float)
    (self : Document.t) :
  (∀ e, Binary64.init_partition alpha random self = Raise e →
        e = IndexError ∨ e = ZeroDivisionError) ∧
  (Binary64.init_partition alpha random self = Raise ZeroDivisionError →
   ∃ N, (1 ≤ N ≤ length (Document.words self))%nat ∧
        (Binary64.denominator alpha N =? 0) = true) ∧
  ((Binary64.denominator alpha 1 =? 0) = true →
   Document.words self ≠ [] →
   Binary64.init_partition alpha random self = Raise ZeroDivisionError).
Proof.
  unfold Binary64.init_partition. split; [| split].
  - intros e.
    destruct (Binary64.place_all _ _ _ _ _) as [p|e'] eqn:E; [discriminate |].
    csimpl. intros [= <-].
    apply binary64_place_all_raises in E as [->|[-> _]]; auto.
  - destruct (Binary64.place_all _ _ _ _ _) as [p|e'] eqn:E; [discriminate |].
    csimpl. intros [= ->].
    apply binary64_place_all_raises in E as [E|[_ (M & HM & Hd)]];
      [discriminate |].
    exists M. split; [lia | exact Hd].
  - intros Hd Hw. destruct (Document.words self) as [|i ws]; [contradiction |].
    cbn [Binary64.place_all].
    destruct (binary64_place alpha 1 (random (1 - 1)%nat) i
                (Document.partition self)) as [[_ ->]|[Hd' _]];
      [reflexivity | congruence].
Qed.

(** The first word with an [alpha] below 2^-53, which [1+alpha-1] rounds
    to 0, and with an infinite [alpha], whose prior is no number: at the
    draw 0.0 the word is left out. *)
Lemma binary64_first_word :
  (Binary64.denominator 0x1p-60 1 =? 0) = true ∧
  Binary64.init_partition 0x1p-60 (λ _, 0.5) (Document.init 0 [7%nat] Reference)
  = Raise ZeroDivisionError ∧
  Binary64.init_partition infinity (λ _, 0) (Document.init 0 [7%nat] Reference)
  = Ok (Document.init 0 [7%nat] Reference).
Proof. vm_compute. auto. Qed.

End Binary64Facts.

(** Seven words, an [alpha] of 1.25 * 2^-52 and seven draws from [0, 1).
    At the seventh word the priors of the three clusters are 4/6, 1/6 and
    1/6 as floats, their sum is 1 - 2^-53, the prior of a new cluster
    vanishes in the sum, the draw is 1 - 2^-53: it is not above the sum
    and no partial sum is above it. *)
Definition seven_draws (t : nat) : float :=
  match t with
  | 0 => 0.5%float
  | 1 | 2 | 6 => 0x1.fffffffffffffp-1%float
  | _ => 0%float
  end.

Definition seven_words : Document.t :=
  Document.init 0 [10; 11; 12; 13; 14; 15; 16] Reference.

(** The same numbers as rationals. *)
Definition seven_draws_exact (t : nat) : Q :=
  match t with
  | 0 => (1 # 2)%Q
  | 1 | 2 | 6 => (1 - (1 # 9007199254740992))%Q
  | _ => 0%Q
  end.

(** The interpreter leaves the seventh word out; in exact arithmetic it
    joins the third cluster. *)
Lemma a_word_can_stay_unplaced :
  Binary64.init_partition 0x1.4p-52 seven_draws seven_words
  = Ok (Document.set_partition [[10; 13; 14; 15]; [11]; [12]] seven_words) ∧
  Document.init_partition (5 # 18014398509481984) seven_draws_exact seven_words
  = Ok (Document.set_partition [[10; 13; 14; 15]; [11]; [12; 16]] seven_words).
Proof. vm_compute. auto. Qed.


(** ** Word.calculate: when it returns, and what it returns *)

#[global] Existing Instance Word.all_zero_dec | 0.

Section WordFacts.

Implicit Types (m : list (nat * nat)) (row : nat * nat).

Lemma insert_sorted_elem (x y : nat) (l : list nat) :
  x ∈ Word.insert_sorted y l ↔ x = y ∨ x ∈ l.
Proof.
  induction l as [|z l IH]; simpl.
  - rewrite list_elem_of_singleton, elem_of_nil. tauto.
  - destruct (decide (y < z)); [rewrite !elem_of_cons; tauto |].
    destruct (decide (y = z)) as [->|].
    + rewrite elem_of_cons. tauto.
    + rewrite !elem_of_cons, IH. tauto.
Qed.


Lemma unique_elem (a : list nat * list nat) (x : nat) :
  x ∈ Word.unique a ↔ x ∈ a.1 ∨ x ∈ a.2.
Proof.
  unfold Word.unique. rewrite <- elem_of_app.
  induction (a.1 ++ a.2) as [|y l IH]; simpl; [reflexivity |].
  rewrite insert_sorted_elem, IH, elem_of_cons. reflexivity.
Qed.


Definition shift_row (f : nat → nat) (ir : nat * (nat * nat))
    : nat * (nat * nat) := (f ir.1, ir.2).

(** The retained rows, with their positions in [senses]. *)
Definition retained (m : list (nat * nat)) : list (nat * (nat * nat)) :=
  filter (λ ir : nat * (nat * nat), ¬ Word.all_zero ir.2) (imap pair m).

Lemma retained_from (f : nat → nat) m :
  filter (λ ir : nat * (nat * nat), ¬ Word.all_zero ir.2)
    (imap (λ i, pair (f i)) m)
  = shift_row f <$> retained m.
Proof.
  unfold retained. revert f. induction m as [|row m IH]; intros f; [reflexivity |].
  cbn [imap].
  rewrite (imap_ext (pair ∘ S) (λ i, pair (S i))) by reflexivity.
  rewrite (imap_ext ((λ i, pair (f i)) ∘ S) (λ i, pair (f (S i)))) by reflexivity.
  rewrite !filter_cons. simpl.
  rewrite (IH (λ i, f (S i))), (IH S).
  destruct (decide (¬ Word.all_zero row)); csimpl;
    rewrite <- list_fmap_compose; reflexivity.
Qed.

Lemma retained_cons row m :
  retained (row :: m)
  = (if decide (¬ Word.all_zero row) then [(0, row)] else [])
    ++ (shift_row S <$> retained m).
Proof.
  unfold retained at 1. cbn [imap].
  rewrite (imap_ext (pair ∘ S) (λ i, pair (S i))) by reflexivity.
  rewrite filter_cons. simpl. rewrite retained_from.
  destruct (decide (¬ Word.all_zero row)); reflexivity.
Qed.

Lemma retained_rows_fst m : Word.retained_rows m = (retained m).*1.
Proof. reflexivity. Qed.

Lemma retained_snd m :
  (retained m).*2 = filter (λ row, ¬ Word.all_zero row) m.
Proof.
  induction m as [|row m IH]; [reflexivity |].
  rewrite retained_cons, filter_cons, fmap_app, <- list_fmap_compose.
  rewrite (list_fmap_ext (snd ∘ shift_row S) snd (retained m))
    by (intros ? [? ?] ?; reflexivity).
  rewrite IH. destruct (decide (¬ Word.all_zero row)); reflexivity.
Qed.

Lemma retained_lookup m (r : nat) row :
  (r, row) ∈ retained m ↔ m !! r = Some row ∧ ¬ Word.all_zero row.
Proof.
  unfold retained. rewrite list_elem_of_filter, elem_of_lookup_imap. simpl.
  split.
  - intros (Hz & i & x & [= -> ->] & Hx). auto.
  - intros (Hm & Hz). split; [exact Hz |]. eauto.
Qed.

Lemma retained_rows_sorted m : StronglySorted lt (Word.retained_rows m).
Proof.
  rewrite retained_rows_fst. induction m as [|row m IH]; [constructor |].
  rewrite retained_cons, fmap_app, <- list_fmap_compose.
  rewrite (list_fmap_ext (fst ∘ shift_row S) (S ∘ fst) (retained m))
    by (intros ? [? ?] ?; reflexivity).
  rewrite list_fmap_compose.
  apply StronglySorted_app_2.
  - intros x1 x2 H1 H2. apply list_elem_of_fmap in H2 as (y & -> & _).
    destruct (decide (¬ Word.all_zero row)); simpl in H1.
    + apply list_elem_of_singleton in H1 as ->. lia.
    + apply elem_of_nil in H1. contradiction.
  - destruct (decide (¬ Word.all_zero row)); repeat constructor.
  - apply (StronglySorted_fmap S lt lt); [intros; lia | exact IH].
Qed.

Lemma retained_rows_elem m (r : nat) :
  r ∈ Word.retained_rows m ↔ ∃ row, m !! r = Some row ∧ ¬ Word.all_zero row.
Proof.
  rewrite retained_rows_fst, list_elem_of_fmap. split.
  - intros ([r' row] & -> & H). apply retained_lookup in H. eauto.
  - intros (row & H). exists (r, row). split; [reflexivity |].
    apply retained_lookup. exact H.
Qed.

Lemma nonzero_cells_elem m (r c : nat) :
  (r, c) ∈ Word.nonzero_cells m
  ↔ ∃ row, m !! r = Some row ∧
      ((c = 0 ∧ row.1 ≠ 0) ∨ (c = 1 ∧ row.2 ≠ 0)).
Proof.
  unfold Word.nonzero_cells. rewrite elem_of_concat. split.
  - intros (l & Hl & Hin). apply elem_of_lookup_imap in Hl as (i & row & -> & Hrow).
    apply elem_of_app in Hin as [Hin|Hin].
    + destruct (decide (row.1 = 0)); [apply elem_of_nil in Hin; contradiction |].
      apply list_elem_of_singleton in Hin as [= -> ->]. eauto.
    + destruct (decide (row.2 = 0)); [apply elem_of_nil in Hin; contradiction |].
      apply list_elem_of_singleton in Hin as [= -> ->]. eauto.
  - intros (row & Hrow & Hc). eexists. split.
    + apply elem_of_lookup_imap. exists r, row. split; [reflexivity | exact Hrow].
    + apply elem_of_app. destruct Hc as [[-> Hc]|[-> Hc]].
      * left. rewrite decide_False by exact Hc. apply list_elem_of_singleton.
        reflexivity.
      * right. rewrite decide_False by exact Hc. apply list_elem_of_singleton.
        reflexivity.
Qed.

(** The row indices that [np.nonzero] lists are the retained rows. *)
Lemma nonzero_rows_elem m (r : nat) :
  r ∈ (Word.nonzero m).1 ↔ r ∈ Word.retained_rows m.
Proof.
  unfold Word.nonzero. simpl. rewrite retained_rows_elem, list_elem_of_fmap. split.
  - intros ([r' c] & -> & H). apply nonzero_cells_elem in H as (row & Hrow & Hc).
    exists row. split; [exact Hrow |]. unfold Word.all_zero. simpl. lia.
  - intros (row & Hrow & Hz). unfold Word.all_zero in Hz.
    destruct (decide (row.1 = 0)) as [H1|H1].
    + exists (r, 1). split; [reflexivity |]. apply nonzero_cells_elem.
      exists row. split; [exact Hrow |]. right. split; [reflexivity | lia].
    + exists (r, 0). split; [reflexivity |]. apply nonzero_cells_elem.
      exists row. split; [exact Hrow |]. left. auto.
Qed.


Lemma retained_rows_length m :
  length (Word.retained_rows m)
  = length (filter (λ row, ¬ Word.all_zero row) m).
Proof.
  rewrite <- retained_snd, retained_rows_fst, !length_fmap. reflexivity.
Qed.

Lemma sorted_lt_NoDup (l : list nat) : StronglySorted lt l → NoDup l.
Proof.
  induction 1 as [|x l _ IH Hx]; constructor; [| exact IH].
  intros Hin. rewrite Forall_forall in Hx. specialize (Hx x Hin). lia.
Qed.

(** [indices] holds every retained row. *)
Lemma indices_cover (self : Word.t) :
  length (Word.retained_rows (Word.senses self)) ≤ length (Word.indices self).
Proof.
  apply submseteq_length, NoDup_submseteq.
  - apply sorted_lt_NoDup, retained_rows_sorted.
  - intros r Hr. unfold Word.indices. apply unique_elem. left.
    apply nonzero_rows_elem. exact Hr.
Qed.

End WordFacts.

Section WordResults.

Lemma argmax_from_bound (l : list Q) : ∀ best besti i,
  besti < i → Word.argmax_from best besti i l < i + length l.
Proof.
  induction l as [|y l IH]; intros best besti i Hi; simpl; [lia |].
  destruct (Qltb best y).
  - specialize (IH y i (S i)). lia.
  - specialize (IH best besti (S i)). lia.
Qed.

Lemma stripped_nil (self : Word.t) :
  Word.stripped self = [] ↔ Forall Word.all_zero (Word.senses self).
Proof.
  unfold Word.stripped. induction (Word.senses self) as [|row m IH].
  - split; [constructor | reflexivity].
  - rewrite filter_cons. destruct (decide (¬ Word.all_zero row)) as [Hz|Hz].
    + split; [discriminate |]. intros H. apply Forall_cons in H as [H _].
      contradiction.
    + rewrite IH, Forall_cons. apply dec_stable in Hz. tauto.
Qed.

Lemma calculate_returns_unless_all_zero_aux (self : Word.t) :
  (Word.calculate self = Raise ValueError
   ↔ Forall Word.all_zero (Word.senses self)) ∧
  ((∃ m s, Word.calculate self = Ok (m, s))
   ↔ ¬ Forall Word.all_zero (Word.senses self)).
Proof.
  rewrite <- stripped_nil. unfold Word.calculate, Word.novelty.
  assert (Hcover : length (Word.stripped self) ≤ length (Word.indices self)).
  { unfold Word.stripped. rewrite <- retained_rows_length. apply indices_cover. }
  destruct (Word.stripped self) as [|row rows] eqn:E; csimpl.
  - split; [tauto |]. split; [intros (m & s & H); discriminate | tauto].
  - simpl in Hcover.
    pose proof (argmax_from_bound (Word.novelty_of <$> rows)
                  (Word.novelty_of row) 0 1) as Hk.
    rewrite length_fmap in Hk.
    destruct (lookup_lt_is_Some_2 (Word.indices self)
                (Word.argmax_from (Word.novelty_of row) 0 1
                   (Word.novelty_of <$> rows))) as [s Hs]; [lia |].
    rewrite Hs. split; [split; [discriminate | discriminate] |].
    split; [discriminate | eauto].
Qed.

(** [calculate] raises [ValueError] on a word without any occurrence, and
    returns a score and a sense for every other word. *)
Theorem calculate_returns_unless_all_zero (self : Word.t) :
  (Word.calculate self = Raise ValueError
   ↔ Forall Word.all_zero (Word.senses self)) ∧
  ((∃ m s, Word.calculate self = Ok (m, s))
   ↔ ¬ Forall Word.all_zero (Word.senses self)).
Proof. apply calculate_returns_unless_all_zero_aux. Qed.

Lemma novelty_of_bounds (row : nat * nat) :
  ¬ Word.all_zero row →
  (-1 <= Word.novelty_of row)%Q ∧ (Word.novelty_of row <= 1)%Q.
Proof.
  intros Hz. unfold Word.novelty_of, Word.normalize. simpl.
  assert (HT : (0 < Qnat (row.1 + row.2))%Q).
  { unfold Qnat. change 0%Q with (inject_Z 0). rewrite <- Zlt_Qlt.
    unfold Word.all_zero in Hz. lia. }
  assert (Hfrac : ∀ x, x ≤ row.1 + row.2 →
            (0 <= Qnat x / Qnat (row.1 + row.2))%Q ∧
            (Qnat x / Qnat (row.1 + row.2) <= 1)%Q).
  { intros x Hx. split.
    - apply Qle_shift_div_l; [exact HT |]. rewrite Qmult_0_l. apply Qnat_nonneg.
    - apply Qle_shift_div_r; [exact HT |]. rewrite Qmult_1_l.
      unfold Qnat. rewrite <- Zle_Qle. lia. }
  destruct (Hfrac row.1) as [H1 H2]; [lia |].
  destruct (Hfrac row.2) as [H3 H4]; [lia |].
  split; Lqa.lra.
Qed.

Lemma calculate_score_bounds_aux (self : Word.t) (m : Q) (s : nat) :
  Word.calculate self = Ok (m, s) → (-1 <= m)%Q ∧ (m <= 1)%Q.
Proof.
  intros H. apply calculate_score in H as (_ & k & Hk & _).
  unfold Word.novelty in Hk. apply list_lookup_fmap_Some in Hk as (row & -> & Hrow).
  apply novelty_of_bounds.
  apply list_elem_of_lookup_2 in Hrow. unfold Word.stripped in Hrow.
  apply list_elem_of_filter in Hrow as [Hz _]. exact Hz.
Qed.

(** The score lies between -1 and 1. *)
Theorem calculate_score_bounds (self : Word.t) (m : Q) (s : nat) :
  Word.calculate self = Ok (m, s) → (-1 <= m)%Q ∧ (m <= 1)%Q.
Proof. apply calculate_score_bounds_aux. Qed.



End WordResults.


(** ** The corpus and its sentences *)

Section CorpusSentences.

Variable word_tokenize : string → list string.
Variable english_stopwords : list string.
Variable fs : string → result (list string).

Abbreviation load' := (Corpus.load word_tokenize english_stopwords fs).
Abbreviation sentences_in := (sentences_of word_tokenize english_stopwords).
Abbreviation after_file := (after_get_documents word_tokenize english_stopwords).

(** The corpus after the reference file [f], and after the focus file [g]
    as well. *)
Definition after_reference (floor : Z) (output : string) (f : list string)
    : Corpus.t :=
  Corpus.with_sentences (sentences_in (Corpus.empty floor output) f)
    (after_file (Corpus.empty floor output) f Reference).

Definition after_focus (floor : Z) (output : string) (f g : list string)
    : Corpus.t :=
  Corpus.with_sentences
    (Corpus.sentences (after_reference floor output f)
     ++ sentences_in (after_reference floor output f) g)
    (after_file (after_reference floor output f) g Focus).

(** What [load] returns, and when it raises. *)
Lemma load_cases (reference output : string) (focus : option string)
    (floor : Z) :
  match fs reference with
  | Raise e => load' reference output focus floor = Raise e
  | Ok f =>
      match focus with
      | None => load' reference output focus floor
                = Ok (after_reference floor output f)
      | Some foc =>
          if decide (foc = EmptyString)
          then load' reference output focus floor
               = Ok (after_reference floor output f)
          else match fs foc with
               | Raise e => load' reference output focus floor = Raise e
               | Ok g => load' reference output focus floor
                         = Ok (after_focus floor output f g)
               end
      end
  end.
Proof.
  unfold Corpus.load. destruct (fs reference) as [f|] eqn:Hf.
  - rewrite (get_documents_readable _ _ _ _ _ _ f Hf) by apply counter_wf_nil.
    csimpl. destruct focus as [foc|]; [| reflexivity].
    destruct (decide (foc = EmptyString)); [reflexivity |].
    destruct (fs foc) as [g|] eqn:Hg.
    + rewrite (get_documents_readable _ _ _ _ _ _ g Hg); [reflexivity |].
      apply (after_get_documents_ok word_tokenize english_stopwords
               (Corpus.empty floor output) f Reference); apply empty_ok.
    + rewrite (get_documents_unreadable _ _ _ _ _ _ _ Hg). reflexivity.
  - rewrite (get_documents_unreadable _ _ _ _ _ _ _ Hf). reflexivity.
Qed.

Lemma load_inv (reference output : string) (focus : option string)
    (floor : Z) (c : Corpus.t) :
  load' reference output focus floor = Ok c →
  (∃ f, c = after_reference floor output f) ∨
  (∃ f g, c = after_focus floor output f g).
Proof.
  intros H. pose proof (load_cases reference output focus floor) as Hc.
  destruct (fs reference) as [f|]; [| congruence].
  destruct focus as [foc|]; [| left; exists f; congruence].
  destruct (decide (foc = EmptyString)); [left; exists f; congruence |].
  destruct (fs foc) as [g|]; [| congruence].
  right. exists f, g. congruence.
Qed.

Lemma after_reference_ok (floor : Z) (output : string) (f : list string) :
  vocabulary_ok (after_reference floor output f).
Proof.
  apply with_sentences_ok.
  apply (after_get_documents_ok word_tokenize english_stopwords
           (Corpus.empty floor output) f Reference); apply empty_ok.
Qed.

End CorpusSentences.

Section Tally.

Local Open Scope Z_scope.

Lemma occurrences_app (w : string) (a b : list string) :
  occurrences w (a ++ b) = occurrences w a + occurrences w b.
Proof. unfold occurrences. rewrite filter_app, length_app. lia. Qed.

Lemma occurrences_elem (w : string) (l : list string) :
  0 < occurrences w l ↔ w ∈ l.
Proof.
  split; [apply occurrences_pos_elem |]. unfold occurrences. intros H.
  assert (Hin : w ∈ filter (λ x, x = w) l)
    by (apply list_elem_of_filter; auto).
  destruct (filter (λ x, x = w) l); [apply elem_of_nil in Hin; contradiction |].
  simpl. lia.
Qed.

Lemma concat_filter_nonempty {A} (l : list (list A)) :
  concat (filter (λ ts, ts ≠ []) l) = concat l.
Proof.
  induction l as [|x l IH]; [reflexivity |]. rewrite filter_cons.
  destruct (decide (x ≠ [])) as [H|H]; simpl; rewrite IH; [reflexivity |].
  apply dec_stable in H. subst x. reflexivity.
Qed.

Lemma counter_get_cons (k w : string) (n : Z) (c : Counter.t) :
  Counter.get ((k, n) :: c) w = if decide (k = w) then n else Counter.get c w.
Proof.
  unfold Counter.get. simpl. destruct (String.eqb_spec k w) as [->|Hne].
  - rewrite decide_True by reflexivity. reflexivity.
  - rewrite decide_False by exact Hne. reflexivity.
Qed.

Lemma counter_get_missing (c : Counter.t) (w : string) :
  w ∉ Dict.keys c → Counter.get c w = 0.
Proof.
  intros H. unfold Counter.get. apply dict_get_None in H. rewrite H. reflexivity.
Qed.

Lemma counter_add_all_get (w : string) (other : Counter.t) : ∀ c : Counter.t,
  NoDup (Dict.keys other) →
  Counter.get (foldl (λ acc (kv : string * Z), Counter.incr kv.1 kv.2 acc) c other) w
  = Counter.get c w + Counter.get other w.
Proof.
  induction other as [|[k n] other IH]; intros c Hnd; simpl.
  - unfold Counter.get at 3. simpl. lia.
  - apply NoDup_cons in Hnd as [Hk Hnd].
    rewrite IH by exact Hnd. rewrite counter_get_incr, counter_get_cons.
    destruct (decide (k = w)) as [->|]; [| reflexivity].
    rewrite (counter_get_missing other w Hk). lia.
Qed.

(** [c += other] adds the tallies. *)
Lemma counter_iadd_get (c other : Counter.t) (w : string) :
  counter_wf c → counter_wf other →
  Counter.get (Counter.iadd c other) w = Counter.get c w + Counter.get other w.
Proof.
  intros Hc [Hnd Ho]. unfold Counter.iadd.
  destruct (counter_add_all other c Hc Ho) as (H1 & _ & _).
  rewrite counter_keep_positive_id by apply H1.
  apply counter_add_all_get. exact Hnd.
Qed.

Lemma counter_key_positive (c : Counter.t) (w : string) :
  counter_wf c → (w ∈ Dict.keys c ↔ 0 < Counter.get c w).
Proof.
  intros [Hnd Hpos]. split.
  - intros H. apply dict_get_is_Some in H as [n Hn]. unfold Counter.get.
    rewrite Hn. simpl. apply dict_get_Some_elem in Hn.
    rewrite Forall_forall in Hpos. apply (Hpos _ Hn).
  - intros H. destruct (decide (w ∈ Dict.keys c)) as [|Hno]; [assumption |].
    rewrite (counter_get_missing c w Hno) in H. lia.
Qed.

End Tally.

Section CorpusFacts.

Variable word_tokenize : string → list string.
Variable english_stopwords : list string.
Variable fs : string → result (list string).

Abbreviation load'' := (Corpus.load word_tokenize english_stopwords fs).
Abbreviation sentences_in' := (sentences_of word_tokenize english_stopwords).
Abbreviation after_file' := (after_get_documents word_tokenize english_stopwords).
Abbreviation after_reference' := (after_reference word_tokenize english_stopwords).
Abbreviation after_focus' := (after_focus word_tokenize english_stopwords).

Lemma counts_after_get (self : Corpus.t) (f : list string) (w : string) :
  counter_wf (Corpus.word_counts self) →
  Counter.get (counts_after word_tokenize english_stopwords self f) w
  = (Counter.get (Corpus.word_counts self) w
     + occurrences w (concat (sentences_in' self f)))%Z.
Proof.
  intros Hwf. unfold counts_after, sentences_of.
  rewrite counter_iadd_get; [| exact Hwf | apply counter_of_list_wf].
  rewrite counter_of_list_get, concat_filter_nonempty. reflexivity.
Qed.

Lemma word_counts_tally_sentences_aux (reference output : string)
    (focus : option string) (floor : Z) (c : Corpus.t) (w : string) :
  load'' reference output focus floor = Ok c →
  Counter.get (Corpus.word_counts c) w
  = occurrences w (concat (Corpus.sentences c)).
Proof.
  intros H.
  assert (H1 : ∀ f, Counter.get (Corpus.word_counts (after_reference' floor output f)) w
               = occurrences w (concat (Corpus.sentences (after_reference' floor output f)))).
  { intros f. simpl. rewrite counts_after_get by apply counter_wf_nil.
    unfold Counter.get at 1. simpl. lia. }
  apply load_inv in H as [(f & ->)|(f & g & ->)]; [apply H1 |].
  unfold after_focus.
  change (Corpus.word_counts (Corpus.with_sentences ?s ?x))
    with (Corpus.word_counts x).
  change (Corpus.sentences (Corpus.with_sentences ?s ?x)) with s.
  change (Corpus.word_counts (after_file' ?self g Focus))
    with (counts_after word_tokenize english_stopwords self g).
  rewrite counts_after_get by apply after_reference_ok.
  rewrite H1, concat_app, occurrences_app. reflexivity.
Qed.

(** [word_counts] is the tally of the sentences of the corpus: the counts
    are those after filtering, over both files. *)
Theorem word_counts_tally_sentences (reference output : string)
    (focus : option string) (floor : Z) (c : Corpus.t) (w : string) :
  load'' reference output focus floor = Ok c →
  Counter.get (Corpus.word_counts c) w
  = occurrences w (concat (Corpus.sentences c)).
Proof. apply word_counts_tally_sentences_aux. Qed.

Lemma vocabulary_is_the_tokens_aux (reference output : string)
    (focus : option string) (floor : Z) (c : Corpus.t) (w : string) :
  load'' reference output focus floor = Ok c →
  (w ∈ Corpus.idx_to_word c ↔ w ∈ concat (Corpus.sentences c)).
Proof.
  intros H. pose proof (word_counts_tally_sentences_aux _ _ _ _ _ w H) as Ht.
  apply load_ok in H as (Hwf & _ & -> & _).
  rewrite (counter_key_positive _ _ Hwf), Ht. apply occurrences_elem.
Qed.

(** The vocabulary is the set of the tokens of the sentences: every word
    with an id occurs in a sentence, and every token has an id. *)
Theorem vocabulary_is_the_tokens (reference output : string)
    (focus : option string) (floor : Z) (c : Corpus.t) (w : string) :
  load'' reference output focus floor = Ok c →
  (w ∈ Corpus.idx_to_word c ↔ w ∈ concat (Corpus.sentences c)).
Proof. apply vocabulary_is_the_tokens_aux. Qed.

Lemma stopwords_subset (floor : Z) (word_counts : Counter.t) (w : string) :
  w ∈ english_stopwords →
  w ∈ Corpus.removal_set english_stopwords floor word_counts.
Proof. intros H. apply removal_set_spec. left. exact H. Qed.

Lemma sentences_without_stopwords (self : Corpus.t) (f : list string)
    (w : string) :
  w ∈ english_stopwords → w ∉ concat (sentences_in' self f).
Proof.
  intros Hw Hin. unfold sentences_of in Hin.
  rewrite concat_filter_nonempty in Hin.
  apply elem_of_concat in Hin as (s & Hs & Hin).
  unfold filtered_lines in Hs. apply list_elem_of_fmap in Hs as (line & -> & _).
  unfold Corpus.keep_tokens in Hin. apply list_elem_of_filter in Hin as [Hno _].
  apply Hno. unfold stopwords_of. apply stopwords_subset. exact Hw.
Qed.

(** No stopword is in a sentence of the corpus or in its vocabulary. *)
Theorem stopwords_never_in_vocabulary (reference output : string)
    (focus : option string) (floor : Z) (c : Corpus.t) (w : string) :
  load'' reference output focus floor = Ok c →
  w ∈ english_stopwords →
  (w ∉ concat (Corpus.sentences c)) ∧ (w ∉ Corpus.idx_to_word c) ∧
  ∀ d, Corpus.word_to_idx c = Some d → Dict.get d w = None.
Proof.
  intros H Hw.
  assert (Hs : w ∉ concat (Corpus.sentences c)).
  { pose proof H as H'.
    apply load_inv in H' as [(f & ->)|(f & g & ->)]; simpl.
    - apply sentences_without_stopwords. exact Hw.
    - rewrite concat_app, not_elem_of_app.
      split; apply sentences_without_stopwords; exact Hw. }
  assert (Hv : w ∉ Corpus.idx_to_word c).
  { rewrite (vocabulary_is_the_tokens_aux _ _ _ _ _ _ H). exact Hs. }
  split; [exact Hs |]. split; [exact Hv |].
  intros d Hd. apply load_ok in H as ((Hnd & _) & Hwti & Hitw & _).
  rewrite Hwti in Hd. injection Hd as <-.
  apply dict_get_None. rewrite dict_enumerate_keys by exact Hnd.
  rewrite <- Hitw. exact Hv.
Qed.

End CorpusFacts.

Section CorpusDocuments.

Variable word_tokenize : string → list string.
Variable english_stopwords : list string.
Variable fs : string → result (list string).

(** Looking the ids of a sentence up in [idx_to_word] gives the sentence
    back. *)
Lemma decode_ids (ks : list string) (s : list string) :
  NoDup ks → Forall (λ w, w ∈ ks) s →
  (λ id, ks !! id) <$> ids_in (Dict.enumerate ks) s = Some <$> s.
Proof.
  intros Hnd Hs. unfold ids_in. rewrite <- list_fmap_compose.
  apply Forall_fmap_ext_1. eapply Forall_impl; [exact Hs |].
  intros w Hw. simpl.
  destruct (dict_get_is_Some (Dict.enumerate ks) w) as [k Hk].
  { rewrite dict_enumerate_keys by exact Hnd. exact Hw. }
  rewrite Hk. simpl. apply dict_enumerate_get in Hk; assumption.
Qed.

(** Ids given over a vocabulary are the ids over any vocabulary that
    extends it. *)
Lemma ids_in_prefix (ks ks' : list string) (s : list string) :
  NoDup ks → NoDup ks' → ks `prefix_of` ks' → Forall (λ w, w ∈ ks) s →
  ids_in (Dict.enumerate ks) s = ids_in (Dict.enumerate ks') s.
Proof.
  intros Hnd Hnd' [rest ->] Hs. unfold ids_in.
  apply Forall_fmap_ext_1. eapply Forall_impl; [exact Hs |].
  intros w Hw. simpl.
  destruct (dict_get_is_Some (Dict.enumerate ks) w) as [k Hk].
  { rewrite dict_enumerate_keys by exact Hnd. exact Hw. }
  rewrite Hk.
  assert (Hk' : Dict.get (Dict.enumerate (ks ++ rest)) w = Some k).
  { apply dict_enumerate_get; [exact Hnd' |].
    apply lookup_app_l_Some. apply dict_enumerate_get in Hk; assumption. }
  rewrite Hk'. reflexivity.
Qed.

Lemma documents_encode_sentences_aux (reference output : string)
    (focus : option string) (floor : Z) (c : Corpus.t) :
  Corpus.load word_tokenize english_stopwords fs reference output focus floor
  = Ok c →
  ∃ word_to_idx s_ref s_foc,
    Corpus.word_to_idx c = Some word_to_idx ∧
    Corpus.sentences c = s_ref ++ s_foc ∧
    Corpus.docs c
    = imap (λ i s, Document.init i (ids_in word_to_idx s) Reference) s_ref
      ++ imap (λ i s, Document.init i (ids_in word_to_idx s) Focus) s_foc ∧
    Forall (λ s, s ≠ [] ∧
                 (λ id, Corpus.idx_to_word c !! id) <$> ids_in word_to_idx s
                 = Some <$> s) (Corpus.sentences c).
Proof.
  intros H.
  assert (Hdecode : ∀ d, Corpus.word_to_idx c = Some d →
    Forall (λ s, (λ id, Corpus.idx_to_word c !! id) <$> ids_in d s = Some <$> s)
      (Corpus.sentences c)).
  { intros d Hd. apply Forall_forall. intros s Hs.
    pose proof (load_ok _ _ _ _ _ _ _ _ H) as ((Hnd & _) & Hwti & Hitw & _).
    rewrite Hwti in Hd. injection Hd as <-. rewrite Hitw.
    apply decode_ids; [exact Hnd |]. apply Forall_forall. intros w Hw.
    rewrite <- Hitw.
    apply (vocabulary_is_the_tokens_aux _ _ _ _ _ _ _ _ _ H).
    apply elem_of_concat. eauto. }
  assert (Hne : ∀ self f, Forall (λ s : list string, s ≠ [])
                            (sentences_of word_tokenize english_stopwords self f)).
  { intros self f. apply Forall_forall. intros s Hs. unfold sentences_of in Hs.
    apply list_elem_of_filter in Hs as [Hs _]. exact Hs. }
  pose proof H as H'. apply load_inv in H' as [(f & ->)|(f & g & ->)].
  - eexists _, _, []. split; [reflexivity |].
    split; [simpl; rewrite app_nil_r; reflexivity |].
    split; [simpl; rewrite app_nil_r; reflexivity |].
    apply Forall_and. split; [apply Hne | apply Hdecode; reflexivity].
  - eexists _, _, _. split; [reflexivity |]. split; [reflexivity |]. split.
    + simpl. f_equal. apply imap_ext. intros i s Hs. f_equal.
      pose proof (after_reference_ok word_tokenize english_stopwords floor output f)
        as (Hwf1 & _ & _ & Hdocs1).
      destruct (after_get_documents_ok word_tokenize english_stopwords
                  (after_reference word_tokenize english_stopwords floor output f)
                  g Focus Hwf1 Hdocs1) as [(Hwf2 & _) Hpre].
      apply ids_in_prefix; [apply Hwf1 | apply Hwf2 | exact Hpre |].
      pose proof (sentences_in_counts word_tokenize english_stopwords
                    (Corpus.empty floor output) f counter_wf_nil) as Hin.
      rewrite Forall_forall in Hin. apply Hin.
      apply list_elem_of_lookup_2 in Hs. exact Hs.
    + apply Forall_and. split; [| apply Hdecode; reflexivity].
      simpl. apply Forall_app. split; apply Hne.
Qed.


(** Reading the files fails with the exception [e]: the reference file
    does, or the reference file is read and a focus file that is given by a
    non-empty path does. *)
Definition unreadable (reference : string) (focus : option string)
    (e : exn) : Prop :=
  fs reference = Raise e ∨
  (∃ f, fs reference = Ok f) ∧
  ∃ foc, focus = Some foc ∧ foc ≠ EmptyString ∧ fs foc = Raise e.

(** Every file that the construction reads is read. *)
Definition readable (reference : string) (focus : option string) : Prop :=
  (∃ f, fs reference = Ok f) ∧
  ∀ foc, focus = Some foc → foc ≠ EmptyString → ∃ g, fs foc = Ok g.

(** The construction of a corpus raises exactly when opening or reading
    a file raises, and what it raises is the exception of that file: the
    I/O error of [open], or the decoding error of a line.  On files that
    are read it returns: nothing else in it raises. *)
Theorem init_raises_only_on_unreadable_files {V : Type}
    (ppmi_value : Z → Z → Z → Z → V) (reference output : string)
    (focus : option string) (floor window_size : Z) :
  (∀ e, Corpus.init word_tokenize english_stopwords fs ppmi_value
          reference output focus floor window_size = Raise e
        ↔ unreadable reference focus e) ∧
  ((∃ c, Corpus.init word_tokenize english_stopwords fs ppmi_value
           reference output focus floor window_size = Ok c)
   ↔ readable reference focus).
Proof.
  pose proof (load_cases word_tokenize english_stopwords fs
                reference output focus floor) as Hc.
  assert (Hyes : ∀ e, unreadable reference focus e →
            Corpus.init word_tokenize english_stopwords fs ppmi_value
              reference output focus floor window_size = Raise e).
  { intros e Hu. unfold Corpus.init.
    assert (Hl : Corpus.load word_tokenize english_stopwords fs
                   reference output focus floor = Raise e).
    { destruct Hu as [Hu|[[f Hf] (foc & -> & Hne & Hfoc)]].
      - rewrite Hu in Hc. exact Hc.
      - rewrite Hf in Hc. rewrite decide_False in Hc by exact Hne.
        rewrite Hfoc in Hc. exact Hc. }
    rewrite Hl. reflexivity. }
  assert (Hno : readable reference focus →
            ∃ c, Corpus.init word_tokenize english_stopwords fs ppmi_value
                   reference output focus floor window_size = Ok c).
  { intros [[f Hf] Hfoc].
    assert (Hl : ∃ self, Corpus.load word_tokenize english_stopwords fs
                   reference output focus floor = Ok self).
    { rewrite Hf in Hc. destruct focus as [foc|]; [| eauto].
      destruct (decide (foc = EmptyString)) as [|Hne]; [eauto |].
      destruct (Hfoc foc eq_refl Hne) as [g Hg]. rewrite Hg in Hc. eauto. }
    destruct Hl as [self Hl]. eapply init_completes. exact Hl. }
  assert (Hdec : (∃ e, unreadable reference focus e) ∨ readable reference focus).
  { unfold unreadable, readable. clear.
    destruct (fs reference) as [f|e]; [| left; exists e; left; reflexivity].
    destruct focus as [foc|].
    - destruct (decide (foc = EmptyString)) as [->|Hne].
      + right. split; [eauto |]. intros foc [= <-] Hne. congruence.
      + destruct (fs foc) as [g|e] eqn:Hg.
        * right. split; [eauto |]. intros foc' [= <-] _. eauto.
        * left. exists e. right. split; [eauto |]. eauto.
    - right. split; [eauto |]. intros foc Hfoc. discriminate. }
  split; [intros e; split | split].
  - intros Hr. destruct Hdec as [[e' Hu]|Hu].
    + rewrite (Hyes e' Hu) in Hr. injection Hr as ->. exact Hu.
    + destruct (Hno Hu) as [c Hcc]. congruence.
  - apply Hyes.
  - intros [c Hcc]. destruct Hdec as [[e Hu]|Hu]; [| exact Hu].
    rewrite (Hyes e Hu) in Hcc. discriminate.
  - exact Hno.
Qed.

(** Every document of a corpus starts without clusters and without global
    senses, so after the call of [init_partition] on it in [main], when it
    returns, the clusters hold words of the document only, each occurrence
    at most once, no cluster is empty and there are no more clusters than
    words placed. *)
Theorem corpus_documents_get_partitioned (reference output : string)
    (focus : option string) (floor : Z) (c : Corpus.t) (alpha : float)
    (random : nat → float) (d d' : Document.t) :
  Corpus.load word_tokenize english_stopwords fs reference output focus floor
  = Ok c →
  d ∈ Corpus.docs c →
  Binary64.init_partition alpha random d = Ok d' →
  Document.partition d = [] ∧ Document.topic_to_global_idx d = [] ∧
  Document.words d' = Document.words d ∧
  Document.topic_to_global_idx d' = [] ∧
  ∃ placed,
    placed `sublist_of` Document.words d ∧
    concat (Document.partition d') ≡ₚ placed ∧
    Forall (λ c, c ≠ []) (Document.partition d') ∧
    length (Document.partition d') ≤ length placed.
Proof.
  intros H Hd Hinit.
  apply documents_encode_sentences_aux in H as (wti & s1 & s2 & _ & _ & Hdocs & _).
  rewrite Hdocs in Hd.
  assert (Hfresh : Document.partition d = [] ∧ Document.topic_to_global_idx d = []).
  { apply elem_of_app in Hd as [Hd|Hd];
      apply elem_of_lookup_imap in Hd as (i & s & -> & _); auto. }
  destruct Hfresh as [Hp Ht].
  apply init_partition_extends_aux in Hinit
    as (placed & Hsub & Hperm & _ & Hlen & Hne & Hw & _ & _ & Htop).
  rewrite Hp in Hperm, Hlen, Hne. simpl in Hperm, Hlen.
  split; [exact Hp |]. split; [exact Ht |]. split; [exact Hw |].
  split; [congruence |]. exists placed.
  split; [exact Hsub |]. split; [exact Hperm |].
  split; [apply Hne; constructor | exact Hlen].
Qed.

End CorpusDocuments.

(** ** Corpus.collocations: what a cell of the count matrix means *)

Lemma foldlM_invariant_elem {A B} (f : B → A → result B) (P : B → Prop)
    (l : list A) : ∀ b,
  (∀ b x, x ∈ l → P b → ∃ b', f b x = Ok b' ∧ P b') →
  P b → ∃ b', foldlM f b l = Ok b' ∧ P b'.
Proof.
  induction l as [|x l IH]; intros b Hf Hb; csimpl; [eauto |].
  destruct (Hf b x) as (b1 & -> & Hb1); [apply elem_of_cons; auto | exact Hb |].
  csimpl. apply IH; [| exact Hb1].
  intros b' y Hy. apply Hf. apply elem_of_cons. auto.
Qed.

Lemma foldlM_unchanged {A B} (f : B → A → result B) (b : B) (l : list A) :
  (∀ x, x ∈ l → f b x = Ok b) → foldlM f b l = Ok b.
Proof.
  induction l as [|x l IH]; intros Hf; csimpl; [reflexivity |].
  rewrite Hf by (apply elem_of_cons; auto). csimpl.
  apply IH. intros y Hy. apply Hf. apply elem_of_cons. auto.
Qed.

(** The elements of a slice with bounds that are not negative. *)
Lemma py_slice_elem {A} (l : list A) (start stop : Z) (x : A) :
  (0 ≤ start)%Z → (0 ≤ stop)%Z → x ∈ py_slice l start stop →
  ∃ p : nat, l !! p = Some x ∧ (start ≤ Z.of_nat p < stop)%Z.
Proof.
  intros Hs He. unfold py_slice, slice_bound.
  destruct (Z.ltb_spec start 0) as [|_]; [lia |].
  destruct (Z.ltb_spec stop 0) as [|_]; [lia |].
  intros Hx. apply elem_of_take in Hx as (i & Hi & Hlt).
  rewrite lookup_drop in Hi. eexists. split; [exact Hi |].
  apply lookup_lt_Some in Hi. lia.
Qed.

Lemma py_slice_empty {A} (l : list A) (start stop : Z) :
  (0 ≤ start)%Z → (0 ≤ stop ≤ start)%Z → py_slice l start stop = [].
Proof.
  intros Hs He. unfold py_slice, slice_bound.
  destruct (Z.ltb_spec start 0) as [|_]; [lia |].
  destruct (Z.ltb_spec stop 0) as [|_]; [lia |].
  replace (Z.to_nat _) with 0 by lia. reflexivity.
Qed.

Section Cells.

Variable word_to_idx : Dict.t nat.
Variable n : nat.
Variable corpus : list (list string).
Variable window_size : Z.

(** A property [Q] of the cells that the pass increments. *)
Variable Q : nat → nat → Prop.

Hypothesis ids_below : ∀ w x, Dict.get word_to_idx w = Some x → x < n.
Hypothesis counted : ∀ (i : list string) (j : nat) (k l : string) (x y : nat),
  i ∈ corpus → i !! j = Some k →
  l ∈ py_slice i (0 `max` (Z.of_nat j - window_size `div` 2))
         ((Z.of_nat (length i) - 1) `min` (Z.of_nat j + window_size `div` 2)) →
  l ≠ k → Dict.get word_to_idx l = Some x → Dict.get word_to_idx k = Some y →
  Q x y.

Definition cells_are (m : matrix) : Prop :=
  ∀ x y v, m !! (x, y) = Some v → x < n ∧ y < n ∧ (1 ≤ v)%Z ∧ Q x y.

Lemma bump_cells (x y : nat) (m : matrix) :
  x < n → y < n → Q x y → cells_are m →
  ∃ m', Corpus.bump n x y m = Ok m' ∧ cells_are m'.
Proof.
  intros Hx Hy HQ Hm. unfold Corpus.bump. rewrite decide_True by auto.
  eexists. split; [reflexivity |]. intros x' y' v Hv.
  destruct (decide ((x, y) = (x', y'))) as [[= <- <-]|Hne].
  - rewrite lookup_insert_eq in Hv. injection Hv as <-.
    repeat split; [assumption.. | | assumption].
    destruct (m !! (x, y)) as [v|] eqn:E; simpl; [| lia].
    apply Hm in E. lia.
  - rewrite lookup_insert_ne in Hv by exact Hne. eapply Hm. exact Hv.
Qed.

Lemma count_window_cells (k : string) (y : nat) (m : matrix)
    (occurences : list string) :
  y < n →
  (∀ l x, l ∈ occurences → l ≠ k → Dict.get word_to_idx l = Some x → Q x y) →
  cells_are m →
  ∃ m', Corpus.count_window word_to_idx n k y m occurences = Ok m' ∧
        cells_are m'.
Proof.
  intros Hy HQ Hm. unfold Corpus.count_window.
  apply (foldlM_invariant_elem _ cells_are); [| exact Hm].
  intros m0 l Hl Hm0. destruct (decide (l ≠ k)) as [Hne|]; [| eauto].
  destruct (Dict.get word_to_idx l) as [x|] eqn:Hx; [| eauto].
  apply bump_cells; eauto.
Qed.

Lemma count_cooccurences_cells :
  ∃ m, Corpus.count_cooccurences (Some word_to_idx) n corpus window_size = Ok m ∧
       cells_are m.
Proof.
  unfold Corpus.count_cooccurences.
  apply (foldlM_invariant_elem _ cells_are).
  - intros m i Hi Hm. unfold Corpus.count_sentence.
    apply (foldlM_invariant_elem _ cells_are); [| exact Hm].
    intros m0 [j k] Hjk Hm0.
    apply elem_of_lookup_imap in Hjk as (j' & k' & [= -> ->] & Hk).
    unfold Corpus.count_position. simpl.
    destruct (Dict.get word_to_idx k') as [y|] eqn:Hy; [| eauto].
    apply count_window_cells; [eauto | | exact Hm0].
    intros l x Hl Hne Hx. eapply counted; eauto.
  - intros x y v Hv. rewrite lookup_empty in Hv. discriminate.
Qed.

End Cells.

Section CellFacts.

Variable word_tokenize : string → list string.
Variable english_stopwords : list string.
Variable fs : string → result (list string).
Context {V : Type}.
Variable ppmi_value : Z → Z → Z → Z → V.

Abbreviation init' := (Corpus.init word_tokenize english_stopwords fs ppmi_value).

(** The corpus when [collocations] starts, and what [collocations] adds. *)
Lemma init_inv (reference output : string) (focus : option string)
    (floor window_size : Z) (c : Corpus.t) :
  init' reference output focus floor window_size = Ok c →
  ∃ self m,
    Corpus.load word_tokenize english_stopwords fs reference output focus floor
    = Ok self ∧
    Corpus.count_cooccurences (Corpus.word_to_idx self)
      (length (Corpus.word_counts self)) (Corpus.sentences self) window_size
    = Ok m ∧
    c = Corpus.with_collocations m
          (length (Corpus.word_counts self), length (Corpus.word_counts self))
          (Corpus.with_vocab_size (length (Corpus.word_counts self)) self).
Proof.
  unfold Corpus.init.
  destruct (Corpus.load _ _ _ _ _ _ _) as [self|]; [| discriminate].
  csimpl. intros H. apply run_collocations_inv in H as (m & _ & Hm & _ & ->).
  eauto.
Qed.

(** Every stored cell of the count matrix lies within the shape, off the
    diagonal, and holds a count of 1 or more. *)
Theorem collocations_cells_off_diagonal (reference output : string)
    (focus : option string) (floor window_size : Z) (c : Corpus.t) :
  init' reference output focus floor window_size = Ok c →
  ∃ m, Corpus.collocations c = Some m ∧
       Corpus.shape c = Some (Corpus.vocab_size c, Corpus.vocab_size c) ∧
       ∀ x y v, m !! (x, y) = Some v →
                x < Corpus.vocab_size c ∧ y < Corpus.vocab_size c ∧
                x ≠ y ∧ (1 ≤ v)%Z.
Proof.
  intros H. apply init_inv in H as (self & m & Hload & Hm & ->).
  apply load_ok in Hload as ((Hnd & _) & Hwti & _ & _).
  rewrite Hwti in Hm.
  destruct (count_cooccurences_cells
              (Dict.enumerate (Dict.keys (Corpus.word_counts self)))
              (length (Corpus.word_counts self)) (Corpus.sentences self)
              window_size (λ x y, x ≠ y)) as (m' & Hm' & Hcells).
  - intros w x Hx. apply dict_enumerate_get in Hx; [| exact Hnd].
    apply lookup_lt_Some in Hx. rewrite keys_length in Hx. exact Hx.
  - intros i j k l x y _ _ _ Hne Hx Hy ->.
    apply dict_enumerate_get in Hx; [| exact Hnd].
    apply dict_enumerate_get in Hy; [| exact Hnd]. congruence.
  - rewrite Hm in Hm'. injection Hm' as <-.
    exists m. split; [reflexivity |]. split; [reflexivity |].
    intros x y v Hv. simpl. destruct (Hcells x y v Hv) as (? & ? & ? & ?). auto.
Qed.

(** For a window size that is not negative, a stored cell (x, y) records a
    co-occurrence: some sentence holds the word of id x at a position [p]
    and the word of id y at a position [q], with [p] in the half-open
    window of [q] and [p] not the last position of the sentence. *)
Theorem collocations_cells_are_cooccurrences (reference output : string)
    (focus : option string) (floor window_size : Z) (c : Corpus.t)
    (m : matrix) (x y : nat) (v : Z) :
  (0 ≤ window_size)%Z →
  init' reference output focus floor window_size = Ok c →
  Corpus.collocations c = Some m →
  m !! (x, y) = Some v →
  ∃ (i : list string) (p q : nat) (l k : string),
    i ∈ Corpus.sentences c ∧
    i !! p = Some l ∧ i !! q = Some k ∧ l ≠ k ∧
    Corpus.idx_to_word c !! x = Some l ∧ Corpus.idx_to_word c !! y = Some k ∧
    (Z.of_nat q - window_size `div` 2 ≤ Z.of_nat p
                  < Z.of_nat q + window_size `div` 2)%Z ∧
    p + 1 < length i.
Proof.
  intros HW H Hc Hv. apply init_inv in H as (self & m0 & Hload & Hm & ->).
  simpl in Hc. injection Hc as ->.
  apply load_ok in Hload as ((Hnd & _) & Hwti & Hitw & _).
  rewrite Hwti in Hm.
  destruct (count_cooccurences_cells
              (Dict.enumerate (Dict.keys (Corpus.word_counts self)))
              (length (Corpus.word_counts self)) (Corpus.sentences self)
              window_size
              (λ x y, ∃ (i : list string) (p q : nat) (l k : string),
                 i ∈ Corpus.sentences self ∧
                 i !! p = Some l ∧ i !! q = Some k ∧ l ≠ k ∧
                 Corpus.idx_to_word self !! x = Some l ∧
                 Corpus.idx_to_word self !! y = Some k ∧
                 (Z.of_nat q - window_size `div` 2 ≤ Z.of_nat p
                  < Z.of_nat q + window_size `div` 2)%Z ∧
                 p + 1 < length i)) as (m' & Hm' & Hcells).
  - intros w x' Hx. apply dict_enumerate_get in Hx; [| exact Hnd].
    apply lookup_lt_Some in Hx. rewrite keys_length in Hx. exact Hx.
  - intros i j k l x' y' Hi Hk Hl Hne Hx Hy.
    assert (Hh : (0 ≤ window_size `div` 2)%Z) by (apply Z.div_pos; lia).
    pose proof (lookup_lt_Some _ _ _ Hk) as Hj.
    apply py_slice_elem in Hl as (p & Hp & Hrange); [| lia | lia].
    exists i, p, j, l, k. rewrite Hitw.
    apply dict_enumerate_get in Hx; [| exact Hnd].
    apply dict_enumerate_get in Hy; [| exact Hnd].
    repeat split; try assumption; lia.
  - rewrite Hm in Hm'. injection Hm' as <-.
    destruct (Hcells x y v Hv) as (_ & _ & _ & HQ). exact HQ.
Qed.

(** With a window size of 0 or 1 the count matrix is empty. *)
Theorem collocations_empty_for_small_windows (reference output : string)
    (focus : option string) (floor window_size : Z) (c : Corpus.t) :
  (0 ≤ window_size ≤ 1)%Z →
  init' reference output focus floor window_size = Ok c →
  Corpus.collocations c = Some ∅.
Proof.
  intros HW H. apply init_inv in H as (self & m & Hload & Hm & ->).
  apply load_ok in Hload as (_ & Hwti & _ & _). rewrite Hwti in Hm.
  simpl. f_equal.
  assert (Hh : (window_size `div` 2 = 0)%Z) by (apply Z.div_small; lia).
  assert (E : Corpus.count_cooccurences
                (Some (Dict.enumerate (Dict.keys (Corpus.word_counts self))))
                (length (Corpus.word_counts self)) (Corpus.sentences self)
                window_size = Ok ∅).
  { unfold Corpus.count_cooccurences. apply foldlM_unchanged. intros i _.
    unfold Corpus.count_sentence. apply foldlM_unchanged. intros [j k] Hjk.
    apply elem_of_lookup_imap in Hjk as (j' & k' & [= -> ->] & Hk).
    apply lookup_lt_Some in Hk.
    unfold Corpus.count_position. simpl.
    destruct (Dict.get _ k'); [| reflexivity].
    rewrite Hh, py_slice_empty by lia. reflexivity. }
  congruence.
Qed.

End CellFacts.

(** ** Corpus.save *)

Module Save.

Definition with_it (n : nat) (self : Corpus.t) : Corpus.t :=
  Corpus.mk (Corpus.floor self) (Corpus.total_words self)
    (Corpus.vocab_size self) (Corpus.output self) (Corpus.word_counts self)
    (Corpus.docs self) (Corpus.word_to_idx self) (Corpus.idx_to_word self)
    n (Corpus.sentences self) (Corpus.collocations self) (Corpus.shape self).

Definition starts_with_sep (s : string) : bool :=
  match s with
  | String c _ => Ascii.eqb c "/"
  | EmptyString => false
  end.

Fixpoint ends_with_sep (s : string) : bool :=
  match s with
  | EmptyString => false
  | String c EmptyString => Ascii.eqb c "/"
  | String _ r => ends_with_sep r
  end.

(** [os.path.join(a, b)] on a POSIX system. *)
Definition path_join (a b : string) : string :=
  if starts_with_sep b then b
  else if decide (a = EmptyString) then b
  else if ends_with_sep a then a +:+ b
  else a +:+ "/" +:+ b.

(** ['corpus_' + str(it) + '.pkl'] *)
Definition filename (it : nat) : string := "corpus_" +:+ pretty it +:+ ".pkl".

(** The files written, by path: a file holds the pickled corpus, which is
    modelled by the corpus itself. *)
Abbreviation disk := (gmap string Corpus.t).

Section Files.

(** Whether [open(path, 'wb')] succeeds. *)
Variable can_open : string → bool.

(** [save(self)]: the counter is incremented before the file is opened, so
    the new state of [self] is there whether or not the write raises. *)
Definition save (self : Corpus.t) (d : disk) : Corpus.t * result disk :=
  let self := with_it (Corpus.it self + 1) self in
  let filename := filename (Corpus.it self) in
  let out := path_join (Corpus.output self) filename in
  (self, if can_open out then Ok (<[out := self]> d) else Raise OSError).

(** [n] calls of [save] in a row, stopping at the first that raises. *)
Fixpoint save_times (n : nat) (self : Corpus.t) (d : disk)
    : Corpus.t * result disk :=
  match n with
  | 0 => (self, Ok d)
  | S n' =>
      match save self d with
      | (self', Ok d') => save_times n' self' d'
      | (self', Raise e) => (self', Raise e)
      end
  end.

End Files.

End Save.

Section SaveFacts.

Lemma string_app_length (a b : string) :
  String.length (a +:+ b) = String.length a + String.length b.
Proof. induction a as [|c a IH]; simpl; [reflexivity | rewrite IH; reflexivity]. Qed.

Lemma string_app_inv_tail (s : string) : ∀ a b, a +:+ s = b +:+ s → a = b.
Proof.
  induction a as [|c a IH]; intros [|c' b] H; simpl in H.
  - reflexivity.
  - apply (f_equal String.length) in H.
    rewrite !string_app_length in H. simpl in H. lia.
  - apply (f_equal String.length) in H.
    rewrite !string_app_length in H. simpl in H. lia.
  - injection H as -> H. f_equal. apply IH. exact H.
Qed.

Lemma filename_inj (i j : nat) : Save.filename i = Save.filename j → i = j.
Proof.
  unfold Save.filename. intros H.
  apply (String.app_inj "corpus_") in H.
  apply string_app_inv_tail in H. apply (inj pretty) in H. exact H.
Qed.

Lemma filename_relative (i : nat) : Save.starts_with_sep (Save.filename i) = false.
Proof. reflexivity. Qed.

Lemma path_join_inj (output : string) (i j : nat) :
  Save.path_join output (Save.filename i) = Save.path_join output (Save.filename j)
  → i = j.
Proof.
  unfold Save.path_join. rewrite !filename_relative.
  destruct (decide (output = EmptyString)); [apply filename_inj |].
  destruct (Save.ends_with_sep output); intros H.
  - apply String.app_inj in H. apply filename_inj. exact H.
  - apply String.app_inj in H. apply (String.app_inj "/") in H.
    apply filename_inj. exact H.
Qed.

Variable can_open : string → bool.

Lemma save_times_spec (n : nat) : ∀ (self : Corpus.t) (d : Save.disk),
  (∀ k, 1 ≤ k ≤ n →
     can_open (Save.path_join (Corpus.output self)
                 (Save.filename (Corpus.it self + k))) = true) →
  ∃ d', Save.save_times can_open n self d
        = (Save.with_it (Corpus.it self + n) self, Ok d') ∧
    (∀ k, 1 ≤ k ≤ n →
       d' !! Save.path_join (Corpus.output self)
               (Save.filename (Corpus.it self + k))
       = Some (Save.with_it (Corpus.it self + k) self)) ∧
    (∀ path, (∀ k, 1 ≤ k ≤ n →
                path ≠ Save.path_join (Corpus.output self)
                         (Save.filename (Corpus.it self + k))) →
             d' !! path = d !! path).
Proof.
  induction n as [|n IH]; intros self d Hopen; simpl.
  - exists d. split.
    + rewrite Nat.add_0_r. destruct self; reflexivity.
    + split; [intros k Hk; lia | reflexivity].
  - unfold Save.save. cbn [Corpus.it Corpus.output Save.with_it].
    rewrite (Hopen 1) by lia.
    set (self1 := Save.with_it (Corpus.it self + 1) self).
    set (out1 := Save.path_join (Corpus.output self)
                   (Save.filename (Corpus.it self + 1))).
    destruct (IH self1 (<[out1 := self1]> d)) as (d' & Hrun & Hfiles & Hrest).
    { intros k Hk. simpl. rewrite <- Nat.add_assoc. apply Hopen. lia. }
    exists d'. split; [| split].
    + rewrite Hrun. simpl. rewrite <- Nat.add_assoc. reflexivity.
    + intros k Hk. destruct (decide (k = 1)) as [->|Hk1].
      * rewrite Hrest.
        -- apply lookup_insert_eq.
        -- intros j Hj Heq. simpl in Heq. apply path_join_inj in Heq. lia.
      * specialize (Hfiles (k - 1)). simpl in Hfiles.
        replace (Corpus.it self + 1 + (k - 1)) with (Corpus.it self + k)
          in Hfiles by lia.
        apply Hfiles. lia.
    + intros path Hpath. rewrite Hrest.
      * apply lookup_insert_ne. intros <-. apply (Hpath 1); [lia | reflexivity].
      * intros k Hk. simpl. rewrite <- Nat.add_assoc. apply Hpath. lia.
Qed.

(** [n] saves of a corpus that has not been saved yet write [n] different
    files, [corpus_1.pkl] to [corpus_n.pkl] under [output]; the [k]-th file
    holds the corpus with its counter at [k], no save overwrites another,
    and no other file changes. *)
Theorem saves_write_numbered_files (n : nat) (self : Corpus.t) (d : Save.disk) :
  Corpus.it self = 0 →
  (∀ k, 1 ≤ k ≤ n →
     can_open (Save.path_join (Corpus.output self) (Save.filename k)) = true) →
  ∃ d', Save.save_times can_open n self d = (Save.with_it n self, Ok d') ∧
    (∀ k, 1 ≤ k ≤ n →
       d' !! Save.path_join (Corpus.output self) (Save.filename k)
       = Some (Save.with_it k self)) ∧
    (∀ j k, Save.path_join (Corpus.output self) (Save.filename j)
            = Save.path_join (Corpus.output self) (Save.filename k) → j = k) ∧
    (∀ path, (∀ k, 1 ≤ k ≤ n →
                path ≠ Save.path_join (Corpus.output self) (Save.filename k)) →
             d' !! path = d !! path).
Proof.
  intros Hit Hopen.
  destruct (save_times_spec n self d) as (d' & Hrun & Hfiles & Hrest).
  { intros k Hk. rewrite Hit. apply Hopen. exact Hk. }
  rewrite Hit in Hrun, Hfiles, Hrest. simpl in Hrun, Hfiles, Hrest.
  exists d'. split; [exact Hrun |]. split; [exact Hfiles |].
  split; [intros j k; apply path_join_inj | exact Hrest].
Qed.

(** A save that cannot open its file raises the I/O error, and the counter
    has moved all the same: the next save skips the number. *)
Theorem failed_save_keeps_the_increment (self : Corpus.t) (d : Save.disk) :
  can_open (Save.path_join (Corpus.output self)
              (Save.filename (Corpus.it self + 1))) = false →
  Save.save can_open self d
  = (Save.with_it (Corpus.it self + 1) self, Raise OSError).
Proof. intros H. unfold Save.save. simpl. rewrite H. reflexivity. Qed.

End SaveFacts.

(** ** main: the tallies of the scoring pass *)

Module Main.

(** [Word(word, idx, senses)]: a matrix of [senses] rows of zeros. *)
Definition new_word (word : string) (idx senses : nat) : Word.t :=
  Word.mk word idx (replicate senses (0, 0)).

(** [word.senses[sense][0] += 1] for a reference document,
    [word.senses[sense][1] += 1] for any other. *)
Definition count_occurrence (origin : origin) (sense : nat) (word : Word.t)
    : result Word.t :=
  match Word.senses word !! sense with
  | None => Raise IndexError
  | Some row =>
      let row' :=
        match origin with
        | Reference => (row.1 + 1, row.2)
        | Focus => (row.1, row.2 + 1)
        end in
      Ok (Word.mk (Word.word word) (Word.idx word)
            (<[sense := row']> (Word.senses word)))
  end.

Section Scoring.

(** [corpus.idx_to_word] and [hdp.senses.shape[0]]. *)
Variable idx_to_word : list string.
Variable senses : nat.

(** The body of [for w in p]. *)
Definition score_token (origin : origin) (sense : nat)
    (words : Dict.t Word.t) (w : nat) : result (Dict.t Word.t) :=
  match idx_to_word !! w with
  | None => Raise IndexError
  | Some name =>
      match Dict.get words name with
      | Some word =>
          word' ← count_occurrence origin sense word;
          Ok (Dict.set name word' words)
      | None =>
          word ← count_occurrence origin sense (new_word name w senses);
          Ok (Dict.set (Word.word word) word words)
      end
  end.

(** The body of [for i, p in enumerate(j.partition)]. *)
Definition score_cluster (j : Document.t) (words : Dict.t Word.t)
    (ip : nat * list nat) : result (Dict.t Word.t) :=
  let origin := Document.category j in
  match Document.topic_to_global_idx j !! ip.1 with
  | None => Raise IndexError
  | Some sense => foldlM (score_token origin sense) words ip.2
  end.

Definition score_document (words : Dict.t Word.t) (j : Document.t)
    : result (Dict.t Word.t) :=
  foldlM (score_cluster j) words (imap pair (Document.partition j)).

(** The dictionary [words] after the loop over [corpus.docs]. *)
Definition score_words (docs : list Document.t) : result (Dict.t Word.t) :=
  foldlM score_document [] docs.

End Scoring.

End Main.

#[global] Instance origin_eq_dec : EqDecision origin.
Proof. solve_decision. Defined.

(** The occurrences that the scoring pass visits, in order: the word, the
    global sense of its cluster and the category of its document.  (When
    the pass returns, every lookup has succeeded and no default is used.) *)
Definition token_event (idx_to_word : list string) (o : origin) (sense w : nat)
    : string * nat * origin :=
  (default EmptyString (idx_to_word !! w), sense, o).

Definition cluster_events (idx_to_word : list string) (j : Document.t)
    (ip : nat * list nat) : list (string * nat * origin) :=
  token_event idx_to_word (Document.category j)
    (default 0 (Document.topic_to_global_idx j !! ip.1)) <$> ip.2.

Definition document_events (idx_to_word : list string) (j : Document.t)
    : list (string * nat * origin) :=
  concat (cluster_events idx_to_word j <$> imap pair (Document.partition j)).

Definition events (idx_to_word : list string) (docs : list Document.t)
    : list (string * nat * origin) :=
  concat (document_events idx_to_word <$> docs).

(** How often the word [name] occurs in sense [s] in documents of
    category [o]. *)
Definition tally (evs : list (string * nat * origin)) (name : string)
    (s : nat) (o : origin) : nat :=
  length (filter (λ e, e = (name, s, o)) evs).

Definition senses_of_tally (evs : list (string * nat * origin))
    (name : string) (n : nat) : list (nat * nat) :=
  (λ s, (tally evs name s Reference, tally evs name s Focus)) <$> seq 0 n.

Section TallyFacts.

Implicit Types (evs : list (string * nat * origin)) (e : string * nat * origin).

Lemma tally_snoc evs e (name : string) (s : nat) (o : origin) :
  tally (evs ++ [e]) name s o
  = tally evs name s o + (if decide (e = (name, s, o)) then 1 else 0).
Proof.
  unfold tally. rewrite filter_app, length_app. f_equal.
  rewrite filter_cons, filter_nil. destruct (decide _); reflexivity.
Qed.

Lemma tally_zero evs (name : string) (s : nat) (o : origin) :
  (name, s, o) ∉ evs → tally evs name s o = 0.
Proof.
  intros H. unfold tally.
  destruct (filter (λ e, e = (name, s, o)) evs) as [|e l] eqn:E; [reflexivity |].
  exfalso. apply H.
  assert (He : e ∈ filter (λ e, e = (name, s, o)) evs)
    by (rewrite E; apply elem_of_cons; auto).
  apply list_elem_of_filter in He as [-> He]. exact He.
Qed.

Lemma tally_pos evs (name : string) (s : nat) (o : origin) :
  (name, s, o) ∈ evs → 1 ≤ tally evs name s o.
Proof.
  intros H. unfold tally.
  assert (He : (name, s, o) ∈ filter (λ e, e = (name, s, o)) evs)
    by (apply list_elem_of_filter; auto).
  destruct (filter _ evs); [apply elem_of_nil in He; contradiction | simpl; lia].
Qed.

Lemma senses_of_tally_lookup evs (name : string) (n s : nat) :
  s < n →
  senses_of_tally evs name n !! s
  = Some (tally evs name s Reference, tally evs name s Focus).
Proof.
  intros Hs. unfold senses_of_tally.
  rewrite list_lookup_fmap, lookup_seq_lt by exact Hs. reflexivity.
Qed.

Lemma senses_of_tally_length evs (name : string) (n : nat) :
  length (senses_of_tally evs name n) = n.
Proof. unfold senses_of_tally. rewrite length_fmap, length_seq. reflexivity. Qed.

Lemma senses_of_tally_fresh evs (name : string) (n : nat) :
  (∀ s o, (name, s, o) ∉ evs) →
  senses_of_tally evs name n = replicate n (0, 0).
Proof.
  intros H. apply list_eq. intros s.
  destruct (decide (s < n)) as [Hs|Hs].
  - rewrite senses_of_tally_lookup by exact Hs.
    rewrite lookup_replicate_2 by exact Hs.
    rewrite !tally_zero by apply H. reflexivity.
  - rewrite !lookup_ge_None_2; [reflexivity | |].
    + rewrite length_replicate. lia.
    + rewrite senses_of_tally_length. lia.
Qed.

Lemma senses_of_tally_other evs (name name' : string) (s : nat) (o : origin)
    (n : nat) :
  name ≠ name' →
  senses_of_tally (evs ++ [(name, s, o)]) name' n = senses_of_tally evs name' n.
Proof.
  intros Hne. unfold senses_of_tally. apply list_fmap_ext. intros _ s' _.
  rewrite !tally_snoc. rewrite !decide_False by congruence.
  rewrite !Nat.add_0_r. reflexivity.
Qed.

(** One more occurrence, in the matrix of the word. *)
Lemma count_occurrence_tally evs (name : string) (idx n s : nat) (o : origin) :
  Main.count_occurrence o s (Word.mk name idx (senses_of_tally evs name n))
  = if decide (s < n)
    then Ok (Word.mk name idx (senses_of_tally (evs ++ [(name, s, o)]) name n))
    else Raise IndexError.
Proof.
  unfold Main.count_occurrence. simpl. destruct (decide (s < n)) as [Hs|Hs].
  - rewrite senses_of_tally_lookup by exact Hs. simpl. do 2 f_equal.
    apply list_eq. intros s'. destruct (decide (s' < n)) as [Hs'|Hs'].
    + rewrite senses_of_tally_lookup by exact Hs'.
      destruct (decide (s = s')) as [<-|Hne].
      * rewrite list_lookup_insert_eq by (rewrite senses_of_tally_length; exact Hs).
        rewrite !tally_snoc. destruct o.
        -- rewrite decide_True by reflexivity.
           rewrite decide_False by discriminate.
           rewrite Nat.add_0_r. reflexivity.
        -- rewrite decide_False by discriminate.
           rewrite decide_True by reflexivity.
           rewrite Nat.add_0_r. reflexivity.
      * rewrite list_lookup_insert_ne by exact Hne.
        rewrite senses_of_tally_lookup by exact Hs'.
        rewrite !tally_snoc. rewrite !decide_False by congruence.
        rewrite !Nat.add_0_r. reflexivity.
    + rewrite !lookup_ge_None_2; [reflexivity | |].
      * rewrite senses_of_tally_length. lia.
      * rewrite length_insert, senses_of_tally_length. lia.
  - rewrite lookup_ge_None_2; [reflexivity |].
    rewrite senses_of_tally_length. lia.
Qed.

End TallyFacts.

Lemma foldlM_ghost {A B G} (f : B → A → result B) (ev : A → list G)
    (P : B → list G → Prop) (l : list A) : ∀ b g b',
  (∀ b g x b', P b g → f b x = Ok b' → P b' (g ++ ev x)) →
  P b g → foldlM f b l = Ok b' → P b' (g ++ concat (ev <$> l)).
Proof.
  induction l as [|x l IH]; intros b g b' Hf Hb; csimpl.
  - intros [= <-]. rewrite app_nil_r. exact Hb.
  - destruct (f b x) as [b1|] eqn:E; [| discriminate]. csimpl. intros H.
    rewrite app_assoc. eapply IH; [exact Hf | | exact H]. eapply Hf; eauto.
Qed.

Lemma foldlM_ok_steps {A B} (f : B → A → result B) (l : list A) : ∀ b b',
  foldlM f b l = Ok b' → ∀ x, x ∈ l → ∃ b1 b2, f b1 x = Ok b2.
Proof.
  induction l as [|y l IH]; intros b b' H x Hx; csimpl in H.
  - apply elem_of_nil in Hx. contradiction.
  - destruct (f b y) as [b1|] eqn:E; [| discriminate]. csimpl in H.
    apply elem_of_cons in Hx as [->|Hx]; [eauto |]. eapply IH; eauto.
Qed.

Lemma foldlM_raises {A B} (f : B → A → result B) (e0 : exn) (l : list A) :
  ∀ b e, (∀ b x e, f b x = Raise e → e = e0) →
         foldlM f b l = Raise e → e = e0.
Proof.
  induction l as [|y l IH]; intros b e Hf; csimpl; [discriminate |].
  destruct (f b y) as [b1|e1] eqn:E; csimpl.
  - apply IH. exact Hf.
  - intros [= <-]. eapply Hf. exact E.
Qed.

Section ScoringFacts.

Variable idx_to_word : list string.
Variable senses : nat.

Implicit Types (words : Dict.t Word.t) (evs : list (string * nat * origin)).

(** The dictionary [words] holds the tallies of the occurrences [evs]. *)
Definition tallied words evs : Prop :=
  NoDup (Dict.keys words) ∧
  (∀ name word, Dict.get words name = Some word →
     ∃ idx, word = Word.mk name idx (senses_of_tally evs name senses) ∧
            idx_to_word !! idx = Some name ∧
            ∃ s o, (name, s, o) ∈ evs ∧ s < senses) ∧
  (∀ name, Dict.get words name = None → ∀ s o, (name, s, o) ∉ evs) ∧
  Forall (λ e : string * nat * origin, e.1.2 < senses) evs.

Lemma tallied_set words evs (name : string) (idx sense : nat) (o : origin) :
  tallied words evs → sense < senses → idx_to_word !! idx = Some name →
  (∀ word, Dict.get words name = Some word →
           word = Word.mk name idx (senses_of_tally evs name senses)) →
  tallied
    (Dict.set name
       (Word.mk name idx (senses_of_tally (evs ++ [(name, sense, o)]) name senses))
       words)
    (evs ++ [(name, sense, o)]).
Proof.
  intros (Hnd & Hsome & Hnone & Hall) Hs Hidx Hword. split; [| split; [| split]].
  - rewrite dict_set_keys. destruct (decide _) as [|Hk]; [exact Hnd |].
    apply NoDup_app. split; [exact Hnd |]. split; [| apply NoDup_singleton].
    intros x Hx Hx'. apply list_elem_of_singleton in Hx'. subst. contradiction.
  - intros name' word' Hget. destruct (decide (name = name')) as [<-|Hne].
    + rewrite dict_get_set_eq in Hget. injection Hget as <-.
      exists idx. split; [reflexivity |]. split; [exact Hidx |].
      exists sense, o. split; [| exact Hs].
      apply elem_of_app. right. apply list_elem_of_singleton. reflexivity.
    + rewrite dict_get_set_ne in Hget by exact Hne.
      destruct (Hsome name' word' Hget) as (idx' & -> & Hidx' & s & o' & Hin & Hlt).
      exists idx'. rewrite senses_of_tally_other by exact Hne.
      split; [reflexivity |]. split; [exact Hidx' |].
      exists s, o'. split; [apply elem_of_app; auto | exact Hlt].
  - intros name' Hget s o' Hin. destruct (decide (name = name')) as [<-|Hne].
    + rewrite dict_get_set_eq in Hget. discriminate.
    + rewrite dict_get_set_ne in Hget by exact Hne.
      apply elem_of_app in Hin as [Hin|Hin]; [exact (Hnone name' Hget s o' Hin) |].
      apply list_elem_of_singleton in Hin. congruence.
  - apply Forall_app. split; [exact Hall |].
    constructor; [exact Hs | constructor].
Qed.

Lemma score_token_tallied (o : origin) (sense : nat) words evs (w : nat)
    words' :
  tallied words evs →
  Main.score_token idx_to_word senses o sense words w = Ok words' →
  tallied words' (evs ++ [token_event idx_to_word o sense w]).
Proof.
  intros Ht. unfold Main.score_token, token_event.
  destruct (idx_to_word !! w) as [name|] eqn:Hw; [| discriminate]. simpl.
  destruct (Dict.get words name) as [word|] eqn:Hget.
  - pose proof Ht as (Hnd & Hsome & Hnone & Hall).
    destruct (Hsome name word Hget) as (idx & -> & Hidx & _).
    rewrite count_occurrence_tally.
    destruct (decide (sense < senses)) as [Hs|]; [| discriminate].
    csimpl. intros [= <-].
    apply tallied_set; [exact Ht | exact Hs | exact Hidx |].
    intros word' Hword'. congruence.
  - unfold Main.new_word.
    rewrite <- (senses_of_tally_fresh evs name senses)
      by (destruct Ht as (_ & _ & Hnone & _); apply Hnone; exact Hget).
    rewrite count_occurrence_tally.
    destruct (decide (sense < senses)) as [Hs|]; [| discriminate].
    csimpl. intros [= <-].
    apply tallied_set; [exact Ht | exact Hs | exact Hw |].
    intros word' Hword'. congruence.
Qed.

Lemma concat_singletons {A B} (f : A → B) (l : list A) :
  concat ((λ x, [f x]) <$> l) = f <$> l.
Proof.
  induction l as [|x l IH]; csimpl; [reflexivity | rewrite IH; reflexivity].
Qed.

Lemma score_cluster_tallied (j : Document.t) words evs (ip : nat * list nat)
    words' :
  tallied words evs →
  Main.score_cluster idx_to_word senses j words ip = Ok words' →
  tallied words' (evs ++ cluster_events idx_to_word j ip).
Proof.
  intros Ht. unfold Main.score_cluster, cluster_events.
  destruct (Document.topic_to_global_idx j !! ip.1) as [sense|]; [| discriminate].
  simpl. intros H. rewrite <- concat_singletons.
  eapply (foldlM_ghost _ (λ w, [token_event idx_to_word (Document.category j) sense w])
            tallied); [| exact Ht | exact H].
  intros b g x b' Hb Hx. eapply score_token_tallied; eauto.
Qed.

Lemma score_words_tallied (docs : list Document.t) words :
  Main.score_words idx_to_word senses docs = Ok words →
  tallied words (events idx_to_word docs).
Proof.
  unfold Main.score_words, events. intros H.
  change (concat (document_events idx_to_word <$> docs))
    with ([] ++ concat (document_events idx_to_word <$> docs)).
  eapply (foldlM_ghost _ (document_events idx_to_word) tallied); [| | exact H].
  - intros b g j b' Hb Hj. unfold Main.score_document in Hj.
    unfold document_events.
    eapply (foldlM_ghost _ (cluster_events idx_to_word j) tallied);
      [| exact Hb | exact Hj].
    intros b0 g0 ip b0' Hb0 Hip. eapply score_cluster_tallied; eauto.
  - split; [constructor |]. split; [discriminate |].
    split; [| constructor].
    intros name _ s o Hin. apply elem_of_nil in Hin. exact Hin.
Qed.

(** When the scoring pass returns, the matrix of every word holds, row by
    row, the number of its occurrences in that sense in the reference
    documents and in the other documents, the words scored are the words
    that occur, and [idx] is an id of the word. *)
Theorem scoring_pass_tallies_occurrences (docs : list Document.t) words :
  Main.score_words idx_to_word senses docs = Ok words →
  (∀ name word, Dict.get words name = Some word →
     Word.word word = name ∧
     idx_to_word !! Word.idx word = Some name ∧
     Word.senses word = senses_of_tally (events idx_to_word docs) name senses) ∧
  (∀ name, name ∈ Dict.keys words
           ↔ ∃ s o, (name, s, o) ∈ events idx_to_word docs) ∧
  Forall (λ e : string * nat * origin, e.1.2 < senses) (events idx_to_word docs).
Proof.
  intros H. apply score_words_tallied in H as (Hnd & Hsome & Hnone & Hall).
  split; [| split; [| exact Hall]].
  - intros name word Hget.
    destruct (Hsome name word Hget) as (idx & -> & Hidx & _). auto.
  - intros name. split.
    + intros Hk. apply dict_get_is_Some in Hk as [word Hget].
      destruct (Hsome name word Hget) as (_ & _ & _ & s & o & Hin & _). eauto.
    + intros (s & o & Hin).
      destruct (Dict.get words name) as [word|] eqn:Hget.
      * destruct (decide (name ∈ Dict.keys words)) as [|Hno]; [assumption |].
        apply dict_get_None in Hno. congruence.
      * exfalso. exact (Hnone name Hget s o Hin).
Qed.

End ScoringFacts.

Section ScoringResults.

Variable idx_to_word : list string.
Variable senses : nat.

(** Every word that the scoring pass builds has an occurrence, so
    [calculate] returns a score for it, between -1 and 1. *)
Theorem scored_words_have_a_score (docs : list Document.t)
    (words : Dict.t Word.t) (name : string) (word : Word.t) :
  Main.score_words idx_to_word senses docs = Ok words →
  Dict.get words name = Some word →
  ∃ m s, Word.calculate word = Ok (m, s) ∧ (-1 <= m)%Q ∧ (m <= 1)%Q.
Proof.
  intros H Hget. apply score_words_tallied in H as (_ & Hsome & _ & _).
  destruct (Hsome name word Hget) as (idx & -> & _ & s & o & Hin & Hs).
  destruct (calculate_returns_unless_all_zero_aux
              (Word.mk name idx
                 (senses_of_tally (events idx_to_word docs) name senses)))
    as [_ [_ Hret]].
  destruct Hret as (m & s' & Hcalc).
  - simpl. intros Hall. rewrite Forall_forall in Hall.
    pose proof (senses_of_tally_lookup (events idx_to_word docs) name senses s Hs)
      as Hrow.
    apply list_elem_of_lookup_2, Hall in Hrow. destruct Hrow as [H1 H2].
    simpl in H1, H2. pose proof (tally_pos _ _ _ _ Hin) as Hpos.
    destruct o; lia.
  - exists m, s'. split; [exact Hcalc |].
    eapply calculate_score_bounds_aux. exact Hcalc.
Qed.

Lemma score_token_raises (o : origin) (sense : nat) (words : Dict.t Word.t)
    (w : nat) (e : exn) :
  Main.score_token idx_to_word senses o sense words w = Raise e → e = IndexError.
Proof.
  unfold Main.score_token, Main.count_occurrence.
  destruct (idx_to_word !! w); [| congruence].
  destruct (Dict.get words _).
  - destruct (Word.senses _ !! sense); csimpl; congruence.
  - destruct (Word.senses _ !! sense); csimpl; congruence.
Qed.

Lemma scoring_pass_lookups_aux (docs : list Document.t) :
  (∀ e, Main.score_words idx_to_word senses docs = Raise e → e = IndexError) ∧
  (∀ words, Main.score_words idx_to_word senses docs = Ok words →
     ∀ j, j ∈ docs →
       length (Document.partition j) ≤ length (Document.topic_to_global_idx j) ∧
       ∀ p w, p ∈ Document.partition j → w ∈ p → w < length idx_to_word).
Proof.
  split.
  - intros e. unfold Main.score_words. apply foldlM_raises.
    intros b j e'. unfold Main.score_document. apply foldlM_raises.
    intros b' ip e''. unfold Main.score_cluster.
    destruct (Document.topic_to_global_idx j !! ip.1); [| congruence].
    apply foldlM_raises. intros b'' w e'''. apply score_token_raises.
  - intros words H j Hj. unfold Main.score_words in H.
    destruct (foldlM_ok_steps _ _ _ _ H j Hj) as (b1 & b2 & Hdoc).
    unfold Main.score_document in Hdoc.
    assert (Hcl : ∀ i p, Document.partition j !! i = Some p →
              i < length (Document.topic_to_global_idx j) ∧
              ∀ w, w ∈ p → w < length idx_to_word).
    { intros i p Hp.
      destruct (foldlM_ok_steps _ _ _ _ Hdoc (i, p)) as (b3 & b4 & Hc).
      { apply elem_of_lookup_imap. eauto. }
      unfold Main.score_cluster in Hc. simpl in Hc.
      destruct (Document.topic_to_global_idx j !! i) as [sense|] eqn:Hi;
        [| discriminate].
      split; [eapply lookup_lt_Some; exact Hi |].
      intros w Hw. destruct (foldlM_ok_steps _ _ _ _ Hc w Hw) as (b5 & b6 & Ht).
      unfold Main.score_token in Ht.
      destruct (idx_to_word !! w) eqn:Hw'; [| discriminate].
      eapply lookup_lt_Some. exact Hw'. }
    split.
    + destruct (decide (length (Document.partition j)
                        ≤ length (Document.topic_to_global_idx j)))
        as [|Hgt]; [assumption |].
      destruct (lookup_lt_is_Some_2 (Document.partition j)
                  (length (Document.topic_to_global_idx j))) as [p Hp]; [lia |].
      apply Hcl in Hp as [Hp _]. lia.
    + intros p w Hp Hw. apply list_elem_of_lookup_1 in Hp as [i Hi].
      apply (Hcl i p Hi). exact Hw.
Qed.

(** The scoring pass raises nothing but [IndexError]; when it returns,
    every cluster of every document has a global sense and every id in a
    cluster is an index of [idx_to_word]. *)
Theorem scoring_pass_lookups (docs : list Document.t) :
  (∀ e, Main.score_words idx_to_word senses docs = Raise e → e = IndexError) ∧
  (∀ words, Main.score_words idx_to_word senses docs = Ok words →
     ∀ j, j ∈ docs →
       length (Document.partition j) ≤ length (Document.topic_to_global_idx j) ∧
       ∀ p w, p ∈ Document.partition j → w ∈ p → w < length idx_to_word).
Proof. apply scoring_pass_lookups_aux. Qed.

(** Before the clusters of a document have global senses, the scoring pass
    raises [IndexError]: so it does on a document that [init_partition] has
    just partitioned. *)
Theorem scoring_needs_global_senses (docs : list Document.t) (j : Document.t) :
  j ∈ docs →
  length (Document.topic_to_global_idx j) < length (Document.partition j) →
  Main.score_words idx_to_word senses docs = Raise IndexError.
Proof.
  intros Hj Hlen. destruct (scoring_pass_lookups_aux docs) as [Hraise Hok].
  destruct (Main.score_words idx_to_word senses docs) as [words|e] eqn:E.
  - destruct (Hok words eq_refl j Hj) as [Hle _]. lia.
  - f_equal. apply Hraise. reflexivity.
Qed.

End ScoringResults.

(** ** The frequency floor, once more *)

(** The removal set holds the stopwords and the tokens that the tokenizer
    yields at least once and fewer than [floor] times, and nothing else. *)
Theorem removal_set_members (english_stopwords : list string) (floor : Z)
    (word_counts : Counter.t) (w : string) :
  w ∈ Corpus.removal_set english_stopwords floor word_counts
  ↔ w ∈ english_stopwords ∨ ∃ n, (w, n) ∈ word_counts ∧ (n < floor)%Z.
Proof. apply removal_set_spec. Qed.

(** A token that the tokenizer yields at least once and fewer than [floor]
    times is in the removal set and in no filtered sentence. *)
Theorem floor_removes_counted_tokens (word_tokenize : string → list string)
    (english_stopwords : list string) (floor : Z) (strs : list string)
    (w : string) :
  (0 < occurrences w (concat (word_tokenize <$> strs)) < floor)%Z →
  w ∈ stopwords_of word_tokenize english_stopwords floor strs ∧
  Forall (λ s, w ∉ s) (filtered_lines word_tokenize english_stopwords floor strs).
Proof. apply rare_token_is_removed. Qed.

(** A token that the tokenizer never yields and that is no stopword is not
    in the removal set, whatever the floor: if a line splits into it, it
    stays in the sentence. *)
Theorem floor_misses_uncounted_tokens (word_tokenize : string → list string)
    (english_stopwords : list string) (floor : Z) (strs : list string)
    (w : string) :
  w ∉ concat (word_tokenize <$> strs) → w ∉ english_stopwords →
  (w ∉ stopwords_of word_tokenize english_stopwords floor strs) ∧
  ∀ line, line ∈ strs → w ∈ Text.split Text.space line →
          w ∈ Corpus.keep_tokens
                (stopwords_of word_tokenize english_stopwords floor strs) line.
Proof.
  intros Hw Hs.
  pose proof (uncounted_token_is_kept word_tokenize english_stopwords floor
                strs w Hw Hs) as Hno.
  split; [exact Hno |]. intros line _ Hin. unfold Corpus.keep_tokens.
  apply list_elem_of_filter. auto.
Qed.

(** ** The further properties at work *)

Definition third : nat → Q := λ _, (1 # 3)%Q.


(** Four words and draws of 1/3: one cluster. *)
Lemma init_partition_cluster_count_witness :
  (length (Document.partition
             (Document.mk 0 [[7; 8; 9; 10]] [] [7; 8; 9; 10] Reference))
   <= length [7; 8; 9; 10])%nat ∧
  ([7; 8; 9; 10] ≠ [] →
   (1 <= length (Document.partition
                   (Document.mk 0 [[7; 8; 9; 10]] [] [7; 8; 9; 10] Reference)))%nat).
Proof.
  apply (init_partition_cluster_count 1 third 0 [7; 8; 9; 10] Reference
           (Document.mk 0 [[7; 8; 9; 10]] [] [7; 8; 9; 10] Reference));
    reflexivity.
Defined.

Lemma init_partition_alpha_zero_witness :
  Document.init_partition 0 third (Document.init 0 [7] Reference)
  = Raise ZeroDivisionError.
Proof.
  apply (init_partition_alpha_zero 0 third (Document.init 0 [7] Reference)).
  - reflexivity.
  - discriminate.
Defined.

(** A word seen in the senses 0, 1 and 3. *)
Definition seen : Word.t := Word.mk "w" 0 [(1, 2); (3, 1); (0, 0); (0, 5)].


Lemma calculate_score_bounds_witness :
  (-1 <= 25 # 25)%Q ∧ (25 # 25 <= 1)%Q.
Proof.
  apply (calculate_score_bounds seen (25 # 25)%Q 3). reflexivity.
Defined.


(** Two lines and a floor of 2: [owl] occurs once. *)
Lemma floor_removes_counted_tokens_witness :
  "owl"%string ∈ stopwords_of Examples.word_tokenize Examples.english_stopwords 2
            ["owl cat cat the"; "cat"]%string ∧
  Forall (λ s, "owl"%string ∉ s)
    (filtered_lines Examples.word_tokenize Examples.english_stopwords 2
       ["owl cat cat the"; "cat"]%string).
Proof.
  apply (floor_removes_counted_tokens Examples.word_tokenize
           Examples.english_stopwords 2 ["owl cat cat the"; "cat"]%string "owl").
  vm_compute. split; reflexivity.
Defined.

(** The empty token of a blank line. *)
Lemma floor_misses_uncounted_tokens_witness :
  (EmptyString ∉ stopwords_of Examples.word_tokenize Examples.english_stopwords 2
                   ["cat cat"; ""]%string) ∧
  ∀ line, line ∈ ["cat cat"; ""]%string →
          EmptyString ∈ Text.split Text.space line →
          EmptyString ∈ Corpus.keep_tokens
            (stopwords_of Examples.word_tokenize Examples.english_stopwords 2
               ["cat cat"; ""]%string) line.
Proof.
  apply (floor_misses_uncounted_tokens Examples.word_tokenize
           Examples.english_stopwords 2 ["cat cat"; ""]%string EmptyString).
  - apply (bool_decide_unpack _). vm_compute. reflexivity.
  - apply (bool_decide_unpack _). vm_compute. reflexivity.
Defined.

Lemma word_counts_tally_witness :
  Counter.get (Corpus.word_counts example_both) "sat"
  = occurrences "sat" (concat (Corpus.sentences example_both)).
Proof.
  apply (word_counts_tally_sentences Examples.word_tokenize
           Examples.english_stopwords Examples.fs
           "reference.txt" "out" (Some "focus.txt"%string) 0 example_both "sat").
  vm_compute. reflexivity.
Defined.

Lemma vocabulary_is_the_tokens_witness :
  "owl"%string ∈ Corpus.idx_to_word example_both
  ↔ "owl"%string ∈ concat (Corpus.sentences example_both).
Proof.
  apply (vocabulary_is_the_tokens Examples.word_tokenize
           Examples.english_stopwords Examples.fs
           "reference.txt" "out" (Some "focus.txt"%string) 0 example_both "owl").
  vm_compute. reflexivity.
Defined.

Lemma stopwords_never_in_vocabulary_witness :
  ("the"%string ∉ concat (Corpus.sentences example_both)) ∧
  ("the"%string ∉ Corpus.idx_to_word example_both) ∧
  ∀ d, Corpus.word_to_idx example_both = Some d → Dict.get d "the" = None.
Proof.
  apply (stopwords_never_in_vocabulary Examples.word_tokenize
           Examples.english_stopwords Examples.fs
           "reference.txt" "out" (Some "focus.txt"%string) 0 example_both "the").
  - vm_compute. reflexivity.
  - apply (bool_decide_unpack _). vm_compute. reflexivity.
Defined.


(** A focus file that opens and cannot be decoded, and a reference file
    that cannot be opened. *)
Example files_that_cannot_be_read :
  Corpus.init Examples.word_tokenize Examples.english_stopwords Examples.fs
    Examples.ppmi_value "reference.txt" "out" (Some "latin1.txt"%string) 0 4
  = Raise UnicodeDecodeError ∧
  Corpus.init Examples.word_tokenize Examples.english_stopwords Examples.fs
    Examples.ppmi_value "missing.txt" "out" (Some "focus.txt"%string) 0 4
  = Raise OSError.
Proof. vm_compute. auto. Qed.

(** The first document of the example, partitioned with [alpha = 1] and
    draws of 0.25. *)
Lemma corpus_documents_get_partitioned_witness :
  Document.partition (Document.init 0 [0; 1; 2] Reference) = [] ∧
  Document.topic_to_global_idx (Document.init 0 [0; 1; 2] Reference) = [] ∧
  Document.words (Document.mk 0 [[0; 1; 2]] [] [0; 1; 2] Reference)
  = Document.words (Document.init 0 [0; 1; 2] Reference) ∧
  Document.topic_to_global_idx
    (Document.mk 0 [[0; 1; 2]] [] [0; 1; 2] Reference) = [] ∧
  ∃ placed,
    placed `sublist_of` Document.words (Document.init 0 [0; 1; 2] Reference) ∧
    concat (Document.partition
              (Document.mk 0 [[0; 1; 2]] [] [0; 1; 2] Reference)) ≡ₚ placed ∧
    Forall (λ c, c ≠ [])
      (Document.partition (Document.mk 0 [[0; 1; 2]] [] [0; 1; 2] Reference)) ∧
    length (Document.partition
              (Document.mk 0 [[0; 1; 2]] [] [0; 1; 2] Reference))
    ≤ length placed.
Proof.
  apply (corpus_documents_get_partitioned Examples.word_tokenize
           Examples.english_stopwords Examples.fs
           "reference.txt" "out" (Some "focus.txt"%string) 0 example_both
           1%float (λ _, 0.25%float) (Document.init 0 [0; 1; 2] Reference)
           (Document.mk 0 [[0; 1; 2]] [] [0; 1; 2] Reference)).
  - vm_compute. reflexivity.
  - apply (list_elem_of_lookup_2 _ 0). reflexivity.
  - vm_compute. reflexivity.
Defined.

Lemma collocations_cells_off_diagonal_witness :
  ∃ m, Corpus.collocations example_corpus = Some m ∧
       Corpus.shape example_corpus
       = Some (Corpus.vocab_size example_corpus, Corpus.vocab_size example_corpus) ∧
       ∀ x y v, m !! (x, y) = Some v →
                x < Corpus.vocab_size example_corpus ∧
                y < Corpus.vocab_size example_corpus ∧ x ≠ y ∧ (1 ≤ v)%Z.
Proof.
  apply (collocations_cells_off_diagonal Examples.word_tokenize
           Examples.english_stopwords Examples.fs Examples.ppmi_value
           "reference.txt" "out" (Some "focus.txt"%string) 0 4 example_corpus).
  vm_compute. reflexivity.
Defined.

Definition example_counts : matrix :=
  default ∅ (Corpus.collocations example_corpus).

(** The cell (owl, sat) of the example: the sentence [owl sat]. *)
Lemma collocations_cells_are_cooccurrences_witness :
  ∃ (i : list string) (p q : nat) (l k : string),
    i ∈ Corpus.sentences example_corpus ∧
    i !! p = Some l ∧ i !! q = Some k ∧ l ≠ k ∧
    Corpus.idx_to_word example_corpus !! 5 = Some l ∧
    Corpus.idx_to_word example_corpus !! 1 = Some k ∧
    (Z.of_nat q - 4 `div` 2 ≤ Z.of_nat p < Z.of_nat q + 4 `div` 2)%Z ∧
    p + 1 < length i.
Proof.
  apply (collocations_cells_are_cooccurrences Examples.word_tokenize
           Examples.english_stopwords Examples.fs Examples.ppmi_value
           "reference.txt" "out" (Some "focus.txt"%string) 0 4 example_corpus
           example_counts 5 1 1%Z).
  - lia.
  - vm_compute. reflexivity.
  - vm_compute. reflexivity.
  - vm_compute. reflexivity.
Defined.

Definition example_window_one : Corpus.t :=
  match Corpus.init Examples.word_tokenize Examples.english_stopwords
          Examples.fs Examples.ppmi_value
          "reference.txt" "out" (Some "focus.txt"%string) 0 1 with
  | Ok c => c
  | Raise _ => Corpus.empty 0 "out"
  end.

Lemma collocations_empty_for_small_windows_witness :
  Corpus.collocations example_window_one = Some ∅.
Proof.
  apply (collocations_empty_for_small_windows Examples.word_tokenize
           Examples.english_stopwords Examples.fs Examples.ppmi_value
           "reference.txt" "out" (Some "focus.txt"%string) 0 1
           example_window_one).
  - lia.
  - vm_compute. reflexivity.
Defined.

(** Two saves of the example corpus, on a disk that accepts every file. *)
Lemma saves_write_numbered_files_witness :
  ∃ d', Save.save_times (λ _, true) 2 example_reference ∅
        = (Save.with_it 2 example_reference, Ok d') ∧
    (∀ k, 1 ≤ k ≤ 2 →
       d' !! Save.path_join (Corpus.output example_reference) (Save.filename k)
       = Some (Save.with_it k example_reference)) ∧
    (∀ j k, Save.path_join (Corpus.output example_reference) (Save.filename j)
            = Save.path_join (Corpus.output example_reference) (Save.filename k)
            → j = k) ∧
    (∀ path, (∀ k, 1 ≤ k ≤ 2 →
                path ≠ Save.path_join (Corpus.output example_reference)
                         (Save.filename k)) →
             d' !! path = (∅ : Save.disk) !! path).
Proof.
  apply (saves_write_numbered_files (λ _, true) 2 example_reference ∅).
  - reflexivity.
  - intros k _. reflexivity.
Defined.

(** Two documents with global senses, over a vocabulary of three words. *)
Definition scored_docs : list Document.t :=
  [Document.mk 0 [[0; 1]; [2]] [1; 0] [0; 1; 2] Reference;
   Document.mk 0 [[0]; [1; 1]] [1; 1] [0; 1; 1] Focus].

Definition scored_words : Dict.t Word.t :=
  [("cat", Word.mk "cat" 0 [(0, 0); (1, 1)]);
   ("sat", Word.mk "sat" 1 [(0, 0); (1, 2)]);
   ("mat", Word.mk "mat" 2 [(1, 0); (0, 0)])]%string.

Lemma scoring_pass_tallies_witness :
  (∀ name word, Dict.get scored_words name = Some word →
     Word.word word = name ∧
     ["cat"; "sat"; "mat"]%string !! Word.idx word = Some name ∧
     Word.senses word
     = senses_of_tally (events ["cat"; "sat"; "mat"]%string scored_docs) name 2) ∧
  (∀ name, name ∈ Dict.keys scored_words
           ↔ ∃ s o, (name, s, o) ∈ events ["cat"; "sat"; "mat"]%string scored_docs) ∧
  Forall (λ e : string * nat * origin, e.1.2 < 2)
    (events ["cat"; "sat"; "mat"]%string scored_docs).
Proof.
  apply (scoring_pass_tallies_occurrences ["cat"; "sat"; "mat"]%string 2
           scored_docs scored_words).
  reflexivity.
Defined.

Lemma scored_words_have_a_score_witness :
  ∃ m s, Word.calculate (Word.mk "sat" 1 [(0, 0); (1, 2)]) = Ok (m, s) ∧
         (-1 <= m)%Q ∧ (m <= 1)%Q.
Proof.
  apply (scored_words_have_a_score ["cat"; "sat"; "mat"]%string 2
           scored_docs scored_words "sat" (Word.mk "sat" 1 [(0, 0); (1, 2)])).
  - reflexivity.
  - reflexivity.
Defined.

(** A document that has clusters and no global sense yet. *)
Lemma scoring_needs_global_senses_witness :
  Main.score_words ["cat"; "sat"; "mat"]%string 2
    [Document.mk 0 [[0; 1; 2]] [] [0; 1; 2] Reference]
  = Raise IndexError.
Proof.
  apply (scoring_needs_global_senses ["cat"; "sat"; "mat"]%string 2
           [Document.mk 0 [[0; 1; 2]] [] [0; 1; 2] Reference]
           (Document.mk 0 [[0; 1; 2]] [] [0; 1; 2] Reference)).
  - apply (list_elem_of_lookup_2 _ 0). reflexivity.
  - simpl. lia.
Defined.
